(** * Hermez node: pool admission, transaction codecs and the transaction selector

    A shallow embedding of the Go sources
    - [common/pooll2tx.go]   (PoolL2Tx, NewPoolL2Tx, SetType, SetID, TxCompressedData,
                              TxCompressedDataV2, RqTxCompressedDataV2, L2Tx,
                              PoolL2TxsToL2Txs, TxIDsFromPoolL2Txs),
    - [api/txspool.go]       (postPoolTx, postAtomicPool, requestOffset2RelativePosition,
                              isSingleAtomicGroup, verifyPoolL2Tx),
    - [txselector/txselector.go] (getL1L2TxSelection, sortL2Txs, the capacity gates,
                              the atomic group filters, the mean fee of the groups),
    followed by the properties proved about them.

    Conventions.  Go's fixed-width unsigned integers are [Z] with the range
    stated where a theorem needs it; a byte is a [Z] in [0, 256); byte arrays
    and slices are [list Z]; [*big.Int] is [option Z] ([None] is the nil
    pointer); a Go [map] that is only looked up is a [gmap]; a Go [map] that
    is ranged over is an association list in insertion order together with an
    explicit iteration order.  A Go function returning [(T, error)] returns
    [result T]. *)

From Stdlib Require Import ZArith List Bool Lia Permutation Sorted Relations.
From stdpp Require Import base option list gmap.
Import ListNotations.
Local Open Scope Z_scope.

(** ** Results of fallible Go code *)

Inductive error : Type :=
  | ErrMalformedTx            (* "malformed transaction" (SetType) *)
  | ErrTypeMismatch           (* "L2Tx.Type: %s, should be: %s" *)
  | ErrTxIDMismatch           (* "PoolL2Tx.TxID: %s, should be: %s" *)
  | ErrIdxOverflow
  | ErrNonceOverflow
  | ErrFloat16                (* NewFloat16 failed *)
  | ErrFeeAmount              (* CalcFeeAmount failed *)
  | ErrGetFromAccount         (* "Error getting from account" *)
  | ErrTokenID                (* "tx.TokenID != account.TokenID" *)
  | ErrNonce                  (* "tx.Nonce < account.Nonce" *)
  | ErrWrongSignature         (* "wrong signature" *)
  | ErrGetToAccount           (* "Error getting to account" *)
  | ErrToTokenID              (* "tx.TokenID != toAccount.TokenID" *)
  | ErrCanSendToEthAddr       (* error returned by CanSendToEthAddr *)
  | ErrNoDestination          (* "Destination eth addr has not a valid account ..." *)
  | ErrExitAmount0
  | ErrNotAtomicTxsInPostPoolTx
  | ErrSingleTxInAtomicEndpoint
  | ErrRqOffsetOutOfBounds
  | ErrTxsNotAtomic
  | ErrInvalidRqOffset
  | ErrBindJSON               (* the request body did not parse *)
  | ErrSQL                    (* persistence failure *)
  | ErrStateDB                (* error of the state database or of the processor *)
  | ErrIdxNotFound            (* statedb.ErrIdxNotFound *)
  | ErrVerifier.              (* error sent by the verifier on errChan *)

(** [Panic] is a Go run-time panic (nil dereference, index out of range). *)
Inductive result (A : Type) : Type :=
  | Ok (a : A)
  | Err (e : error)
  | Panic.
Arguments Ok {A} a.
Arguments Err {A} e.
Arguments Panic {A}.

Global Instance result_bind : MBind result := fun A B k r =>
  match r with
  | Ok a => k a
  | Err e => Err e
  | Panic => Panic
  end.

Definition is_Err {A} (r : result A) : Prop :=
  match r with Err _ => True | _ => False end.

(** ** float64, as far as the sources use it

    [AbsoluteFee] is a [float64].  The sources compare fees with [>] and [!=]
    and average them with [+] and [/]; nothing else is needed.  The laws are
    those of [>] and [!=] on float64 values other than NaN. *)

Class Float64 : Type := {
  float64 : Type;
  f64_zero : float64;                       (* zero value, also of a missing map key *)
  f64_gtb : float64 -> float64 -> bool;     (* a > b *)
  f64_neb : float64 -> float64 -> bool;     (* a != b *)
  f64_add : float64 -> float64 -> float64;  (* a + b *)
  f64_div : float64 -> float64 -> float64;  (* a / b *)
  f64_of_int : Z -> float64                 (* float64(n) *)
}.

Class Float64Order {F64 : Float64} : Prop := {
  f64_gtb_irrefl : forall a, f64_gtb a a = false;
  f64_gtb_trans : forall a b c,
    f64_gtb a b = true -> f64_gtb b c = true -> f64_gtb a c = true;
  f64_gtb_cotrans : forall a b c,
    f64_gtb a c = true -> f64_gtb a b = true \/ f64_gtb b c = true;
  f64_neb_gtb : forall a b, f64_neb a b = f64_gtb a b || f64_gtb b a
}.

(** ** Package common: identifiers and byte codecs *)

Module common.

Definition Idx := Z.          (* uint64, 48 bits used *)
Definition Nonce := Z.        (* uint64, 40 bits used *)
Definition TokenID := Z.      (* uint32 *)
Definition FeeSelector := Z.  (* uint8 *)
Definition TxID := list Z.            (* [12]byte *)
Definition AtomicGroupID := list Z.   (* [32]byte *)
Definition Address := list Z.         (* ethCommon.Address, [20]byte *)
Definition PublicKeyComp := list Z.   (* babyjub.PublicKeyComp, [32]byte *)
Definition BatchNum := Z.

(** Zero values of the array types. *)
Definition EmptyTxID : TxID := repeat 0 12.
Definition EmptyAtomicGroupID : AtomicGroupID := repeat 0 32.
Definition EmptyAddr : Address := repeat 0 20.
Definition EmptyBJJComp : PublicKeyComp := repeat 0 32.

Inductive TxType : Type :=
  | TxTypeUnset   (* the empty string *)
  | TxTypeExit
  | TxTypeTransfer
  | TxTypeTransferToEthAddr
  | TxTypeTransferToBJJ
  | TxTypeDeposit
  | TxTypeCreateAccountDeposit
  | TxTypeCreateAccountDepositTransfer
  | TxTypeDepositTransfer
  | TxTypeForceTransfer
  | TxTypeForceExit.

Global Instance TxType_eq_dec : EqDecision TxType.
Proof. solve_decision. Defined.

(** Constants of package common whose declarations are not in the sources at
    hand.  [IdxUserThreshold] is the first user account index,
    [TxIDPrefixL2Tx] the first byte of an L2 transaction id, [FFAddr] the
    address that marks a transfer to a BJJ key, [SignatureConstantBytes] the
    four bytes that close [TxCompressedData]. *)
Class Consts : Type := {
  IdxUserThreshold : Idx;
  TxIDPrefixL2Tx : Z;
  FFAddr : Address;
  SignatureConstantBytes : list Z
}.

(** *** Big-endian bytes *)

(** [byte(x)]: conversion of an unsigned integer to [uint8]. *)
Definition byte_of (x : Z) : Z := Z.land x 255.

(** [binary.BigEndian.PutUintN]: the [n] low bytes of [x], most significant first. *)
Fixpoint be_bytes (n : nat) (x : Z) : list Z :=
  match n with
  | O => []
  | S k => byte_of (Z.shiftr x (8 * Z.of_nat k)) :: be_bytes k x
  end.

Definition PutUint16 (x : Z) : list Z := be_bytes 2 x.
Definition PutUint32 (x : Z) : list Z := be_bytes 4 x.
Definition PutUint64 (x : Z) : list Z := be_bytes 8 x.

(** [new(big.Int).SetBytes(b)]: [b] read as a big-endian unsigned integer. *)
Definition SetBytes (b : list Z) : Z :=
  fold_left (fun acc x => acc * 256 + x) b 0.

(** [copy(dst[lo:hi], src)]: overwrites [dst] from [lo] with the first
    [min (hi - lo) (len src)] elements of [src]. *)
Definition copy_into (dst : list Z) (lo hi : nat) (src : list Z) : list Z :=
  let n := Nat.min (hi - lo) (length src) in
  firstn lo dst ++ firstn n src ++ skipn (lo + n) dst.

Definition maxIdxValue : Z := 2 ^ 48 - 1.
Definition maxNonceValue : Z := 2 ^ 40 - 1.

(** Modelled from the spec: [Idx.Bytes] is not in the sources at hand.  An
    [Idx] is a 48-bit unsigned integer written as 6 big-endian bytes; a
    value that does not fit is an error. *)
Definition Idx_Bytes (idx : Idx) : result (list Z) :=
  if idx >? maxIdxValue then Err ErrIdxOverflow
  else Ok (skipn 2 (PutUint64 idx)).

(** Modelled from the spec: [Nonce.Bytes] is not in the sources at hand.  A
    [Nonce] is a 40-bit unsigned integer written as 5 big-endian bytes; a
    value that does not fit is an error. *)
Definition Nonce_Bytes (n : Nonce) : result (list Z) :=
  if n >? maxNonceValue then Err ErrNonceOverflow
  else Ok (skipn 3 (PutUint64 n)).

(** Modelled from the spec: [TokenID.Bytes] is not in the sources at hand.
    A [TokenID] is a 32-bit unsigned integer written as 4 big-endian bytes. *)
Definition TokenID_Bytes (t : TokenID) : list Z := PutUint32 t.

(** Modelled from the spec: [Float16.Bytes] is not in the sources at hand.
    A [Float16] is a 16-bit value written as 2 big-endian bytes. *)
Definition Float16_Bytes (f16 : Z) : list Z := PutUint16 f16.

End common.

(** ** The pool transaction *)

Module PoolL2Tx.
Section fields.
Context {F64 : Float64}.

Record t : Type := mk {
  TxID : common.TxID;
  FromIdx : common.Idx;
  ToIdx : common.Idx;
  AuxToIdx : common.Idx;
  ToEthAddr : common.Address;
  ToBJJ : common.PublicKeyComp;
  TokenID : common.TokenID;
  Amount : option Z;
  Fee : common.FeeSelector;
  Nonce : common.Nonce;
  Signature : list Z;
  RqFromIdx : common.Idx;
  RqToIdx : common.Idx;
  RqToEthAddr : common.Address;
  RqToBJJ : common.PublicKeyComp;
  RqTokenID : common.TokenID;
  RqAmount : option Z;
  RqFee : common.FeeSelector;
  RqNonce : common.Nonce;
  AbsoluteFee : float64;
  Type_ : common.TxType;
  (* fields used by the api and txselector sources *)
  RqOffset : Z;                          (* uint8 *)
  RqTxID : common.TxID;
  AtomicGroupID : common.AtomicGroupID;
  ClientIP : list Z;
  Info : list Z;
  ErrorCode : Z;
  ErrorType : list Z
}.

Definition set_Type (ty : common.TxType) (tx : t) : t :=
  mk (TxID tx) (FromIdx tx) (ToIdx tx) (AuxToIdx tx) (ToEthAddr tx) (ToBJJ tx)
     (TokenID tx) (Amount tx) (Fee tx) (Nonce tx) (Signature tx)
     (RqFromIdx tx) (RqToIdx tx) (RqToEthAddr tx) (RqToBJJ tx) (RqTokenID tx)
     (RqAmount tx) (RqFee tx) (RqNonce tx) (AbsoluteFee tx) ty
     (RqOffset tx) (RqTxID tx) (AtomicGroupID tx) (ClientIP tx)
     (Info tx) (ErrorCode tx) (ErrorType tx).

Definition set_TxID (id : common.TxID) (tx : t) : t :=
  mk id (FromIdx tx) (ToIdx tx) (AuxToIdx tx) (ToEthAddr tx) (ToBJJ tx)
     (TokenID tx) (Amount tx) (Fee tx) (Nonce tx) (Signature tx)
     (RqFromIdx tx) (RqToIdx tx) (RqToEthAddr tx) (RqToBJJ tx) (RqTokenID tx)
     (RqAmount tx) (RqFee tx) (RqNonce tx) (AbsoluteFee tx) (Type_ tx)
     (RqOffset tx) (RqTxID tx) (AtomicGroupID tx) (ClientIP tx)
     (Info tx) (ErrorCode tx) (ErrorType tx).

Definition set_ClientIP (ip : list Z) (tx : t) : t :=
  mk (TxID tx) (FromIdx tx) (ToIdx tx) (AuxToIdx tx) (ToEthAddr tx) (ToBJJ tx)
     (TokenID tx) (Amount tx) (Fee tx) (Nonce tx) (Signature tx)
     (RqFromIdx tx) (RqToIdx tx) (RqToEthAddr tx) (RqToBJJ tx) (RqTokenID tx)
     (RqAmount tx) (RqFee tx) (RqNonce tx) (AbsoluteFee tx) (Type_ tx)
     (RqOffset tx) (RqTxID tx) (AtomicGroupID tx) ip
     (Info tx) (ErrorCode tx) (ErrorType tx).

(** The eight assignments [receivedTxs[i].RqX = requestedTx.X] of postAtomicPool. *)
Definition set_Rq (rq : t) (tx : t) : t :=
  mk (TxID tx) (FromIdx tx) (ToIdx tx) (AuxToIdx tx) (ToEthAddr tx) (ToBJJ tx)
     (TokenID tx) (Amount tx) (Fee tx) (Nonce tx) (Signature tx)
     (FromIdx rq) (ToIdx rq) (ToEthAddr rq) (ToBJJ rq) (TokenID rq)
     (Amount rq) (Fee rq) (Nonce rq) (AbsoluteFee tx) (Type_ tx)
     (RqOffset tx) (RqTxID tx) (AtomicGroupID tx) (ClientIP tx)
     (Info tx) (ErrorCode tx) (ErrorType tx).

(** [tx.Info = info; tx.ErrorCode = code; tx.ErrorType = ty]. *)
Definition set_Info (info : list Z) (code : Z) (ty : list Z) (tx : t) : t :=
  mk (TxID tx) (FromIdx tx) (ToIdx tx) (AuxToIdx tx) (ToEthAddr tx) (ToBJJ tx)
     (TokenID tx) (Amount tx) (Fee tx) (Nonce tx) (Signature tx)
     (RqFromIdx tx) (RqToIdx tx) (RqToEthAddr tx) (RqToBJJ tx) (RqTokenID tx)
     (RqAmount tx) (RqFee tx) (RqNonce tx) (AbsoluteFee tx) (Type_ tx)
     (RqOffset tx) (RqTxID tx) (AtomicGroupID tx) (ClientIP tx)
     info code ty.
End fields.
End PoolL2Tx.

(** ** common/pooll2tx.go *)

Section pooll2tx.
Context {F64 : Float64} {CC : common.Consts}.

(** [SetType] sets the type of the transaction. *)
Definition SetType (tx : PoolL2Tx.t) : result PoolL2Tx.t :=
  if PoolL2Tx.ToIdx tx >=? common.IdxUserThreshold then
    Ok (PoolL2Tx.set_Type common.TxTypeTransfer tx)
  else if PoolL2Tx.ToIdx tx =? 1 then
    Ok (PoolL2Tx.set_Type common.TxTypeExit tx)
  else if PoolL2Tx.ToIdx tx =? 0 then
    if bool_decide (PoolL2Tx.ToBJJ tx <> common.EmptyBJJComp)
       && bool_decide (PoolL2Tx.ToEthAddr tx = common.FFAddr) then
      Ok (PoolL2Tx.set_Type common.TxTypeTransferToBJJ tx)
    else if bool_decide (PoolL2Tx.ToEthAddr tx <> common.FFAddr)
            && bool_decide (PoolL2Tx.ToEthAddr tx <> common.EmptyAddr) then
      Ok (PoolL2Tx.set_Type common.TxTypeTransferToEthAddr tx)
    else Ok tx
  else Err ErrMalformedTx.

(** [SetID] sets the ID of the transaction.  Uses (FromIdx, Nonce).  The
    array [tx.TxID] is written in place: byte 0 first, then bytes 1..6 once
    [FromIdx.Bytes] succeeded, then bytes 7..11. *)
Definition SetID (tx : PoolL2Tx.t) : result PoolL2Tx.t :=
  let id0 := <[0%nat := common.TxIDPrefixL2Tx]> (PoolL2Tx.TxID tx) in
  fromIdxBytes ← common.Idx_Bytes (PoolL2Tx.FromIdx tx);
  let id1 := common.copy_into id0 1 7 fromIdxBytes in
  nonceBytes ← common.Nonce_Bytes (PoolL2Tx.Nonce tx);
  let id2 := common.copy_into id1 7 12 nonceBytes in
  Ok (PoolL2Tx.set_TxID id2 tx).

(** [NewPoolL2Tx] returns the given L2Tx with the TxId & Type parameters
    calculated from the L2Tx values. *)
Definition NewPoolL2Tx (tx : PoolL2Tx.t) : result PoolL2Tx.t :=
  let txTypeOld := PoolL2Tx.Type_ tx in
  tx1 ← SetType tx;
  if bool_decide (txTypeOld <> common.TxTypeUnset)
     && bool_decide (txTypeOld <> PoolL2Tx.Type_ tx1) then Err ErrTypeMismatch
  else
    let txIDOld := PoolL2Tx.TxID tx1 in
    tx2 ← SetID tx1;
    if bool_decide (txIDOld <> common.EmptyTxID)
       && bool_decide (txIDOld <> PoolL2Tx.TxID tx2) then Err ErrTxIDMismatch
    else Ok tx2.

(** Functions of other packages used by [TxCompressedData]: [NewFloat16]
    (package common, not in the sources at hand) and [babyjub.UnpackSignY]
    (go-iden3-crypto), of which only the sign is used. *)
Class Codec : Type := {
  NewFloat16 : option Z -> result Z;
  UnpackSignY_sign : common.PublicKeyComp -> bool
}.
Context {CD : Codec}.

(** [TxCompressedData]: the 31 bytes [b] and the big integer read from them. *)
Definition TxCompressedData_bytes (tx : PoolL2Tx.t) (chainID : Z) : result (list Z) :=
  amountFloat16 ← NewFloat16 (PoolL2Tx.Amount tx);
  let b := repeat 0 31 in
  let toBJJSign := if UnpackSignY_sign (PoolL2Tx.ToBJJ tx) then 1 else 0 in
  let b := <[0%nat := toBJJSign]> b in
  let b := <[1%nat := common.byte_of (PoolL2Tx.Fee tx)]> b in
  nonceBytes ← common.Nonce_Bytes (PoolL2Tx.Nonce tx);
  let b := common.copy_into b 2 7 nonceBytes in
  let b := common.copy_into b 7 11 (common.TokenID_Bytes (PoolL2Tx.TokenID tx)) in
  let b := common.copy_into b 11 13 (common.Float16_Bytes amountFloat16) in
  toIdxBytes ← common.Idx_Bytes (PoolL2Tx.ToIdx tx);
  let b := common.copy_into b 13 19 toIdxBytes in
  fromIdxBytes ← common.Idx_Bytes (PoolL2Tx.FromIdx tx);
  let b := common.copy_into b 19 25 fromIdxBytes in
  let b := common.copy_into b 25 27 (common.PutUint16 chainID) in
  let b := common.copy_into b 27 31 common.SignatureConstantBytes in
  Ok b.

Definition TxCompressedData (tx : PoolL2Tx.t) (chainID : Z) : result Z :=
  b ← TxCompressedData_bytes tx chainID;
  Ok (common.SetBytes b).

End pooll2tx.

(** ** Accounts *)

Module Account.
Record t : Type := mk {
  Idx : common.Idx;
  TokenID : common.TokenID;
  BJJ : common.PublicKeyComp;
  EthAddr : common.Address;
  Nonce : common.Nonce;
  Balance : Z
}.

Definition set_Balance (b : Z) (a : t) : t :=
  mk (Idx a) (TokenID a) (BJJ a) (EthAddr a) (Nonce a) b.
End Account.

(** [l[i]] for a Go [int] index; [None] where Go panics. *)
Definition at_ {A} (l : list A) (i : Z) : option A :=
  if i <? 0 then None else l !! Z.to_nat i.

(** ** github.com/yourbasic/graph, as far as isSingleAtomicGroup uses it

    A [Mutable] graph with a fixed number of vertices [0 .. n-1]; vertex [v]
    is the [v]-th adjacency list.  [StrongComponents] "produces a partition
    of g's vertices into its strongly connected components"; the partition
    is computed here from mutual reachability, the order of the components
    and of their members being of no consequence for the caller. *)

Module graph.

Definition Mutable := list (list nat).

Definition New (n : nat) : Mutable := repeat [] n.

Definition Add (g : Mutable) (v w : nat) : Mutable := alter (cons w) v g.

Definition Order (g : Mutable) : nat := length g.

Definition succs (g : Mutable) (v : nat) : list nat := default [] (g !! v).

Definition fresh (seen : list nat) (ws : list nat) : list nat :=
  remove_dups (filter (fun w => w ∉ seen) ws).

(** Vertices reachable from [seen] in at most [fuel] further steps. *)
Fixpoint expand (g : Mutable) (fuel : nat) (seen : list nat) : list nat :=
  match fuel with
  | O => seen
  | S f => expand g f (seen ++ fresh seen (flat_map (succs g) seen))
  end.

Definition reach (g : Mutable) (v : nat) : list nat := expand g (Order g) [v].

Definition reaches (g : Mutable) (v w : nat) : bool := bool_decide (w ∈ reach g v).

(** The strongly connected component of [v]. *)
Definition component (g : Mutable) (v : nat) : list nat :=
  filter (fun w => reaches g v w && reaches g w v) (seq 0 (Order g)).

Fixpoint components (g : Mutable) (vs : list nat) (assigned : list nat)
  : list (list nat) :=
  match vs with
  | [] => []
  | v :: vs' =>
      if bool_decide (v ∈ assigned) then components g vs' assigned
      else let c := component g v in c :: components g vs' (c ++ assigned)
  end.

Definition StrongComponents (g : Mutable) : list (list nat) :=
  components g (seq 0 (Order g)) [].

End graph.

(** ** api/txspool.go *)

(** [requestOffset2RelativePosition] translates from 0 to 7 to protocol
    position.  Returns the Go pair [(int, error)]. *)
Definition requestOffset2RelativePosition (rqoffset : Z) : Z * option error :=
  let rqOffsetZero := 0 in
  let rqOffsetOne := 1 in
  let rqOffsetTwo := 2 in
  let rqOffsetThree := 3 in
  let rqOffsetFour := 4 in
  let rqOffsetFive := 5 in
  let rqOffsetSix := 6 in
  let rqOffsetSeven := 7 in
  let rqOffsetMinusFour := -4 in
  let rqOffsetMinusThree := -3 in
  let rqOffsetMinusTwo := -2 in
  let rqOffsetMinusOne := -1 in
  if rqoffset =? rqOffsetZero then (rqOffsetZero, Some ErrTxsNotAtomic)
  else if rqoffset =? rqOffsetOne then (rqOffsetOne, None)
  else if rqoffset =? rqOffsetTwo then (rqOffsetTwo, None)
  else if rqoffset =? rqOffsetThree then (rqOffsetThree, None)
  else if rqoffset =? rqOffsetFour then (rqOffsetMinusFour, None)
  else if rqoffset =? rqOffsetFive then (rqOffsetMinusThree, None)
  else if rqoffset =? rqOffsetSix then (rqOffsetMinusTwo, None)
  else if rqoffset =? rqOffsetSeven then (rqOffsetMinusOne, None)
  else (rqOffsetZero, Some ErrInvalidRqOffset).

Section txspool.
Context {F64 : Float64} {CC : common.Consts}.

(** [idToPos[tx.TxID] = i] for every [i] in order: a later transaction with
    the same id overwrites an earlier one. *)
Fixpoint idToPos_from (i : nat) (txs : list PoolL2Tx.t)
    (m : gmap common.TxID nat) : gmap common.TxID nat :=
  match txs with
  | [] => m
  | tx :: rest => idToPos_from (S i) rest (<[PoolL2Tx.TxID tx := i]> m)
  end.

Definition idToPos (txs : list PoolL2Tx.t) : gmap common.TxID nat :=
  idToPos_from 0 txs ∅.

(** The second loop of [isSingleAtomicGroup]: [None] is the early
    [return false]. *)
Fixpoint addEdges (m : gmap common.TxID nat) (i : nat) (txs : list PoolL2Tx.t)
    (g : graph.Mutable) : option graph.Mutable :=
  match txs with
  | [] => Some g
  | tx :: rest =>
      if bool_decide (PoolL2Tx.RqTxID tx = common.EmptyTxID) then None
      else match m !! PoolL2Tx.RqTxID tx with
           | Some rqTxPos => addEdges m (S i) rest (graph.Add g i rqTxPos)
           | None => None
           end
  end.

(** [isSingleAtomicGroup] returns true if all the txs are needed to be forged
    (all txs will be forged in the same batch or non of them will be forged). *)
Definition isSingleAtomicGroup (txs : list PoolL2Tx.t) : bool :=
  let g := graph.New (length txs) in
  let idToPos := idToPos txs in
  match addEdges idToPos 0 txs g with
  | None => false
  | Some g =>
      let strongComponents := graph.StrongComponents g in
      bool_decide (length strongComponents = 1%nat)
  end.

(** What the handlers reach through [a.h], [a.l2] and [a.cg], and the
    functions of other packages they call.  Which error such a function
    returns is not looked at by the handlers: an error of [CalcFeeAmount]
    is [ErrFeeAmount] below, and so on. *)
Class ApiEnv : Type := {
  HistoryDB : Type;
  L2DB : Type;
  GetCommonAccountAPI : HistoryDB -> common.Idx -> result Account.t;
  CanSendToEthAddr : HistoryDB -> common.Address -> common.TokenID -> result bool;
  AddTxAPI : L2DB -> PoolL2Tx.t -> result L2DB;
  AddAtomicTxsAPI : L2DB -> list PoolL2Tx.t -> result L2DB;
  CalcFeeAmount : option Z -> common.FeeSelector -> result Z;
  VerifySignature : PoolL2Tx.t -> Z -> common.PublicKeyComp -> bool
}.
Context {AE : ApiEnv}.

Record API : Type := mkAPI {
  h : HistoryDB;
  l2 : L2DB;
  cg_ChainID : Z
}.

Definition verifyPoolL2Tx (a : API) (tx : PoolL2Tx.t) : result unit :=
  (* Check type and id *)
  tx ← NewPoolL2Tx tx;
  (* Validate feeAmount *)
  _ ← match CalcFeeAmount (PoolL2Tx.Amount tx) (PoolL2Tx.Fee tx) with
      | Panic => Panic
      | Err _ => Err ErrFeeAmount
      | Ok feeAmount => Ok feeAmount
      end;
  (* Get sender account information *)
  match GetCommonAccountAPI (h a) (PoolL2Tx.FromIdx tx) with
  | Panic => Panic
  | Err _ => Err ErrGetFromAccount
  | Ok account =>
    (* Validate sender: TokenID *)
    if negb (PoolL2Tx.TokenID tx =? Account.TokenID account) then Err ErrTokenID
    (* Nonce *)
    else if PoolL2Tx.Nonce tx <? Account.Nonce account then Err ErrNonce
    (* Check signature *)
    else if negb (VerifySignature tx (cg_ChainID a) (Account.BJJ account))
    then Err ErrWrongSignature
    else
      (* Check destinatary *)
      _ ← match PoolL2Tx.Type_ tx with
          | common.TxTypeTransfer =>
              match GetCommonAccountAPI (h a) (PoolL2Tx.ToIdx tx) with
              | Panic => Panic
              | Err _ => Err ErrGetToAccount
              | Ok toAccount =>
                  if negb (PoolL2Tx.TokenID tx =? Account.TokenID toAccount)
                  then Err ErrToTokenID else Ok ()
              end
          | common.TxTypeTransferToEthAddr =>
              match CanSendToEthAddr (h a) (PoolL2Tx.ToEthAddr tx) (PoolL2Tx.TokenID tx) with
              | Panic => Panic
              | Err _ => Err ErrCanSendToEthAddr
              | Ok ok => if negb ok then Err ErrNoDestination else Ok ()
              end
          | _ => Ok ()
          end;
      (* Extra sanity checks *)
      match PoolL2Tx.Type_ tx with
      | common.TxTypeExit =>
          match PoolL2Tx.Amount tx with
          | None => Panic
          | Some amount => if amount <=? 0 then Err ErrExitAmount0 else Ok ()
          end
      | _ => Ok ()
      end
  end.

(** The reply of a handler: [retBadReq], [retSQLErr], [c.JSON(http.StatusOK, ...)]. *)
Inductive response : Type :=
  | BadReq (e : error)
  | SQLErr (e : error)
  | StatusOK (txIDs : list common.TxID)
  | Panicked.

(** [postPoolTx]; [body] is the outcome of [c.ShouldBindJSON(&receivedTx)].
    Returns the reply and the pool database. *)
Definition postPoolTx (a : API) (body : result PoolL2Tx.t) (clientIP : list Z)
  : response * L2DB :=
  match body with
  | Panic => (Panicked, l2 a)
  | Err e => (BadReq e, l2 a)
  | Ok receivedTx =>
    if negb (PoolL2Tx.RqOffset receivedTx =? 0)
       || bool_decide (PoolL2Tx.RqTxID receivedTx <> common.EmptyTxID)
    then (BadReq ErrNotAtomicTxsInPostPoolTx, l2 a)
    else
      (* Check that tx is valid *)
      match verifyPoolL2Tx a receivedTx with
      | Panic => (Panicked, l2 a)
      | Err e => (BadReq e, l2 a)
      | Ok _ =>
        let receivedTx := PoolL2Tx.set_ClientIP clientIP receivedTx in
        (* Insert to DB *)
        match AddTxAPI (l2 a) receivedTx with
        | Panic => (Panicked, l2 a)
        | Err e => (SQLErr e, l2 a)
        | Ok db => (StatusOK [PoolL2Tx.TxID receivedTx], db)
        end
      end
  end.

(** The loop of [postAtomicPool] that sets the Rq fields, from index [i] on;
    [receivedTxs] is updated in place. *)
Fixpoint setRqFields (fuel : nat) (i : nat) (receivedTxs : list PoolL2Tx.t)
  : result (list PoolL2Tx.t) :=
  match fuel with
  | O => Ok receivedTxs
  | S fuel' =>
    match receivedTxs !! i with
    | None => Ok receivedTxs
    | Some tx1 =>
      match requestOffset2RelativePosition (PoolL2Tx.RqOffset tx1) with
      | (_, Some err) => Err err
      | (relativePosition, None) =>
        let requestedPosition := Z.of_nat i + relativePosition in
        if (requestedPosition >? Z.of_nat (length receivedTxs) - 1)
           || (requestedPosition <? 0)
        then Err ErrRqOffsetOutOfBounds
        else
          match at_ receivedTxs requestedPosition with
          | None => Panic
          | Some requestedTx =>
            let receivedTxs :=
              if bool_decide (PoolL2Tx.RqTxID tx1 = PoolL2Tx.TxID requestedTx)
              then <[i := PoolL2Tx.set_Rq requestedTx tx1]> receivedTxs
              else receivedTxs in
            setRqFields fuel' (S i) receivedTxs
          end
      end
    end
  end.

(** The loop of [postAtomicPool] that validates the txs individually. *)
Fixpoint verifyEach (a : API) (clientIP : list Z) (txs : list PoolL2Tx.t)
  : result (list PoolL2Tx.t * list common.TxID) :=
  match txs with
  | [] => Ok ([], [])
  | tx :: rest =>
      _ ← verifyPoolL2Tx a tx;
      r ← verifyEach a clientIP rest;
      Ok (PoolL2Tx.set_ClientIP clientIP tx :: r.1, PoolL2Tx.TxID tx :: r.2)
  end.

Definition postAtomicPool (a : API) (body : result (list PoolL2Tx.t))
    (clientIP : list Z) : response * L2DB :=
  match body with
  | Panic => (Panicked, l2 a)
  | Err e => (BadReq e, l2 a)
  | Ok receivedTxs =>
    let nTxs := length receivedTxs in
    if (nTxs <=? 1)%nat then (BadReq ErrSingleTxInAtomicEndpoint, l2 a)
    else
      (* set the Rq fields *)
      match setRqFields nTxs 0 receivedTxs with
      | Panic => (Panicked, l2 a)
      | Err e => (BadReq e, l2 a)
      | Ok receivedTxs =>
        (* Validate txs individually *)
        match verifyEach a clientIP receivedTxs with
        | Panic => (Panicked, l2 a)
        | Err e => (BadReq e, l2 a)
        | Ok (receivedTxs, txIDStrings) =>
          (* Validate that all txs in the payload represent an atomic group *)
          if negb (isSingleAtomicGroup receivedTxs)
          then (BadReq ErrTxsNotAtomic, l2 a)
          else
            (* Insert to DB *)
            match AddAtomicTxsAPI (l2 a) receivedTxs with
            | Panic => (Panicked, l2 a)
            | Err e => (SQLErr e, l2 a)
            | Ok db => (StatusOK txIDStrings, db)
            end
        end
      end
  end.

End txspool.

(** ** L1 transactions and the processor configuration *)

Module L1Tx.
Record t : Type := mk {
  ToForgeL1TxsNum : option Z;
  Position : Z;
  UserOrigin : bool;
  FromIdx : common.Idx;
  FromEthAddr : common.Address;
  FromBJJ : common.PublicKeyComp;
  ToIdx : common.Idx;
  TokenID : common.TokenID;
  Amount : Z;
  DepositAmount : Z;
  (* set by the processor; nil before *)
  EffectiveAmount : option Z;
  EffectiveDepositAmount : option Z;
  Type_ : common.TxType
}.

Definition set_Effective (amount deposit : option Z) (tx : t) : t :=
  mk (ToForgeL1TxsNum tx) (Position tx) (UserOrigin tx) (FromIdx tx)
     (FromEthAddr tx) (FromBJJ tx) (ToIdx tx) (TokenID tx) (Amount tx)
     (DepositAmount tx) amount deposit (Type_ tx).
End L1Tx.

Module Config.
(** [txprocessor.Config] *)
Record t : Type := mk {
  NLevels : Z;
  MaxFeeTx : Z;
  MaxTx : Z;
  MaxL1Tx : Z;
  ChainID : Z
}.
End Config.

(** ** The transaction processor, as far as the selector uses it *)

Section txprocessor.
Context {CC : common.Consts}.

(** The state database and the processor working on it ([tp], with its
    [AccumulatedFees]), reached through these operations; their code is not
    in the sources at hand. *)
Class StateDBOps : Type := {
  TxProcessor : Type;
  GetAccount : TxProcessor -> common.Idx -> result Account.t;
  UpdateAccount : TxProcessor -> common.Idx -> Account.t -> result TxProcessor;
  GetIdxByEthAddrBJJ : TxProcessor -> common.Address -> common.PublicKeyComp ->
                       common.TokenID -> result common.Idx;
  MakeCheckpoint : TxProcessor -> result TxProcessor;
  Reset : TxProcessor -> common.BatchNum -> bool -> result TxProcessor;
  CurrentBatch : TxProcessor -> common.BatchNum;
  (* tp.AccumulatedFees = make(map[common.Idx]*big.Int) *)
  clearAccumulatedFees : TxProcessor -> TxProcessor;
  (* the entries of tp.AccumulatedFees, in the order a range visits them *)
  AccumulatedFees : TxProcessor -> list (common.Idx * Z);
  (* the balance and account changes of one L1 tx, once its effective
     amounts are known *)
  applyL1Tx : TxProcessor -> L1Tx.t -> result TxProcessor
}.
Context {SDB : StateDBOps}.

Definition lookupAccount (tp : TxProcessor) (idx : common.Idx) : option Account.t :=
  match GetAccount tp idx with
  | Ok acc => Some acc
  | _ => None
  end.

(** The balance the sender has before the tx: that of its account, and
    nothing when the tx creates the account ([FromIdx] 0) or names an
    account that does not exist. *)
Definition preExistingBalance (tp : TxProcessor) (tx : L1Tx.t) : Z :=
  if L1Tx.FromIdx tx =? 0 then 0
  else match lookupAccount tp (L1Tx.FromIdx tx) with
       | Some acc => Account.Balance acc
       | None => 0
       end.

(** Modelled from the spec: [computeEffectiveAmounts] is not in the sources
    at hand, only its test.  Rules of the effective-amount section, in
    order: (1) the effective deposit is the deposit, unconditionally;
    (2) a pre-existing sender must have the tx's [FromEthAddr];
    (3) the tx's [TokenID] must be that of the sender and, when a recipient
    is specified, of the recipient; (4) the sender's balance plus the
    effective deposit must cover [Amount]; (5) for the transfer-carrying
    deposits the recipient account must exist for the [TokenID], which
    [recipientTokenOk] covers together with (3).  A failed rule zeroes
    [EffectiveAmount] only. *)
Definition computeEffectiveAmounts (tp : TxProcessor) (tx : L1Tx.t) : L1Tx.t :=
  let effectiveDepositAmount := L1Tx.DepositAmount tx in
  let sender :=
    if L1Tx.FromIdx tx =? 0 then None else Some (lookupAccount tp (L1Tx.FromIdx tx)) in
  let recipient :=
    if L1Tx.ToIdx tx >=? common.IdxUserThreshold
    then Some (lookupAccount tp (L1Tx.ToIdx tx)) else None in
  let senderEthAddrOk :=
    match sender with
    | None => true
    | Some None => false
    | Some (Some acc) => bool_decide (L1Tx.FromEthAddr tx = Account.EthAddr acc)
    end in
  let senderTokenOk :=
    match sender with
    | Some (Some acc) => L1Tx.TokenID tx =? Account.TokenID acc
    | _ => true
    end in
  let recipientTokenOk :=
    match recipient with
    | None => true
    | Some None => false
    | Some (Some acc) => L1Tx.TokenID tx =? Account.TokenID acc
    end in
  let fundsOk :=
    L1Tx.Amount tx <=? preExistingBalance tp tx + effectiveDepositAmount in
  let effectiveAmount :=
    if senderEthAddrOk && senderTokenOk && recipientTokenOk && fundsOk
    then L1Tx.Amount tx else 0 in
  L1Tx.set_Effective (Some effectiveAmount) (Some effectiveDepositAmount) tx.

(** Modelled from the spec: [ProcessL1Tx] is not in the sources at hand.
    The processor computes the effective amounts of the tx, writing them
    into the tx it was handed by reference, and only then mutates balances
    and creates the account. *)
Definition ProcessL1Tx (tp : TxProcessor) (tx : L1Tx.t) : result (TxProcessor * L1Tx.t) :=
  let tx := computeEffectiveAmounts tp tx in
  tp ← applyL1Tx tp tx;
  Ok (tp, tx).

End txprocessor.

(** ** txselector/txselector.go *)

Module TxSelectorError.
(** [common.TxSelectorError] *)
Record t : Type := mk {
  Message : list Z;
  Code : Z;
  Type_ : list Z
}.
End TxSelectorError.

(** [sort.SliceStable]: insertion keeps equal elements in their original order. *)
Fixpoint insertStable {A} (less : A -> A -> bool) (x : A) (l : list A) : list A :=
  match l with
  | [] => [x]
  | y :: l' => if less y x then y :: insertStable less x l' else x :: y :: l'
  end.

Definition sort_SliceStable {A} (less : A -> A -> bool) (l : list A) : list A :=
  foldr (insertStable less) [] l.

Section txselector.
Context {F64 : Float64} {CC : common.Consts} {SDB : StateDBOps}.

(** [CoordAccount] contains the data of the Coordinator account. *)
Record CoordAccount : Type := mkCoordAccount {
  Addr : common.Address;
  BJJ : common.PublicKeyComp;
  AccountCreationAuth : list Z
}.

Record failedAtomicGroup : Type := mkFailedAtomicGroup {
  id : common.AtomicGroupID;
  failedTxID : common.TxID;
  reason : TxSelectorError.t
}.

(** The pool database, the constants of the package declared in other files,
    and what the Go run time leaves open: the order in which a [range]
    visits the keys of a map ([rangeOrder], applied to the entries in
    insertion order) and the order in which [sort.Slice], which is not
    stable, leaves equal elements. *)
Class SelectorEnv : Type := {
  PoolDB : Type;
  GetPendingTxs : PoolDB -> result (list PoolL2Tx.t);
  ErrInvalidAtomicGroup : list Z;
  ErrInvalidAtomicGroupType : list Z;
  ErrInvalidAtomicGroupCode : Z;
  (* fmt.Sprintf("unselectable atomic group %s, tx %s failed due to: %s", ...) *)
  fmtUnselectable : common.AtomicGroupID -> common.TxID -> list Z -> list Z;
  rangeOrder : list (common.AtomicGroupID * list PoolL2Tx.t) ->
               list (common.AtomicGroupID * list PoolL2Tx.t);
  sort_Slice : (PoolL2Tx.t -> PoolL2Tx.t -> bool) -> list PoolL2Tx.t -> list PoolL2Tx.t
}.
Context {SE : SelectorEnv}.

Class SelectorEnvLaws : Prop := {
  rangeOrder_perm : forall m, Permutation (rangeOrder m) m;
  sort_Slice_perm : forall less l, Permutation (sort_Slice less l) l;
  sort_Slice_sorted : forall less l,
    (forall a, less a a = false) ->
    (forall a b c, less a b = true -> less b c = true -> less a c = true) ->
    (forall a b c, less a c = true -> less a b = true \/ less b c = true) ->
    StronglySorted (fun a b => less b a = false) (sort_Slice less l)
}.

(** [TxSelector] implements all the functionalities to select the txs for
    the next batch. *)
Record TxSelector : Type := mkTxSelector {
  l2db : PoolDB;
  localAccountsDB : TxProcessor;
  coordAccount : CoordAccount
}.

Definition getCoordIdx (coord : CoordAccount) (tp : TxProcessor)
    (tokenID : common.TokenID) : result common.Idx :=
  GetIdxByEthAddrBJJ tp (Addr coord) (BJJ coord) tokenID.

(** *** Maps keyed by atomic group, in insertion order *)

Definition groupsMap := list (common.AtomicGroupID * list PoolL2Tx.t).

Fixpoint appendToGroup (groupID : common.AtomicGroupID) (tx : PoolL2Tx.t)
    (m : groupsMap) : groupsMap :=
  match m with
  | [] => [(groupID, [tx])]
  | (k, txs) :: m' =>
      if bool_decide (k = groupID) then (k, txs ++ [tx]) :: m'
      else (k, txs) :: appendToGroup groupID tx m'
  end.

(** *** sortL2Txs *)

(** [atomicGroupsFee[group[0].AtomicGroupID]]; a missing key reads as zero.
    The groups built by [sortL2Txs] are never empty. *)
Definition groupFee (atomicGroupsFee : gmap common.AtomicGroupID float64)
    (group : list PoolL2Tx.t) : float64 :=
  match group with
  | tx :: _ => default f64_zero (atomicGroupsFee !! PoolL2Tx.AtomicGroupID tx)
  | [] => f64_zero
  end.

(** The [less] of the non atomic txs: AbsoluteFee DESC, then FromIdx ASC
    and then Nonce ASC. *)
Definition lessNonAtomic (a b : PoolL2Tx.t) : bool :=
  if f64_neb (PoolL2Tx.AbsoluteFee a) (PoolL2Tx.AbsoluteFee b) then
    f64_gtb (PoolL2Tx.AbsoluteFee a) (PoolL2Tx.AbsoluteFee b)
  else if negb (PoolL2Tx.FromIdx a =? PoolL2Tx.FromIdx b) then
    PoolL2Tx.FromIdx a <? PoolL2Tx.FromIdx b
  else PoolL2Tx.Nonce a <? PoolL2Tx.Nonce b.

(** The first loop of [sortL2Txs]: separate atomic txs. *)
Fixpoint separateAtomic (l2Txs : list PoolL2Tx.t) (atomicGroupsMap : groupsMap)
    (nonAtomicTxs : list PoolL2Tx.t) : groupsMap * list PoolL2Tx.t :=
  match l2Txs with
  | [] => (atomicGroupsMap, nonAtomicTxs)
  | tx :: rest =>
      let groupID := PoolL2Tx.AtomicGroupID tx in
      if bool_decide (groupID <> common.EmptyAtomicGroupID) then
        separateAtomic rest (appendToGroup groupID tx atomicGroupsMap) nonAtomicTxs
      else
        separateAtomic rest atomicGroupsMap (nonAtomicTxs ++ [tx])
  end.

(** The merging loop of [sortL2Txs] and the appending of what remains. *)
Fixpoint combine (atomicGroupsFee : gmap common.AtomicGroupID float64)
    (nonAtomicTxs : list PoolL2Tx.t) (atomicGroups : list (list PoolL2Tx.t))
    {struct nonAtomicTxs} : list PoolL2Tx.t :=
  let fix groupsFirst (atomicGroups : list (list PoolL2Tx.t)) : list PoolL2Tx.t :=
    match nonAtomicTxs with
    | [] => concat atomicGroups
    | tx :: nonAtomicTxs' =>
        match atomicGroups with
        | [] => nonAtomicTxs
        | group :: atomicGroups' =>
            if f64_gtb (PoolL2Tx.AbsoluteFee tx) (groupFee atomicGroupsFee group)
            then tx :: combine atomicGroupsFee nonAtomicTxs' atomicGroups
            else group ++ groupsFirst atomicGroups'
        end
    end in
  groupsFirst atomicGroups.

Definition sortL2Txs (l2Txs : list PoolL2Tx.t)
    (atomicGroupsFee : gmap common.AtomicGroupID float64) : list PoolL2Tx.t :=
  (* Separate atomic txs *)
  let '(atomicGroupsMap, nonAtomicTxs) := separateAtomic l2Txs [] [] in
  (* Sort atomic groups by average fee; first, convert map to slice *)
  let atomicGroups := map snd (rangeOrder atomicGroupsMap) in
  let atomicGroups :=
    sort_SliceStable
      (fun gi gj => f64_gtb (groupFee atomicGroupsFee gi) (groupFee atomicGroupsFee gj))
      atomicGroups in
  (* Sort non atomic txs *)
  let nonAtomicTxs := sort_Slice lessNonAtomic nonAtomicTxs in
  (* Combine atomic and non atomic txs in a single slice *)
  combine atomicGroupsFee nonAtomicTxs atomicGroups.

(** *** The capacity gates *)

Definition canAddL2TxThatNeedsNewCoordL1Tx (nAddedL1Txs nAddedL2txs : Z)
    (selectionConfig : Config.t) : bool :=
  (nAddedL1Txs <? Config.MaxL1Tx selectionConfig)
  && (nAddedL1Txs + nAddedL2txs + 1 <? Config.MaxTx selectionConfig).

Definition canAddL2Tx (nAddedL1Txs nAddedL2txs : Z) (selectionConfig : Config.t) : bool :=
  nAddedL1Txs + nAddedL2txs <? Config.MaxTx selectionConfig.

(** *** The atomic group filters *)

Definition setInfoForFailedAtomicTx (isOriginOfFailure : bool)
    (failedAtomicGroupID : common.AtomicGroupID) (failedTxID : common.TxID)
    (failMessage : TxSelectorError.t) : TxSelectorError.t :=
  if isOriginOfFailure then
    TxSelectorError.mk (TxSelectorError.Message failMessage)
      (TxSelectorError.Code failMessage) (TxSelectorError.Type_ failMessage)
  else
    TxSelectorError.mk
      (fmtUnselectable failedAtomicGroupID failedTxID (TxSelectorError.Message failMessage))
      ErrInvalidAtomicGroupCode ErrInvalidAtomicGroupType.

(** [filterFailedAtomicGroups] split the txs into the ones that can be
    processed and the ones that can't because they belong to an
    AtomicGroupID that is part of failedGroups. *)
Fixpoint filterFailedAtomicGroups (txs : list PoolL2Tx.t)
    (failedGroups : gmap common.AtomicGroupID failedAtomicGroup)
  : list PoolL2Tx.t * list PoolL2Tx.t :=
  match txs with
  | [] => ([], [])
  | tx :: rest =>
      let '(txsToProcess, filteredTxs) := filterFailedAtomicGroups rest failedGroups in
      if bool_decide (PoolL2Tx.AtomicGroupID tx = common.EmptyAtomicGroupID) then
        (tx :: txsToProcess, filteredTxs)
      else
        match failedGroups !! PoolL2Tx.AtomicGroupID tx with
        | Some failedAtomicGroup =>
            let obj := setInfoForFailedAtomicTx
                         (bool_decide (PoolL2Tx.TxID tx = failedTxID failedAtomicGroup))
                         (PoolL2Tx.AtomicGroupID tx)
                         (failedTxID failedAtomicGroup)
                         (reason failedAtomicGroup) in
            let tx := PoolL2Tx.set_Info (TxSelectorError.Message obj)
                        (TxSelectorError.Code obj) (TxSelectorError.Type_ obj) tx in
            (txsToProcess, tx :: filteredTxs)
        | None => (tx :: txsToProcess, filteredTxs)
        end
  end.

(** The loop of [isAtomicGroupValid], from index [i] on. *)
Fixpoint isAtomicGroupValid_from (txs : list PoolL2Tx.t) (i : nat)
    (todo : list PoolL2Tx.t) : bool :=
  match todo with
  | [] => true
  | txi :: todo' =>
      (* Find requested tx *)
      match requestOffset2RelativePosition (PoolL2Tx.RqOffset txi) with
      | (_, Some _) => false
      | (rqRelativePosition, None) =>
          let requestedPosition := Z.of_nat i + rqRelativePosition in
          if (requestedPosition >? Z.of_nat (length txs) - 1) || (requestedPosition <? 0)
          then false
          else
            match at_ txs requestedPosition with
            | None => false
            | Some requestedTx =>
                (* Check if the requested tx match the Rq fields *)
                if negb (PoolL2Tx.RqFromIdx txi =? PoolL2Tx.FromIdx requestedTx)
                   || negb (PoolL2Tx.RqToIdx txi =? PoolL2Tx.ToIdx requestedTx)
                   || bool_decide (PoolL2Tx.RqToEthAddr txi <> PoolL2Tx.ToEthAddr requestedTx)
                   || bool_decide (PoolL2Tx.RqToBJJ txi <> PoolL2Tx.ToBJJ requestedTx)
                   || negb (PoolL2Tx.RqTokenID txi =? PoolL2Tx.TokenID requestedTx)
                   || negb (PoolL2Tx.RqFee txi =? PoolL2Tx.Fee requestedTx)
                   || negb (PoolL2Tx.RqNonce txi =? PoolL2Tx.Nonce requestedTx)
                then false
                else
                  (* Check amount *)
                  match PoolL2Tx.RqAmount txi, PoolL2Tx.Amount requestedTx with
                  | Some rqAmount, Some amount =>
                      if negb (rqAmount =? amount) then false
                      else isAtomicGroupValid_from txs (S i) todo'
                  | None, None => isAtomicGroupValid_from txs (S i) todo'
                  | _, _ => false
                  end
            end
      end
  end.

(** [common.AtomicGroup] is used through its [Txs] only. *)
Definition isAtomicGroupValid (atomicGroupTxs : list PoolL2Tx.t) : bool :=
  isAtomicGroupValid_from atomicGroupTxs 0 atomicGroupTxs.

(** The first loop of [filterInvalidAtomicGroups]. *)
Fixpoint separateGroups (txs : list PoolL2Tx.t) (txsToProcess : list PoolL2Tx.t)
    (atomicGroups : groupsMap) : list PoolL2Tx.t * groupsMap :=
  match txs with
  | [] => (txsToProcess, atomicGroups)
  | tx :: rest =>
      let atomicGroupID := PoolL2Tx.AtomicGroupID tx in
      if bool_decide (atomicGroupID = common.EmptyAtomicGroupID) then
        separateGroups rest (txsToProcess ++ [tx]) atomicGroups
      else
        separateGroups rest txsToProcess (appendToGroup atomicGroupID tx atomicGroups)
  end.

(** The second loop of [filterInvalidAtomicGroups]: validate atomic groups. *)
Fixpoint validateGroups (groups : list (list PoolL2Tx.t))
    (txsToProcess filteredTxs : list PoolL2Tx.t) : list PoolL2Tx.t * list PoolL2Tx.t :=
  match groups with
  | [] => (txsToProcess, filteredTxs)
  | atomicGroupTxs :: rest =>
      if negb (isAtomicGroupValid atomicGroupTxs) then
        validateGroups rest txsToProcess
          (filteredTxs ++
             map (PoolL2Tx.set_Info ErrInvalidAtomicGroup ErrInvalidAtomicGroupCode
                    ErrInvalidAtomicGroupType) atomicGroupTxs)
      else
        validateGroups rest (txsToProcess ++ atomicGroupTxs) filteredTxs
  end.

(** [filterInvalidAtomicGroups] split the txs into the ones that can be
    processed and the ones that can't because they belong to an AtomicGroup
    that is impossible to forge due to missing or bad ordered txs. *)
Definition filterInvalidAtomicGroups (txs : list PoolL2Tx.t)
  : list PoolL2Tx.t * list PoolL2Tx.t :=
  let '(txsToProcess, atomicGroups) := separateGroups txs [] [] in
  validateGroups (map snd (rangeOrder atomicGroups)) txsToProcess [].

(** [calculateAtomicGroupsAverageFee] generates a map that represents
    AtomicGroupID => average absolute fee. *)
Fixpoint sumAtomicGroupsFee (txs : list PoolL2Tx.t)
    (txsPerGroup : gmap common.AtomicGroupID Z)
    (groupAverageFee : gmap common.AtomicGroupID float64)
  : gmap common.AtomicGroupID Z * gmap common.AtomicGroupID float64 :=
  match txs with
  | [] => (txsPerGroup, groupAverageFee)
  | tx :: rest =>
      let groupID := PoolL2Tx.AtomicGroupID tx in
      if bool_decide (groupID = common.EmptyAtomicGroupID) then
        sumAtomicGroupsFee rest txsPerGroup groupAverageFee
      else
        match groupAverageFee !! groupID with
        | None =>
            sumAtomicGroupsFee rest (<[groupID := 1]> txsPerGroup)
              (<[groupID := PoolL2Tx.AbsoluteFee tx]> groupAverageFee)
        | Some fee =>
            sumAtomicGroupsFee rest
              (<[groupID := default 0 (txsPerGroup !! groupID) + 1]> txsPerGroup)
              (<[groupID := f64_add fee (PoolL2Tx.AbsoluteFee tx)]> groupAverageFee)
        end
  end.

Definition calculateAtomicGroupsAverageFee (txs : list PoolL2Tx.t)
  : gmap common.AtomicGroupID float64 :=
  let '(txsPerGroup, groupAverageFee) := sumAtomicGroupsFee txs ∅ ∅ in
  map_imap (fun groupID fee =>
              Some (f64_div fee (f64_of_int (default 0 (txsPerGroup !! groupID)))))
           groupAverageFee.

(** [coordAccountForTokenID] creates a new L1CoordinatorTx to create a new
    Coordinator account for the given TokenID in the case that the account
    does not exist yet in the db. *)
Definition coordAccountForTokenID (coord : CoordAccount) (tp : TxProcessor)
    (tokenID : common.TokenID) (positionL1 : Z) : result (option L1Tx.t * Z) :=
  match getCoordIdx coord tp tokenID with
  | Err ErrIdxNotFound =>
      let l1CoordinatorTx :=
        L1Tx.mk None positionL1 false 0 (Addr coord) (BJJ coord) 0 tokenID 0 0
                None None common.TxTypeCreateAccountDeposit in
      Ok (Some l1CoordinatorTx, positionL1)
  | Err e => Err e
  | Panic => Panic
  | Ok _ => Ok (None, positionL1)
  end.

End txselector.

(** *** The selection loop *)

Section selection.
Context {F64 : Float64} {CC : common.Consts} {SDB : StateDBOps} {SE : SelectorEnv}.

(** What the verifier task sends to the main task, one constructor per
    channel of the [select]. *)
Inductive event : Type :=
  | TxL1ToBeProcessed (tx : L1Tx.t)        (* verifier.txsL1ToBeProcessedChan *)
  | NonSelectedL2Tx (tx : PoolL2Tx.t)      (* verifier.nonSelectedL2TxsChan *)
  | SelectedL2Tx (tx : PoolL2Tx.t)         (* verifier.selectedL2TxsChan *)
  | UnforjableL2Tx (tx : PoolL2Tx.t)       (* verifier.unforjableL2TxsChan *)
  | AccAuth (accAuth : list Z)             (* verifier.accAuthsChan *)
  | FailedAG (failedAG : failedAtomicGroup)  (* verifier.failedAGChan *)
  | VerifierErr (e : error)                (* verifier.errChan *)
  | VerificationEnded.                     (* verifier.verificationEnded *)

(** The verifier task works on the same processor and state database as
    the main task: [effect] is what it did to them before sending [ev]. *)
Record step : Type := mkStep {
  effect : TxProcessor -> TxProcessor;
  ev : event
}.

(** [txsel.verifyTxs], started with [go]: the txs to verify, the L1 and L2
    txs already added, and the state at that moment; the result is what the
    task will send.  The verifier is built by [newVerifier] from
    [l1UserFutureTxs], [selectionConfig], [tp] and [txsel]. *)
Definition verifyTxs_t : Type :=
  Config.t -> list L1Tx.t -> CoordAccount -> TxProcessor ->
  list PoolL2Tx.t -> Z -> Z -> list step.

(** The seven values returned with a nil error, and the state left behind. *)
Record selection : Type := mkSelection {
  sel_coordIdxs : list common.Idx;
  sel_accAuths : list (list Z);
  sel_l1UserTxs : list L1Tx.t;
  sel_l1CoordinatorTxs : list L1Tx.t;
  sel_l2Txs : list PoolL2Tx.t;
  sel_discardedL2Txs : list PoolL2Tx.t;
  sel_state : TxProcessor
}.

(** A run of the selection: it returns, or blocks in the [select] with
    nothing left to receive, or is still running when the fuel is spent. *)
Inductive run : Type :=
  | Returns (r : result selection)
  | Blocks
  | OutOfFuel.

(** [for i := 0; i < len(l1UserTxs); i++ { tp.ProcessL1Tx(nil, &l1UserTxs[i]) }]:
    the txs are handed over by reference and come back as the processor
    left them. *)
Fixpoint processL1UserTxs (tp : TxProcessor) (l1UserTxs : list L1Tx.t)
  : result (TxProcessor * list L1Tx.t) :=
  match l1UserTxs with
  | [] => Ok (tp, [])
  | tx :: rest =>
      r ← ProcessL1Tx tp tx;
      r' ← processL1UserTxs r.1 rest;
      Ok (r'.1, r.2 :: r'.2)
  end.

(** Distribute the AccumulatedFees from the processed L2Txs into the
    Coordinator Idxs. *)
Fixpoint distributeFees (tp : TxProcessor) (fees : list (common.Idx * Z))
  : result TxProcessor :=
  match fees with
  | [] => Ok tp
  | (idx, accumulatedFee) :: rest =>
      if accumulatedFee >? 0 then
        accCoord ← GetAccount tp idx;
        let accCoord :=
          Account.set_Balance (Account.Balance accCoord + accumulatedFee) accCoord in
        tp ← UpdateAccount tp idx accCoord;
        distributeFees tp rest
      else distributeFees tp rest
  end.

(** The variables of one attempt, from START_SELECTION on. *)
Record loopState : Type := mkLoop {
  tp_ : TxProcessor;
  discardedTxs : list PoolL2Tx.t;
  accAuths : list (list Z);
  l1CoordinatorTxs : list L1Tx.t;
  selectedTxs : list PoolL2Tx.t;
  nonSelectedTxs : list PoolL2Tx.t;
  iteSelectedTxs : list PoolL2Tx.t;
  coordIdxs : list common.Idx;
  coordIdxsMap : gmap common.TokenID common.Idx;
  pending : list step     (* sent by the verifier, not yet received *)
}.

Section loop.
Variable verifyTxs : verifyTxs_t.
Variable selectionConfig : Config.t.
Variable l1UserFutureTxs : list L1Tx.t.
Variable coord : CoordAccount.
(* l1UserTxs as left by the L1 user loop of this attempt *)
Variable l1UserTxs : list L1Tx.t.
(* goto START_SELECTION with the failed groups and the processor *)
Variable restart : gmap common.AtomicGroupID failedAtomicGroup -> TxProcessor -> run.
Variable failedAtomicGroups : gmap common.AtomicGroupID failedAtomicGroup.

(** The [for { select { ... } }] of [getL1L2TxSelection]. *)
Fixpoint selectLoop (fuel : nat) (st : loopState) : run :=
  match fuel with
  | O => OutOfFuel
  | S fuel =>
    match pending st with
    | [] => Blocks
    | s :: rest =>
      let tp := effect s (tp_ st) in
      match ev s with
      | TxL1ToBeProcessed tx =>
          match ProcessL1Tx tp tx with
          | Panic => Returns Panic
          | Err e => Returns (Err e)
          | Ok (tp, tx) =>
              selectLoop fuel
                (mkLoop tp (discardedTxs st) (accAuths st)
                   (l1CoordinatorTxs st ++ [tx]) (selectedTxs st)
                   (nonSelectedTxs st) (iteSelectedTxs st) (coordIdxs st)
                   (coordIdxsMap st) rest)
          end
      | NonSelectedL2Tx tx =>
          selectLoop fuel
            (mkLoop tp (discardedTxs st) (accAuths st) (l1CoordinatorTxs st)
               (selectedTxs st) (nonSelectedTxs st ++ [tx]) (iteSelectedTxs st)
               (coordIdxs st) (coordIdxsMap st) rest)
      | SelectedL2Tx tx =>
          let iteSelectedTxs := iteSelectedTxs st ++ [tx] in
          let selectedTxs := selectedTxs st ++ [tx] in
          match GetAccount tp (PoolL2Tx.FromIdx tx) with
          | Panic => Returns Panic
          | Err e => Returns (Err e)
          | Ok accSender =>
              let tokenID := Account.TokenID accSender in
              match getCoordIdx coord tp tokenID with
              | Panic => Returns Panic
              | Err e => Returns (Err e)
              | Ok coordIdx =>
                  let '(coordIdxsMap, coordIdxs) :=
                    match coordIdxsMap st !! tokenID with
                    | None => (<[tokenID := coordIdx]> (coordIdxsMap st),
                               coordIdxs st ++ [coordIdx])
                    | Some _ => (coordIdxsMap st, coordIdxs st)
                    end in
                  selectLoop fuel
                    (mkLoop tp (discardedTxs st) (accAuths st) (l1CoordinatorTxs st)
                       selectedTxs (nonSelectedTxs st) iteSelectedTxs
                       coordIdxs coordIdxsMap rest)
              end
          end
      | UnforjableL2Tx tx =>
          selectLoop fuel
            (mkLoop tp (discardedTxs st ++ [tx]) (accAuths st) (l1CoordinatorTxs st)
               (selectedTxs st) (nonSelectedTxs st) (iteSelectedTxs st)
               (coordIdxs st) (coordIdxsMap st) rest)
      | AccAuth accAuth =>
          selectLoop fuel
            (mkLoop tp (discardedTxs st) (accAuths st ++ [accAuth])
               (l1CoordinatorTxs st) (selectedTxs st) (nonSelectedTxs st)
               (iteSelectedTxs st) (coordIdxs st) (coordIdxsMap st) rest)
      | FailedAG failedAG =>
          let failedAtomicGroups := <[id failedAG := failedAG]> failedAtomicGroups in
          match Reset tp (CurrentBatch tp) false with
          | Panic => Returns Panic
          | Err e => Returns (Err e)
          | Ok tp => restart failedAtomicGroups tp
          end
      | VerifierErr e => Returns (Err e)
      | VerificationEnded =>
          if (length (iteSelectedTxs st) =? 0)%nat then
            let discardedTxs := discardedTxs st ++ nonSelectedTxs st in
            let coordIdxs := sort_SliceStable Z.ltb (coordIdxs st) in
            match distributeFees tp (AccumulatedFees tp) with
            | Panic => Returns Panic
            | Err e => Returns (Err e)
            | Ok tp =>
                match MakeCheckpoint tp with
                | Panic => Returns Panic
                | Err e => Returns (Err e)
                | Ok tp =>
                    Returns (Ok (mkSelection coordIdxs (accAuths st) l1UserTxs
                                   (l1CoordinatorTxs st) (selectedTxs st)
                                   discardedTxs tp))
                end
            end
          else
            let selectableTxs := nonSelectedTxs st in
            let sent :=
              verifyTxs selectionConfig l1UserFutureTxs coord tp selectableTxs
                (Z.of_nat (length l1UserTxs + length (l1CoordinatorTxs st)))
                (Z.of_nat (length (selectedTxs st))) in
            selectLoop fuel
              (mkLoop tp (discardedTxs st) (accAuths st) (l1CoordinatorTxs st)
                 (selectedTxs st) [] [] (coordIdxs st) (coordIdxsMap st)
                 (rest ++ sent))
      end
    end
  end.
End loop.

(** [getL1L2TxSelection] from the label START_SELECTION on, for the given
    failed groups.  [attempts] bounds the number of times the label is
    reached, [fuel] the number of receptions of one attempt. *)
Fixpoint startSelection (verifyTxs : verifyTxs_t) (attempts fuel : nat)
    (txsel : TxSelector) (selectionConfig : Config.t)
    (l1UserTxs l1UserFutureTxs : list L1Tx.t)
    (failedAtomicGroups : gmap common.AtomicGroupID failedAtomicGroup)
    (localAccountsDB : TxProcessor) : run :=
  match attempts with
  | O => OutOfFuel
  | S attempts =>
    let tp := clearAccumulatedFees localAccountsDB in
    (* Process L1UserTxs *)
    match processL1UserTxs tp l1UserTxs with
    | Panic => Returns Panic
    | Err e => Returns (Err e)
    | Ok (tp, l1UserTxs) =>
      (* Get pending txs from the pool *)
      match GetPendingTxs (l2db txsel) with
      | Panic => Returns Panic
      | Err e => Returns (Err e)
      | Ok l2TxsFromDB =>
        (* Filter transactions belonging to failed atomic groups *)
        let '(selectableTxsTmp, discardedTxs) :=
          filterFailedAtomicGroups l2TxsFromDB failedAtomicGroups in
        (* Filter invalid atomic groups *)
        let '(selectableTxs, discardedTxsTmp) :=
          filterInvalidAtomicGroups selectableTxsTmp in
        let discardedTxs := discardedTxs ++ discardedTxsTmp in
        if (length selectableTxs =? 0)%nat then
          match MakeCheckpoint tp with
          | Panic => Returns Panic
          | Err e => Returns (Err e)
          | Ok tp => Returns (Ok (mkSelection [] [] l1UserTxs [] [] discardedTxs tp))
          end
        else
          (* Calculate average fee for atomic groups *)
          let atomicFeeMap := calculateAtomicGroupsAverageFee selectableTxs in
          (* Order L2 txs *)
          let selectableTxs := sortL2Txs selectableTxs atomicFeeMap in
          let sent :=
            verifyTxs selectionConfig l1UserFutureTxs (coordAccount txsel) tp
              selectableTxs (Z.of_nat (length l1UserTxs + 0)) 0 in
          selectLoop verifyTxs selectionConfig l1UserFutureTxs (coordAccount txsel)
            l1UserTxs
            (startSelection verifyTxs attempts fuel txsel selectionConfig
               l1UserTxs l1UserFutureTxs)
            failedAtomicGroups fuel
            (mkLoop tp discardedTxs [] [] [] [] [] [] ∅ sent)
      end
    end
  end.

Definition getL1L2TxSelection (verifyTxs : verifyTxs_t) (attempts fuel : nat)
    (txsel : TxSelector) (selectionConfig : Config.t)
    (l1UserTxs l1UserFutureTxs : list L1Tx.t) : run :=
  startSelection verifyTxs attempts fuel txsel selectionConfig
    l1UserTxs l1UserFutureTxs ∅ (localAccountsDB txsel).

(** [GetL1L2TxSelection] returns the selection of L1 + L2 txs. *)
Definition GetL1L2TxSelection (verifyTxs : verifyTxs_t) (attempts fuel : nat)
    (txsel : TxSelector) (selectionConfig : Config.t)
    (l1UserTxs l1UserFutureTxs : list L1Tx.t) : run :=
  getL1L2TxSelection verifyTxs attempts fuel txsel selectionConfig
    l1UserTxs l1UserFutureTxs.

End selection.

(** *** The verifier task *)

Section verifier.
Context {F64 : Float64} {CC : common.Consts} {SDB : StateDBOps} {SE : SelectorEnv}.

(** What the checks of the verifier find for one tx in the current state:
    its nonce is still in the future, or it can never be forged as it is,
    or it can be forged once the given L1 coordinator txs (for a missing
    coordinator fee account, for a missing recipient account) are added,
    using the given account creation authorizations. *)
Inductive verdict : Type :=
  | NotYetSelectable
  | Invalid (why : TxSelectorError.t)
  | Valid (newL1CoordTxs : list L1Tx.t) (usedAccAuths : list (list Z)).

(** The checks themselves (nonce, balance, recipient, authorization) and
    the L2 path of the processor; their code is not in the sources at hand. *)
Class VerifierEnv : Type := {
  classify : Config.t -> list L1Tx.t -> CoordAccount -> TxProcessor ->
             PoolL2Tx.t -> verdict;
  ProcessL2Tx : PoolL2Tx.t -> TxProcessor -> TxProcessor;
  errExitZeroAmount : TxSelectorError.t;
  errNoCapacity : TxSelectorError.t;
  errNotSelectable : TxSelectorError.t
}.
Context {VE : VerifierEnv}.

Definition isAtomicTx (tx : PoolL2Tx.t) : bool :=
  bool_decide (PoolL2Tx.AtomicGroupID tx <> common.EmptyAtomicGroupID).

Definition isExitWithZeroAmount (tx : PoolL2Tx.t) : bool :=
  bool_decide (PoolL2Tx.Type_ tx = common.TxTypeExit)
  && match PoolL2Tx.Amount tx with
     | Some amount => amount =? 0
     | None => false
     end.

Definition send (e : event) : step := mkStep (fun tp => tp) e.

(** Modelled from the spec: synthesising the L1 coordinator txs that a tx
    requires, re-checking capacity before each; the main task processes
    each of them before the verifier goes on.  Returns what is sent, the
    state and the number of L1 txs afterwards, and whether all of them fit
    (and were processed). *)
Fixpoint addL1CoordTxs (selectionConfig : Config.t) (tp : TxProcessor)
    (nL1Txs nL2Txs : Z) (newL1CoordTxs : list L1Tx.t)
  : list step * TxProcessor * Z * bool :=
  match newL1CoordTxs with
  | [] => ([], tp, nL1Txs, true)
  | l1Tx :: rest =>
      if canAddL2TxThatNeedsNewCoordL1Tx nL1Txs nL2Txs selectionConfig then
        match ProcessL1Tx tp l1Tx with
        | Ok (tp', _) =>
            let '(sent, tp'', n, fits) :=
              addL1CoordTxs selectionConfig tp' (nL1Txs + 1) nL2Txs rest in
            (send (TxL1ToBeProcessed l1Tx) :: sent, tp'', n, fits)
        | _ => ([send (TxL1ToBeProcessed l1Tx)], tp, nL1Txs + 1, false)
        end
      else ([], tp, nL1Txs, false)
  end.

(** Modelled from the spec: the verifier task ([newVerifier] and the stages
    [transformTxs], [checkBatchGreaterThanMaxNumBatch],
    [checkIsExitWithZeroAmount], [verifyTxs], [processL2Txs]) is not in the
    sources at hand.  It consumes the sorted L2 list and classifies each
    tx as selected, not yet selectable or discarded; a tx that requires
    new L1 coordinator txs has the capacity re-checked and is discarded
    when it does not fit; the failure of a tx of an atomic group is
    reported as the failure of the group; the end of the list is reported
    as the end of the verification. *)
Fixpoint verifyPass (selectionConfig : Config.t) (l1UserFutureTxs : list L1Tx.t)
    (coord : CoordAccount) (tp : TxProcessor) (l2Txs : list PoolL2Tx.t)
    (nL1Txs nL2Txs : Z) : list step :=
  match l2Txs with
  | [] => [send VerificationEnded]
  | tx :: rest =>
      let discard (why : TxSelectorError.t) (tp : TxProcessor) (nL1Txs : Z) :=
        if isAtomicTx tx then
          [send (FailedAG (mkFailedAtomicGroup (PoolL2Tx.AtomicGroupID tx)
                             (PoolL2Tx.TxID tx) why))]
        else
          send (UnforjableL2Tx tx)
          :: verifyPass selectionConfig l1UserFutureTxs coord tp rest nL1Txs nL2Txs in
      if isExitWithZeroAmount tx then discard errExitZeroAmount tp nL1Txs
      else if negb (canAddL2Tx nL1Txs nL2Txs selectionConfig)
      then discard errNoCapacity tp nL1Txs
      else
        match classify selectionConfig l1UserFutureTxs coord tp tx with
        | NotYetSelectable =>
            if isAtomicTx tx then discard errNotSelectable tp nL1Txs
            else
              send (NonSelectedL2Tx tx)
              :: verifyPass selectionConfig l1UserFutureTxs coord tp rest nL1Txs nL2Txs
        | Invalid why => discard why tp nL1Txs
        | Valid newL1CoordTxs usedAccAuths =>
            let '(sent, tp', nL1Txs', fits) :=
              addL1CoordTxs selectionConfig tp nL1Txs nL2Txs newL1CoordTxs in
            if fits then
              sent ++ map (fun a => send (AccAuth a)) usedAccAuths
              ++ mkStep (ProcessL2Tx tx) (SelectedL2Tx tx)
                 :: verifyPass selectionConfig l1UserFutureTxs coord
                      (ProcessL2Tx tx tp') rest nL1Txs' (nL2Txs + 1)
            else sent ++ discard errNoCapacity tp' nL1Txs'
        end
  end.

Definition verifyTxs : verifyTxs_t := verifyPass.

End verifier.

(** ** common/pooll2tx.go: the second compressed form and the conversions *)

Module L2Tx.
(** [common.L2Tx], as far as [PoolL2Tx.L2Tx] fills it. *)
Record t : Type := mk {
  TxID : common.TxID;
  FromIdx : common.Idx;
  ToIdx : common.Idx;
  Amount : option Z;
  Fee : common.FeeSelector;
  Nonce : common.Nonce;
  Type_ : common.TxType
}.

(** The zero value, as [make([]L2Tx, n)] fills the slice. *)
Definition zero : t := mk common.EmptyTxID 0 0 None 0 0 common.TxTypeUnset.
End L2Tx.

Section pooll2tx_v2.
Context {F64 : Float64} {CC : common.Consts} {CD : Codec}.

(** [tx.Amount = amount] and [tx.RqAmount = amount]. *)
Definition set_Amount (amount : option Z) (tx : PoolL2Tx.t) : PoolL2Tx.t :=
  PoolL2Tx.mk (PoolL2Tx.TxID tx) (PoolL2Tx.FromIdx tx) (PoolL2Tx.ToIdx tx)
    (PoolL2Tx.AuxToIdx tx) (PoolL2Tx.ToEthAddr tx) (PoolL2Tx.ToBJJ tx)
    (PoolL2Tx.TokenID tx) amount (PoolL2Tx.Fee tx) (PoolL2Tx.Nonce tx)
    (PoolL2Tx.Signature tx) (PoolL2Tx.RqFromIdx tx) (PoolL2Tx.RqToIdx tx)
    (PoolL2Tx.RqToEthAddr tx) (PoolL2Tx.RqToBJJ tx) (PoolL2Tx.RqTokenID tx)
    (PoolL2Tx.RqAmount tx) (PoolL2Tx.RqFee tx) (PoolL2Tx.RqNonce tx)
    (PoolL2Tx.AbsoluteFee tx) (PoolL2Tx.Type_ tx) (PoolL2Tx.RqOffset tx)
    (PoolL2Tx.RqTxID tx) (PoolL2Tx.AtomicGroupID tx) (PoolL2Tx.ClientIP tx)
    (PoolL2Tx.Info tx) (PoolL2Tx.ErrorCode tx) (PoolL2Tx.ErrorType tx).

Definition set_RqAmount (amount : option Z) (tx : PoolL2Tx.t) : PoolL2Tx.t :=
  PoolL2Tx.mk (PoolL2Tx.TxID tx) (PoolL2Tx.FromIdx tx) (PoolL2Tx.ToIdx tx)
    (PoolL2Tx.AuxToIdx tx) (PoolL2Tx.ToEthAddr tx) (PoolL2Tx.ToBJJ tx)
    (PoolL2Tx.TokenID tx) (PoolL2Tx.Amount tx) (PoolL2Tx.Fee tx) (PoolL2Tx.Nonce tx)
    (PoolL2Tx.Signature tx) (PoolL2Tx.RqFromIdx tx) (PoolL2Tx.RqToIdx tx)
    (PoolL2Tx.RqToEthAddr tx) (PoolL2Tx.RqToBJJ tx) (PoolL2Tx.RqTokenID tx)
    amount (PoolL2Tx.RqFee tx) (PoolL2Tx.RqNonce tx)
    (PoolL2Tx.AbsoluteFee tx) (PoolL2Tx.Type_ tx) (PoolL2Tx.RqOffset tx)
    (PoolL2Tx.RqTxID tx) (PoolL2Tx.AtomicGroupID tx) (PoolL2Tx.ClientIP tx)
    (PoolL2Tx.Info tx) (PoolL2Tx.ErrorCode tx) (PoolL2Tx.ErrorType tx).

(** [TxCompressedDataV2]: the tx as the method leaves it (a nil Amount is
    replaced by zero through the pointer receiver) and the 25 bytes [b]. *)
Definition TxCompressedDataV2_bytes (tx : PoolL2Tx.t)
  : PoolL2Tx.t * result (list Z) :=
  let tx := match PoolL2Tx.Amount tx with
            | None => set_Amount (Some 0) tx
            | Some _ => tx
            end in
  (tx,
   amountFloat16 ← NewFloat16 (PoolL2Tx.Amount tx);
   let b := repeat 0 25 in
   let toBJJSign :=
     if bool_decide (PoolL2Tx.ToBJJ tx <> common.EmptyBJJComp) then
       if UnpackSignY_sign (PoolL2Tx.ToBJJ tx) then 1 else 0
     else 0 in
   let b := <[0%nat := toBJJSign]> b in
   let b := <[1%nat := common.byte_of (PoolL2Tx.Fee tx)]> b in
   nonceBytes ← common.Nonce_Bytes (PoolL2Tx.Nonce tx);
   let b := common.copy_into b 2 7 nonceBytes in
   let b := common.copy_into b 7 11 (common.TokenID_Bytes (PoolL2Tx.TokenID tx)) in
   let b := common.copy_into b 11 13 (common.Float16_Bytes amountFloat16) in
   toIdxBytes ← common.Idx_Bytes (PoolL2Tx.ToIdx tx);
   let b := common.copy_into b 13 19 toIdxBytes in
   fromIdxBytes ← common.Idx_Bytes (PoolL2Tx.FromIdx tx);
   let b := common.copy_into b 19 25 fromIdxBytes in
   Ok b).

Definition TxCompressedDataV2 (tx : PoolL2Tx.t) : PoolL2Tx.t * result Z :=
  let '(tx, b) := TxCompressedDataV2_bytes tx in
  (tx, b ← b; Ok (common.SetBytes b)).

(** [RqTxCompressedDataV2] is like the TxCompressedDataV2 but using the
    'Rq' parameters. *)
Definition RqTxCompressedDataV2_bytes (tx : PoolL2Tx.t)
  : PoolL2Tx.t * result (list Z) :=
  let tx := match PoolL2Tx.RqAmount tx with
            | None => set_RqAmount (Some 0) tx
            | Some _ => tx
            end in
  (tx,
   amountFloat16 ← NewFloat16 (PoolL2Tx.RqAmount tx);
   let b := repeat 0 25 in
   let rqToBJJSign :=
     if bool_decide (PoolL2Tx.RqToBJJ tx <> common.EmptyBJJComp) then
       if UnpackSignY_sign (PoolL2Tx.RqToBJJ tx) then 1 else 0
     else 0 in
   let b := <[0%nat := rqToBJJSign]> b in
   let b := <[1%nat := common.byte_of (PoolL2Tx.RqFee tx)]> b in
   nonceBytes ← common.Nonce_Bytes (PoolL2Tx.RqNonce tx);
   let b := common.copy_into b 2 7 nonceBytes in
   let b := common.copy_into b 7 11 (common.TokenID_Bytes (PoolL2Tx.RqTokenID tx)) in
   let b := common.copy_into b 11 13 (common.Float16_Bytes amountFloat16) in
   toIdxBytes ← common.Idx_Bytes (PoolL2Tx.RqToIdx tx);
   let b := common.copy_into b 13 19 toIdxBytes in
   fromIdxBytes ← common.Idx_Bytes (PoolL2Tx.RqFromIdx tx);
   let b := common.copy_into b 19 25 fromIdxBytes in
   Ok b).

Definition RqTxCompressedDataV2 (tx : PoolL2Tx.t) : PoolL2Tx.t * result Z :=
  let '(tx, b) := RqTxCompressedDataV2_bytes tx in
  (tx, b ← b; Ok (common.SetBytes b)).

(** [PoolL2Tx.L2Tx] returns a *L2Tx from the PoolL2Tx. *)
Definition PoolL2Tx_L2Tx (tx : PoolL2Tx.t) : L2Tx.t :=
  let toIdx :=
    if PoolL2Tx.ToIdx tx =? 0 then PoolL2Tx.AuxToIdx tx else PoolL2Tx.ToIdx tx in
  L2Tx.mk (PoolL2Tx.TxID tx) (PoolL2Tx.FromIdx tx) toIdx (PoolL2Tx.Amount tx)
    (PoolL2Tx.Fee tx) (PoolL2Tx.Nonce tx) (PoolL2Tx.Type_ tx).

(** The loop [for i, poolTx := range txs { l2Txs[i] = poolTx.L2Tx() }],
    from index [i] on. *)
Fixpoint PoolL2TxsToL2Txs_from (i : nat) (txs : list PoolL2Tx.t)
    (l2Txs : list L2Tx.t) : list L2Tx.t :=
  match txs with
  | [] => l2Txs
  | poolTx :: rest =>
      PoolL2TxsToL2Txs_from (S i) rest (<[i := PoolL2Tx_L2Tx poolTx]> l2Txs)
  end.

(** [PoolL2TxsToL2Txs] returns an array of []L2Tx from an array of []PoolL2Tx. *)
Definition PoolL2TxsToL2Txs (txs : list PoolL2Tx.t) : result (list L2Tx.t) :=
  let l2Txs := repeat L2Tx.zero (length txs) in
  Ok (PoolL2TxsToL2Txs_from 0 txs l2Txs).

(** The loop [for i, tx := range txs { txIDs[i] = tx.TxID }], from index [i] on. *)
Fixpoint TxIDsFromPoolL2Txs_from (i : nat) (txs : list PoolL2Tx.t)
    (txIDs : list common.TxID) : list common.TxID :=
  match txs with
  | [] => txIDs
  | tx :: rest => TxIDsFromPoolL2Txs_from (S i) rest (<[i := PoolL2Tx.TxID tx]> txIDs)
  end.

(** [TxIDsFromPoolL2Txs] returns an array of TxID from the []PoolL2Tx. *)
Definition TxIDsFromPoolL2Txs (txs : list PoolL2Tx.t) : list common.TxID :=
  let txIDs := repeat common.EmptyTxID (length txs) in
  TxIDsFromPoolL2Txs_from 0 txs txIDs.

End pooll2tx_v2.

(** ** Notions used in the statements *)

Section notions_bytes.

(** A value that fits a Go [byte]. *)
Definition is_byte (b : Z) : Prop := 0 <= b < 256.

End notions_bytes.

Section notions_codec.
Context {F64 : Float64} {CC : common.Consts} {CD : Codec}.
Import common.

(** The id of an L2 tx: the prefix, 6 bytes of FromIdx, 5 bytes of Nonce. *)
Definition l2TxID (tx : PoolL2Tx.t) : TxID :=
  TxIDPrefixL2Tx :: be_bytes 6 (PoolL2Tx.FromIdx tx) ++ be_bytes 5 (PoolL2Tx.Nonce tx).

(** The layout of TxCompressedData, as bytes. *)
Definition compressedLayout (tx : PoolL2Tx.t) (chainID amountFloat16 : Z) : list Z :=
  (* toBJJSign, 1 byte *)
  [if UnpackSignY_sign (PoolL2Tx.ToBJJ tx) then 1 else 0]
  (* fee, 1 byte *)
  ++ be_bytes 1 (PoolL2Tx.Fee tx)
  (* nonce, 5 bytes *)
  ++ be_bytes 5 (PoolL2Tx.Nonce tx)
  (* tokenID, 4 bytes *)
  ++ be_bytes 4 (PoolL2Tx.TokenID tx)
  (* amountFloat16, 2 bytes *)
  ++ be_bytes 2 amountFloat16
  (* toIdx, 6 bytes *)
  ++ be_bytes 6 (PoolL2Tx.ToIdx tx)
  (* fromIdx, 6 bytes *)
  ++ be_bytes 6 (PoolL2Tx.FromIdx tx)
  (* chainID, 2 bytes *)
  ++ be_bytes 2 chainID
  (* signature constant, 4 bytes *)
  ++ SignatureConstantBytes.

(** The same layout, as a number. *)
Definition compressedValue (tx : PoolL2Tx.t) (chainID amountFloat16 : Z) : Z :=
  (if UnpackSignY_sign (PoolL2Tx.ToBJJ tx) then 1 else 0) * 2 ^ 240
  + PoolL2Tx.Fee tx * 2 ^ 232
  + PoolL2Tx.Nonce tx * 2 ^ 192
  + PoolL2Tx.TokenID tx * 2 ^ 160
  + amountFloat16 * 2 ^ 144
  + PoolL2Tx.ToIdx tx * 2 ^ 96
  + PoolL2Tx.FromIdx tx * 2 ^ 48
  + chainID * 2 ^ 32
  + SetBytes SignatureConstantBytes.

End notions_codec.

Section notions_order.
Context {F64 : Float64}.

(** The fee by which an atomic tx is ranked: that of its group. *)
Definition rankFee (atomicGroupsFee : gmap common.AtomicGroupID float64)
    (tx : PoolL2Tx.t) : float64 :=
  default f64_zero (atomicGroupsFee !! PoolL2Tx.AtomicGroupID tx).

(** [a] may stand before [b] among the non atomic txs: AbsoluteFee
    descending, then FromIdx ascending, then Nonce ascending. *)
Definition nonAtomicOrder (a b : PoolL2Tx.t) : Prop :=
  f64_gtb (PoolL2Tx.AbsoluteFee a) (PoolL2Tx.AbsoluteFee b) = true \/
  (f64_gtb (PoolL2Tx.AbsoluteFee b) (PoolL2Tx.AbsoluteFee a) = false /\
   (PoolL2Tx.FromIdx a < PoolL2Tx.FromIdx b \/
    (PoolL2Tx.FromIdx a = PoolL2Tx.FromIdx b /\ PoolL2Tx.Nonce a <= PoolL2Tx.Nonce b))).

(** [a] may stand before [b] in the sorted txs: a non atomic tx stands
    before an atomic one only if its fee is greater than the fee of the
    group, so that on equal fees the group comes first; groups stand by
    descending fee. *)
Definition sortedOrder (atomicGroupsFee : gmap common.AtomicGroupID float64)
    (a b : PoolL2Tx.t) : Prop :=
  match isAtomicTx a, isAtomicTx b with
  | false, false => nonAtomicOrder a b
  | false, true => f64_gtb (PoolL2Tx.AbsoluteFee a) (rankFee atomicGroupsFee b) = true
  | true, false => f64_gtb (PoolL2Tx.AbsoluteFee b) (rankFee atomicGroupsFee a) = false
  | true, true => f64_gtb (rankFee atomicGroupsFee b) (rankFee atomicGroupsFee a) = false
  end.

(** The group id that the txs of a group share: that of the first. *)
Definition groupKey (group : list PoolL2Tx.t) : common.AtomicGroupID :=
  match group with
  | tx :: _ => PoolL2Tx.AtomicGroupID tx
  | [] => common.EmptyAtomicGroupID
  end.

(** A group as [sortL2Txs] builds it: not empty, of atomic txs of one id. *)
Definition uniformGroup (group : list PoolL2Tx.t) : Prop :=
  group <> [] /\ groupKey group <> common.EmptyAtomicGroupID /\
  forall tx, tx ∈ group -> PoolL2Tx.AtomicGroupID tx = groupKey group.

(** Groups of pairwise different ids. *)
Definition wfGroups (groups : list (list PoolL2Tx.t)) : Prop :=
  Forall uniformGroup groups /\ NoDup (map groupKey groups).

(** The entries of the map of [separateAtomic]: the key is the id of the txs. *)
Definition wfGroupsMap (m : groupsMap) : Prop :=
  Forall (fun e => uniformGroup e.2 /\ groupKey e.2 = e.1) m /\ NoDup (map fst m).

(** The txs of one group id, in the order of the list. *)
Definition ofGroup (g : common.AtomicGroupID) (txs : list PoolL2Tx.t) : list PoolL2Tx.t :=
  filter (fun tx => PoolL2Tx.AtomicGroupID tx = g) txs.

(** [g1] may stand before [g2] among the groups: by descending fee. *)
Definition groupOrder (atomicGroupsFee : gmap common.AtomicGroupID float64)
    (g1 g2 : list PoolL2Tx.t) : Prop :=
  f64_gtb (groupFee atomicGroupsFee g2) (groupFee atomicGroupsFee g1) = false.

End notions_order.

Section notions_graphs.
Import graph.
Implicit Types (g : Mutable) (v w : nat) (seen : list nat).

(** There is an edge from [v] to [w]. *)
Definition edge g v w : Prop := w ∈ succs g v.

(** Every edge ends at a vertex of the graph. *)
Definition edgesInside g : Prop := forall v w, edge g v w -> (w < Order g)%nat.

(** A set of vertices that no edge leaves. *)
Definition closed g seen : Prop := forall x y, x ∈ seen -> edge g x y -> y ∈ seen.

End notions_graphs.

Section notions_detection.
Context {F64 : Float64}.
Implicit Types (txs : list PoolL2Tx.t) (id : common.TxID).

(** The position that a tx id names in the payload: that of the tx carrying
    it, the last one should several txs carry the same id. *)
Definition names txs id (j : nat) : Prop :=
  (exists tx, txs !! j = Some tx /\ PoolL2Tx.TxID tx = id) /\
  forall k tx', (j < k)%nat -> txs !! k = Some tx' -> PoolL2Tx.TxID tx' <> id.

(** The tx at position [i] requests the tx at position [j]. *)
Definition requests txs (i j : nat) : Prop :=
  exists tx, txs !! i = Some tx /\ names txs (PoolL2Tx.RqTxID tx) j.

(** Every tx requests a tx of the payload. *)
Definition requestsInside txs : Prop :=
  forall tx, tx ∈ txs ->
    PoolL2Tx.RqTxID tx <> common.EmptyTxID /\
    exists tx', tx' ∈ txs /\ PoolL2Tx.TxID tx' = PoolL2Tx.RqTxID tx.

(** The graph of the requests is one strongly connected component covering
    all the txs. *)
Definition singleComponent txs : Prop :=
  txs <> [] /\
  forall i j, (i < length txs)%nat -> (j < length txs)%nat -> rtc (requests txs) i j.

(** The last position of [id] in [txs]. *)
Fixpoint lastPos id txs : option nat :=
  match txs with
  | [] => None
  | tx :: rest =>
      match lastPos id rest with
      | Some k => Some (S k)
      | None => if bool_decide (PoolL2Tx.TxID tx = id) then Some 0%nat else None
      end
  end.

End notions_detection.

Section notions_selection.
Context {F64 : Float64} {CC : common.Consts} {SDB : StateDBOps} {SE : SelectorEnv}.

(** [out] is [inp] as the processor leaves it: with its effective amounts
    computed in some state, and nothing else changed. *)
Definition processedFrom (inp out : L1Tx.t) : Prop :=
  exists tp, out = computeEffectiveAmounts tp inp.

(** The capacity bounds of a selection. *)
Definition withinCapacity (selectionConfig : Config.t) (sel : selection) : Prop :=
  Z.of_nat (length (sel_l1UserTxs sel) + length (sel_l1CoordinatorTxs sel))
    <= Config.MaxL1Tx selectionConfig /\
  Z.of_nat (length (sel_l1UserTxs sel) + length (sel_l1CoordinatorTxs sel)
            + length (sel_l2Txs sel))
    <= Config.MaxTx selectionConfig.

(** What is sent respects the capacity gates, counting from [nL1Txs] L1 txs
    and [nL2Txs] L2 txs: an L1 coordinator tx is sent only when
    canAddL2TxThatNeedsNewCoordL1Tx holds, a selected L2 tx only when
    canAddL2Tx holds, and nothing follows the end of the verification. *)
Fixpoint gated (selectionConfig : Config.t) (nL1Txs nL2Txs : Z) (sent : list step)
  : Prop :=
  match sent with
  | [] => True
  | s :: rest =>
      match ev s with
      | TxL1ToBeProcessed _ =>
          canAddL2TxThatNeedsNewCoordL1Tx nL1Txs nL2Txs selectionConfig = true /\
          gated selectionConfig (nL1Txs + 1) nL2Txs rest
      | SelectedL2Tx _ =>
          canAddL2Tx nL1Txs nL2Txs selectionConfig = true /\
          gated selectionConfig nL1Txs (nL2Txs + 1) rest
      | VerificationEnded => rest = []
      | FailedAG _ | VerifierErr _ => True
      | _ => gated selectionConfig nL1Txs nL2Txs rest
      end
  end.

(** A verifier whose every run is gated, whatever it is started with. *)
Definition gatedVerifier (verifyTxs : verifyTxs_t) : Prop :=
  forall selectionConfig l1UserFutureTxs coord tp l2Txs nL1Txs nL2Txs,
    gated selectionConfig nL1Txs nL2Txs
      (verifyTxs selectionConfig l1UserFutureTxs coord tp l2Txs nL1Txs nL2Txs).

(** The invariant of the loop: the txs added so far fit, and what is still
    to be received respects the gates from there on. *)
Definition loopFits (selectionConfig : Config.t) (l1UserTxs : list L1Tx.t)
    (st : loopState) : Prop :=
  let nL1Txs := Z.of_nat (length l1UserTxs + length (l1CoordinatorTxs st)) in
  let nL2Txs := Z.of_nat (length (selectedTxs st)) in
  nL1Txs <= Config.MaxL1Tx selectionConfig /\
  nL1Txs + nL2Txs <= Config.MaxTx selectionConfig /\
  gated selectionConfig nL1Txs nL2Txs (pending st).

End notions_selection.

Section notions_codec_v2.
Context {F64 : Float64} {CC : common.Consts} {CD : Codec}.
Import common.

(** The sign byte of the second compressed form: an empty ToBJJ has none. *)
Definition signV2 (toBJJ : PublicKeyComp) : Z :=
  if bool_decide (toBJJ <> EmptyBJJComp)
  then (if UnpackSignY_sign toBJJ then 1 else 0) else 0.

(** The layout of TxCompressedDataV2, as bytes. *)
Definition compressedLayoutV2 (tx : PoolL2Tx.t) (amountFloat16 : Z) : list Z :=
  (* toBJJSign, 1 byte *)
  [signV2 (PoolL2Tx.ToBJJ tx)]
  (* fee, 1 byte *)
  ++ be_bytes 1 (PoolL2Tx.Fee tx)
  (* nonce, 5 bytes *)
  ++ be_bytes 5 (PoolL2Tx.Nonce tx)
  (* tokenID, 4 bytes *)
  ++ be_bytes 4 (PoolL2Tx.TokenID tx)
  (* amountFloat16, 2 bytes *)
  ++ be_bytes 2 amountFloat16
  (* toIdx, 6 bytes *)
  ++ be_bytes 6 (PoolL2Tx.ToIdx tx)
  (* fromIdx, 6 bytes *)
  ++ be_bytes 6 (PoolL2Tx.FromIdx tx).

(** The same layout, as a number. *)
Definition compressedValueV2 (tx : PoolL2Tx.t) (amountFloat16 : Z) : Z :=
  signV2 (PoolL2Tx.ToBJJ tx) * 2 ^ 192
  + PoolL2Tx.Fee tx * 2 ^ 184
  + PoolL2Tx.Nonce tx * 2 ^ 144
  + PoolL2Tx.TokenID tx * 2 ^ 112
  + amountFloat16 * 2 ^ 96
  + PoolL2Tx.ToIdx tx * 2 ^ 48
  + PoolL2Tx.FromIdx tx.

End notions_codec_v2.

Section notions_requests.
Context {F64 : Float64}.

(** The Rq fields of [tx] are the fields of [req]; the amounts are both nil
    or both the same number. *)
Definition rqMatches (tx req : PoolL2Tx.t) : Prop :=
  PoolL2Tx.RqFromIdx tx = PoolL2Tx.FromIdx req /\
  PoolL2Tx.RqToIdx tx = PoolL2Tx.ToIdx req /\
  PoolL2Tx.RqToEthAddr tx = PoolL2Tx.ToEthAddr req /\
  PoolL2Tx.RqToBJJ tx = PoolL2Tx.ToBJJ req /\
  PoolL2Tx.RqTokenID tx = PoolL2Tx.TokenID req /\
  PoolL2Tx.RqFee tx = PoolL2Tx.Fee req /\
  PoolL2Tx.RqNonce tx = PoolL2Tx.Nonce req /\
  PoolL2Tx.RqAmount tx = PoolL2Tx.Amount req.

(** [req] is the tx that the RqOffset of [tx], standing at position [i] of
    [txs], points at. *)
Definition requestedAt (txs : list PoolL2Tx.t) (i : nat) (tx req : PoolL2Tx.t) : Prop :=
  exists rel,
    requestOffset2RelativePosition (PoolL2Tx.RqOffset tx) = (rel, None) /\
    at_ txs (Z.of_nat i + rel) = Some req.

End notions_requests.

Section notions_atomic_pool.
Context {F64 : Float64}.

(** [tx] as the loop of postAtomicPool leaves it when its offset points at
    [req]: with the Rq fields of [req] if its RqTxID is the id of [req],
    and as it was received otherwise. *)
Definition rqFilled (req tx : PoolL2Tx.t) : PoolL2Tx.t :=
  if bool_decide (PoolL2Tx.RqTxID tx = PoolL2Tx.TxID req)
  then PoolL2Tx.set_Rq req tx else tx.

(** The tx at position [j] once the loop has passed it. *)
Definition rqFilledAt (txs : list PoolL2Tx.t) (j : nat) (tx : PoolL2Tx.t) : PoolL2Tx.t :=
  match requestOffset2RelativePosition (PoolL2Tx.RqOffset tx) with
  | (rel, None) =>
      match at_ txs (Z.of_nat j + rel) with
      | Some req => rqFilled req tx
      | None => tx
      end
  | _ => tx
  end.

(** The payload when the loop is about to visit position [i]. *)
Definition rqFilledUpTo (txs cur : list PoolL2Tx.t) (i : nat) : Prop :=
  length cur = length txs /\
  forall (j : nat) tx, txs !! j = Some tx ->
    cur !! j = Some (if (j <? i)%nat then rqFilledAt txs j tx else tx).

End notions_atomic_pool.

Section notions_filters.
Context {F64 : Float64} {CC : common.Consts} {SDB : StateDBOps} {SE : SelectorEnv}.

(** The txs of the groups recorded as failed, and the other txs, in the
    order of the list. *)
Definition failedTxs (failedGroups : gmap common.AtomicGroupID failedAtomicGroup)
    (txs : list PoolL2Tx.t) : list PoolL2Tx.t :=
  filter (fun tx => PoolL2Tx.AtomicGroupID tx <> common.EmptyAtomicGroupID /\
                    is_Some (failedGroups !! PoolL2Tx.AtomicGroupID tx)) txs.

Definition notFailedTxs (failedGroups : gmap common.AtomicGroupID failedAtomicGroup)
    (txs : list PoolL2Tx.t) : list PoolL2Tx.t :=
  filter (fun tx => ~ (PoolL2Tx.AtomicGroupID tx <> common.EmptyAtomicGroupID /\
                       is_Some (failedGroups !! PoolL2Tx.AtomicGroupID tx))) txs.

(** [f] is [tx] with the error that a tx of a failed group is given: the
    reason of the failure for the tx that made the group fail, and the
    error of an invalid atomic group, naming that tx, for the others. *)
Definition markedFailed (failedGroups : gmap common.AtomicGroupID failedAtomicGroup)
    (tx f : PoolL2Tx.t) : Prop :=
  exists failed info code ty,
    failedGroups !! PoolL2Tx.AtomicGroupID tx = Some failed /\
    f = PoolL2Tx.set_Info info code ty tx /\
    (PoolL2Tx.TxID tx = failedTxID failed ->
       info = TxSelectorError.Message (reason failed) /\
       code = TxSelectorError.Code (reason failed) /\
       ty = TxSelectorError.Type_ (reason failed)) /\
    (PoolL2Tx.TxID tx <> failedTxID failed ->
       info = fmtUnselectable (PoolL2Tx.AtomicGroupID tx) (failedTxID failed)
                (TxSelectorError.Message (reason failed)) /\
       code = ErrInvalidAtomicGroupCode /\
       ty = ErrInvalidAtomicGroupType).

(** [tx] with the error of an invalid atomic group. *)
Definition markInvalid (tx : PoolL2Tx.t) : PoolL2Tx.t :=
  PoolL2Tx.set_Info ErrInvalidAtomicGroup ErrInvalidAtomicGroupCode
    ErrInvalidAtomicGroupType tx.

(** The txs that belong to no atomic group, in the order of the list. *)
Definition nonAtomicTxsOf (txs : list PoolL2Tx.t) : list PoolL2Tx.t :=
  filter (fun tx => PoolL2Tx.AtomicGroupID tx = common.EmptyAtomicGroupID) txs.

End notions_filters.

Section notions_fees.
Context {F64 : Float64}.

(** The sum of the absolute fees of [txs], added to [fee] from the left,
    one tx after the other. *)
Definition addFees (fee : float64) (txs : list PoolL2Tx.t) : float64 :=
  fold_left (fun acc tx => f64_add acc (PoolL2Tx.AbsoluteFee tx)) txs fee.

(** The mean absolute fee of a group: nothing for an empty group. *)
Definition meanFee (group : list PoolL2Tx.t) : option float64 :=
  match group with
  | [] => None
  | tx :: rest =>
      Some (f64_div (addFees (PoolL2Tx.AbsoluteFee tx) rest)
                    (f64_of_int (Z.of_nat (length group))))
  end.

(** What one tx of a group does to the count and to the sum of its group. *)
Definition countFee (acc : option Z * option float64) (tx : PoolL2Tx.t)
  : option Z * option float64 :=
  match acc.2 with
  | None => (Some 1, Some (PoolL2Tx.AbsoluteFee tx))
  | Some fee => (Some (default 0 acc.1 + 1), Some (f64_add fee (PoolL2Tx.AbsoluteFee tx)))
  end.

End notions_fees.


(** A list of known length as its elements. *)
Ltac explode l H :=
  repeat (destruct l as [|? l]; simpl in H;
          [try discriminate H | try (exfalso; lia)]).

(** ** Concrete instances, for examples *)

Module fixtures.

(** Fees that are whole numbers (float64 represents them exactly up to 2^53). *)
Definition F64 : Float64 := {|
  float64 := Z;
  f64_zero := 0;
  f64_gtb := Z.gtb;
  f64_neb := fun a b => negb (a =? b);
  f64_add := Z.add;
  f64_div := Z.div;
  f64_of_int := fun n => n
|}.

(** The values of the Hermez node. *)
Definition CC : common.Consts := {|
  common.IdxUserThreshold := 256;
  common.TxIDPrefixL2Tx := 2;
  common.FFAddr := repeat 255 20;
  common.SignatureConstantBytes := [198; 11; 230; 15]
|}.

(** A codec that takes amounts below 1024 as their own Float16 and reads
    the sign of a BJJ key from the top bit of its last byte. *)
Definition CD : Codec := {|
  NewFloat16 := fun amount =>
    match amount with
    | Some a => if (0 <=? a) && (a <? 1024) then Ok a else Err ErrFloat16
    | None => Panic
    end;
  UnpackSignY_sign := fun pk => negb (Z.land (nth 31 pk 0) 128 =? 0)
|}.

(** A state database that is a list of accounts. *)
Record state : Type := mkState {
  accounts : list Account.t;
  fees : list (common.Idx * Z);
  batchNum : common.BatchNum
}.

Definition getAccount (s : state) (idx : common.Idx) : result Account.t :=
  match find (fun a => Account.Idx a =? idx) (accounts s) with
  | Some a => Ok a
  | None => Err ErrStateDB
  end.

Definition updateAccount (s : state) (idx : common.Idx) (acc : Account.t)
  : result state :=
  match getAccount s idx with
  | Ok _ =>
      Ok (mkState (map (fun a => if Account.Idx a =? idx then acc else a) (accounts s))
            (fees s) (batchNum s))
  | Err e => Err e
  | Panic => Panic
  end.

Definition credit (s : state) (idx : common.Idx) (amount : Z) : state :=
  mkState (map (fun a => if Account.Idx a =? idx
                         then Account.set_Balance (Account.Balance a + amount) a
                         else a) (accounts s))
          (fees s) (batchNum s).

(** Deposit, create the account when [FromIdx] is 0, then transfer. *)
Definition applyL1 (s : state) (tx : L1Tx.t) : result state :=
  let deposit := default 0 (L1Tx.EffectiveDepositAmount tx) in
  let amount := default 0 (L1Tx.EffectiveAmount tx) in
  let '(s, from) :=
    if L1Tx.FromIdx tx =? 0 then
      let idx := 256 + Z.of_nat (length (accounts s)) in
      (mkState (accounts s ++ [Account.mk idx (L1Tx.TokenID tx) (L1Tx.FromBJJ tx)
                                 (L1Tx.FromEthAddr tx) 0 deposit])
               (fees s) (batchNum s), idx)
    else (credit s (L1Tx.FromIdx tx) deposit, L1Tx.FromIdx tx) in
  if L1Tx.ToIdx tx >=? 256
  then Ok (credit (credit s from (- amount)) (L1Tx.ToIdx tx) amount)
  else Ok s.

Definition SDB : StateDBOps := {|
  TxProcessor := state;
  GetAccount := getAccount;
  UpdateAccount := updateAccount;
  GetIdxByEthAddrBJJ := fun s addr bjj tokenID =>
    match find (fun a => bool_decide (Account.EthAddr a = addr)
                         && bool_decide (Account.BJJ a = bjj)
                         && (Account.TokenID a =? tokenID)) (accounts s) with
    | Some a => Ok (Account.Idx a)
    | None => Err ErrIdxNotFound
    end;
  MakeCheckpoint := fun s => Ok (mkState (accounts s) (fees s) (batchNum s + 1));
  Reset := fun s b _ => Ok (mkState (accounts s) [] b);
  CurrentBatch := batchNum;
  clearAccumulatedFees := fun s => mkState (accounts s) [] (batchNum s);
  AccumulatedFees := fees;
  applyL1Tx := applyL1
|}.

(** A pool that is the list of its pending txs; maps ranged over in
    insertion order; [sort.Slice] behaving like the stable sort. *)
Definition SE : @SelectorEnv F64 := {|
  PoolDB := list (@PoolL2Tx.t F64);
  GetPendingTxs := fun pool => Ok pool;
  ErrInvalidAtomicGroup := [];
  ErrInvalidAtomicGroupType := [];
  ErrInvalidAtomicGroupCode := 18;
  fmtUnselectable := fun _ _ message => message;
  rangeOrder := fun m => m;
  sort_Slice := fun less l => sort_SliceStable less l
|}.

(** A verifier for which every tx is valid and needs no new account. *)
Definition VE : @VerifierEnv F64 SDB := {|
  classify := fun _ _ _ _ _ => Valid [] [];
  ProcessL2Tx := fun _ s => s;
  errExitZeroAmount := TxSelectorError.mk [] 0 [];
  errNoCapacity := TxSelectorError.mk [] 0 [];
  errNotSelectable := TxSelectorError.mk [] 0 []
|}.

(** An api over a list of accounts and a list of pool txs, with a fee
    amount that is always computable and signatures that always verify. *)
Definition AE : @ApiEnv F64 := {|
  HistoryDB := list Account.t;
  L2DB := list (@PoolL2Tx.t F64);
  GetCommonAccountAPI := fun h idx =>
    match find (fun a => Account.Idx a =? idx) h with
    | Some a => Ok a
    | None => Err ErrSQL
    end;
  CanSendToEthAddr := fun h addr tokenID =>
    Ok (existsb (fun a => bool_decide (Account.EthAddr a = addr)
                          && (Account.TokenID a =? tokenID)) h);
  AddTxAPI := fun db tx => Ok (db ++ [tx]);
  AddAtomicTxsAPI := fun db txs => Ok (db ++ txs);
  CalcFeeAmount := fun amount fee =>
    match amount with
    | Some a => Ok 0
    | None => Panic
    end;
  VerifySignature := fun _ _ _ => true
|}.

(** A pool tx with every field at its zero value but those given. *)
Definition poolTx (fromIdx toIdx : common.Idx) (nonce : common.Nonce)
    (amount : Z) (fee : Z) : @PoolL2Tx.t F64 :=
  @PoolL2Tx.mk F64 common.EmptyTxID fromIdx toIdx 0 common.EmptyAddr common.EmptyBJJComp
    0 (Some amount) 0 nonce [] 0 0 common.EmptyAddr common.EmptyBJJComp 0 None 0 0
    fee common.TxTypeUnset 0 common.EmptyTxID common.EmptyAtomicGroupID [] [] 0 [].

(** The id of the L2 tx number [nonce] of account [fromIdx]. *)
Definition txID (fromIdx : common.Idx) (nonce : common.Nonce) : common.TxID :=
  2 :: common.be_bytes 6 fromIdx ++ common.be_bytes 5 nonce.

(** A tx of an atomic group: its own id, the id it requests and its offset. *)
Definition atomicTx (fromIdx : common.Idx) (nonce : common.Nonce)
    (rqTxID : common.TxID) (rqOffset : Z) (group : common.AtomicGroupID) (fee : Z)
  : @PoolL2Tx.t F64 :=
  @PoolL2Tx.mk F64 (txID fromIdx nonce) fromIdx 256 0 common.EmptyAddr common.EmptyBJJComp
    0 (Some 1) 0 nonce [] 0 0 common.EmptyAddr common.EmptyBJJComp 0 None 0 0
    fee common.TxTypeUnset rqOffset rqTxID group [] [] 0 [].

(** The accounts of the test of the effective amounts: A and B hold token
    0, C holds token 1, ten units each. *)
Definition addrA : common.Address := repeat 10 20.
Definition addrB : common.Address := repeat 11 20.
Definition addrC : common.Address := repeat 12 20.

Definition stateABC : state :=
  mkState [Account.mk 256 0 (repeat 1 32) addrA 0 10;
           Account.mk 257 0 (repeat 2 32) addrB 0 10;
           Account.mk 258 1 (repeat 3 32) addrC 0 10] [] 1.

Definition l1Tx (fromIdx toIdx : common.Idx) (amount deposit : Z)
    (fromEthAddr : common.Address) (tokenID : common.TokenID) (ty : common.TxType)
  : L1Tx.t :=
  L1Tx.mk None 0 true fromIdx fromEthAddr common.EmptyBJJComp toIdx tokenID
    amount deposit None None ty.

End fixtures.

(** ** Inputs of the examples *)

Section inputs.
#[local] Existing Instance fixtures.F64.
#[local] Existing Instance fixtures.CC.
#[local] Existing Instance fixtures.CD.
#[local] Existing Instance fixtures.SDB.
#[local] Existing Instance fixtures.SE.
#[local] Existing Instance fixtures.VE.
#[local] Existing Instance fixtures.AE.

(** The effective amounts computed for [tx] over the accounts A, B and C. *)
Definition effectiveAmounts (tx : L1Tx.t) : option Z * option Z :=
  let tx' := computeEffectiveAmounts fixtures.stateABC tx in
  (L1Tx.EffectiveDepositAmount tx', L1Tx.EffectiveAmount tx').

(** An api whose history holds the accounts A, B and C, with an empty pool. *)
Definition apiABC : API :=
  mkAPI (fixtures.accounts fixtures.stateABC) [] 0.

(** The transfer number 3 of account 256 to account 257, carrying its id. *)
Definition transfer3 : PoolL2Tx.t :=
  PoolL2Tx.set_TxID (fixtures.txID 256 3) (fixtures.poolTx 256 257 3 100 0).

(** The same tx sent to index 5, which is no account, no exit and no
    transfer to an address. *)
Definition toIdx5 : PoolL2Tx.t :=
  PoolL2Tx.set_TxID (fixtures.txID 256 3) (fixtures.poolTx 256 5 3 100 0).

Definition group1 : common.AtomicGroupID := repeat 1 32.

(** An atomic group of two txs, of fees 4 and 6, and txs of fees 5 and 9
    that belong to no group. *)
Definition atomicFee4 : PoolL2Tx.t :=
  fixtures.atomicTx 256 0 (fixtures.txID 257 0) 1 group1 4.
Definition atomicFee6 : PoolL2Tx.t :=
  fixtures.atomicTx 257 0 (fixtures.txID 256 0) 7 group1 6.
Definition plainFee5 : PoolL2Tx.t :=
  PoolL2Tx.set_TxID (fixtures.txID 258 0) (fixtures.poolTx 258 256 0 1 5).
Definition plainFee9 : PoolL2Tx.t :=
  PoolL2Tx.set_TxID (fixtures.txID 259 0) (fixtures.poolTx 259 256 0 1 9).

(** Three txs requesting each other in a cycle, A to B to C to A. *)
Definition cycleA : PoolL2Tx.t :=
  fixtures.atomicTx 256 0 (fixtures.txID 257 0) 1 group1 4.
Definition cycleB : PoolL2Tx.t :=
  fixtures.atomicTx 257 0 (fixtures.txID 258 0) 1 group1 4.
Definition cycleC : PoolL2Tx.t :=
  fixtures.atomicTx 258 0 (fixtures.txID 256 0) 6 group1 4.

(** C requesting a tx that is not submitted, and C requesting nothing. *)
Definition outsideC : PoolL2Tx.t :=
  fixtures.atomicTx 258 0 (fixtures.txID 300 0) 6 group1 4.
Definition emptyC : PoolL2Tx.t :=
  fixtures.atomicTx 258 0 common.EmptyTxID 6 group1 4.

(** A selector over the accounts A, B and C whose coordinator owns A, so
    that it has a fee account for token 0. *)
Definition coordA : CoordAccount := mkCoordAccount fixtures.addrA (repeat 1 32) [].

Definition txselABC (pool : list PoolL2Tx.t) : TxSelector :=
  mkTxSelector pool fixtures.stateABC coordA.

Definition config (maxTx maxL1Tx : Z) : Config.t := Config.mk 32 2 maxTx maxL1Tx 0.

(** A deposit of 8 into account A, as the rollup contract queues it. *)
Definition depositA : L1Tx.t :=
  fixtures.l1Tx 256 0 0 8 fixtures.addrA 0 common.TxTypeDeposit.

Definition plainFee7 : PoolL2Tx.t :=
  PoolL2Tx.set_TxID (fixtures.txID 257 0) (fixtures.poolTx 257 256 0 1 7).
Definition transfer4 : PoolL2Tx.t :=
  PoolL2Tx.set_TxID (fixtures.txID 256 4) (fixtures.poolTx 256 257 4 1 2).

(** An exit of 5 from account A. *)
Definition exit5 : PoolL2Tx.t := fixtures.poolTx 256 1 0 5 0.

(** The group of [atomicFee4] and [atomicFee6] as the atomic endpoint
    stores it, each tx with the Rq fields of the other. *)
Definition filledPair : list PoolL2Tx.t :=
  [PoolL2Tx.set_Rq atomicFee6 atomicFee4; PoolL2Tx.set_Rq atomicFee4 atomicFee6].

(** [atomicFee4] requesting nothing. *)
Definition zeroOffset : PoolL2Tx.t :=
  fixtures.atomicTx 256 0 (fixtures.txID 257 0) 0 group1 4.

(** The group [group1] recorded as failed because of the tx of account 256. *)
Definition failedGroup1 : gmap common.AtomicGroupID failedAtomicGroup :=
  {[ group1 := mkFailedAtomicGroup group1 (fixtures.txID 256 0)
                 (TxSelectorError.mk [1] 7 [2]) ]}.

End inputs.

(** * Properties *)

(** ** Request offsets *)

Section offsets.
Context {F64 : Float64}.

Lemma requestOffset2RelativePosition_zero :
  requestOffset2RelativePosition 0 = (0, Some ErrTxsNotAtomic).
Proof. reflexivity. Qed.

Lemma isAtomicGroupValid_from_zero_offset (txs : list PoolL2Tx.t) i todo :
  (exists tx, In tx todo /\ PoolL2Tx.RqOffset tx = 0) ->
  isAtomicGroupValid_from txs i todo = false.
Proof.
  revert i. induction todo as [|txi todo IH]; intros i [tx [Hin Hz]].
  - destruct Hin.
  - simpl. destruct Hin as [->|Hin].
    + rewrite Hz. reflexivity.
    + assert (Hrec : forall j, isAtomicGroupValid_from txs j todo = false)
        by (intros j; apply IH; eauto).
      repeat case_match; try reflexivity; apply Hrec.
Qed.

(** C5.  requestOffset2RelativePosition maps the offsets 1, 2, 3 to +1, +2,
    +3 and 4, 5, 6, 7 to -4, -3, -2, -1; offset 0 and every offset above 7
    is an error; an atomic group with a tx of offset 0 is never valid. *)
Theorem requestOffset2RelativePosition_table :
  requestOffset2RelativePosition 1 = (1, None) /\
  requestOffset2RelativePosition 2 = (2, None) /\
  requestOffset2RelativePosition 3 = (3, None) /\
  requestOffset2RelativePosition 4 = (-4, None) /\
  requestOffset2RelativePosition 5 = (-3, None) /\
  requestOffset2RelativePosition 6 = (-2, None) /\
  requestOffset2RelativePosition 7 = (-1, None) /\
  requestOffset2RelativePosition 0 = (0, Some ErrTxsNotAtomic) /\
  (forall rqoffset, 7 < rqoffset ->
     requestOffset2RelativePosition rqoffset = (0, Some ErrInvalidRqOffset)) /\
  (forall (atomicGroup : list PoolL2Tx.t) tx,
     In tx atomicGroup -> PoolL2Tx.RqOffset tx = 0 ->
     isAtomicGroupValid atomicGroup = false).
Proof.
  repeat split; try reflexivity.
  - intros r Hr. unfold requestOffset2RelativePosition.
    cbv zeta.
    repeat match goal with
           | |- context [r =? ?k] => destruct (Z.eqb_spec r k); [lia|]
           end.
    reflexivity.
  - intros g tx Hin Hz. apply isAtomicGroupValid_from_zero_offset. eauto.
Qed.

End offsets.

(** ** Pool admission *)

Section admission.
Context {F64 : Float64} {CC : common.Consts} {AE : ApiEnv}.

(** C9.  postPoolTx answers BadRequest, whatever the databases hold and
    without touching the pool, to a tx with a non-zero RqOffset or a
    non-empty RqTxID; postAtomicPool answers BadRequest to fewer than two
    txs. *)
Theorem postPoolTx_rejects_atomic_data :
  (forall (a : API) (receivedTx : PoolL2Tx.t) clientIP,
     PoolL2Tx.RqOffset receivedTx <> 0 \/
     PoolL2Tx.RqTxID receivedTx <> common.EmptyTxID ->
     postPoolTx a (Ok receivedTx) clientIP
     = (BadReq ErrNotAtomicTxsInPostPoolTx, l2 a)) /\
  (forall (a : API) (receivedTxs : list PoolL2Tx.t) clientIP,
     (length receivedTxs <= 1)%nat ->
     postAtomicPool a (Ok receivedTxs) clientIP
     = (BadReq ErrSingleTxInAtomicEndpoint, l2 a)).
Proof.
  split.
  - intros a tx ip Hat. unfold postPoolTx.
    destruct Hat as [Hoff|Hid].
    + destruct (Z.eqb_spec (PoolL2Tx.RqOffset tx) 0); [contradiction|]. reflexivity.
    + rewrite (bool_decide_eq_true_2 _ Hid), orb_true_r. reflexivity.
  - intros a txs ip Hlen. unfold postAtomicPool.
    destruct (Nat.leb_spec (length txs) 1); [reflexivity|lia].
Qed.

(** NewPoolL2Tx keeps a type that was set. *)
Lemma SetID_Type (tx tx' : PoolL2Tx.t) :
  SetID tx = Ok tx' -> PoolL2Tx.Type_ tx' = PoolL2Tx.Type_ tx.
Proof.
  unfold SetID. destruct (common.Idx_Bytes _); simpl; try discriminate.
  destruct (common.Nonce_Bytes _); simpl; try discriminate.
  intros [= <-]. reflexivity.
Qed.

Lemma SetID_Amount (tx tx' : PoolL2Tx.t) :
  SetID tx = Ok tx' -> PoolL2Tx.Amount tx' = PoolL2Tx.Amount tx.
Proof.
  unfold SetID. destruct (common.Idx_Bytes _); simpl; try discriminate.
  destruct (common.Nonce_Bytes _); simpl; try discriminate.
  intros [= <-]. reflexivity.
Qed.

Lemma SetType_Amount (tx tx' : PoolL2Tx.t) :
  SetType tx = Ok tx' -> PoolL2Tx.Amount tx' = PoolL2Tx.Amount tx.
Proof.
  unfold SetType. repeat case_match; intros [= <-]; reflexivity.
Qed.

Lemma NewPoolL2Tx_Amount (tx tx' : PoolL2Tx.t) :
  NewPoolL2Tx tx = Ok tx' -> PoolL2Tx.Amount tx' = PoolL2Tx.Amount tx.
Proof.
  unfold NewPoolL2Tx. destruct (SetType tx) as [tx1| |] eqn:E1; simpl; try discriminate.
  case_match; try discriminate.
  destruct (SetID tx1) as [tx2| |] eqn:E2; simpl; try discriminate.
  case_match; try discriminate. intros [= <-].
  rewrite (SetID_Amount _ _ E2). apply (SetType_Amount _ _ E1).
Qed.

Lemma NewPoolL2Tx_keeps_Type (tx tx' : PoolL2Tx.t) :
  NewPoolL2Tx tx = Ok tx' -> PoolL2Tx.Type_ tx <> common.TxTypeUnset ->
  PoolL2Tx.Type_ tx' = PoolL2Tx.Type_ tx.
Proof.
  unfold NewPoolL2Tx. destruct (SetType tx) as [tx1| |] eqn:E1; simpl; try discriminate.
  intros Hn Hset. rewrite (bool_decide_eq_true_2 _ Hset) in Hn. simpl in Hn.
  destruct (bool_decide _) eqn:Hty in Hn; try discriminate.
  apply bool_decide_eq_false_1 in Hty.
  destruct (SetID tx1) as [tx2| |] eqn:E2; simpl in Hn; try discriminate.
  case_match; try discriminate. injection Hn as <-.
  rewrite (SetID_Type _ _ E2).
  destruct (decide (PoolL2Tx.Type_ tx = PoolL2Tx.Type_ tx1)); [congruence|contradiction].
Qed.

(** The sanity check on exits is the only source of [ErrExitAmount0]. *)
Lemma NewPoolL2Tx_not_ErrExitAmount0 (tx : PoolL2Tx.t) :
  NewPoolL2Tx tx <> Err ErrExitAmount0.
Proof.
  unfold NewPoolL2Tx, SetType, SetID, common.Idx_Bytes, common.Nonce_Bytes.
  repeat (case_match; simpl; try discriminate).
Qed.

(** C8.  A tx of type Exit (as received, or as NewPoolL2Tx finds it from
    ToIdx) with a zero Amount is never accepted by verifyPoolL2Tx: unless
    a call panics, verifyPoolL2Tx returns an error and postPoolTx answers
    BadRequest and leaves the pool untouched.  With a positive Amount the
    check on exits does not fail: ErrExitAmount0 is not returned. *)
Theorem verifyPoolL2Tx_exit_amount (a : API) (tx : PoolL2Tx.t) :
  (PoolL2Tx.Type_ tx = common.TxTypeExit \/
   exists tx', NewPoolL2Tx tx = Ok tx' /\ PoolL2Tx.Type_ tx' = common.TxTypeExit) ->
  (PoolL2Tx.Amount tx = Some 0 ->
     verifyPoolL2Tx a tx <> Ok () /\
     (verifyPoolL2Tx a tx <> Panic ->
        is_Err (verifyPoolL2Tx a tx) /\
        forall clientIP, exists e,
          postPoolTx a (Ok tx) clientIP = (BadReq e, l2 a))) /\
  (forall amount, PoolL2Tx.Amount tx = Some amount -> 0 < amount ->
     verifyPoolL2Tx a tx <> Err ErrExitAmount0).
Proof.
  intros Hexit.
  assert (Hty : forall tx', NewPoolL2Tx tx = Ok tx' ->
                            PoolL2Tx.Type_ tx' = common.TxTypeExit).
  { intros tx' Hnew. destruct Hexit as [Hrecv|[tx'' [Hnew' Hty]]].
    - rewrite (NewPoolL2Tx_keeps_Type _ _ Hnew); [exact Hrecv|].
      rewrite Hrecv. discriminate.
    - congruence. }
  assert (Hzero : PoolL2Tx.Amount tx = Some 0 -> verifyPoolL2Tx a tx <> Ok ()).
  { intros Hamt. unfold verifyPoolL2Tx.
    destruct (NewPoolL2Tx tx) as [tx'| |] eqn:Hnew; simpl; try discriminate.
    pose proof (Hty _ eq_refl) as Hty'.
    pose proof (NewPoolL2Tx_Amount _ _ Hnew) as Hamt'. rewrite Hamt in Hamt'.
    destruct (CalcFeeAmount _ _); simpl; try discriminate.
    destruct (GetCommonAccountAPI _ _); try discriminate.
    repeat (case_match; simpl; try discriminate); try congruence.
    all: simplify_eq; discriminate. }
  split.
  - intros Hamt. split; [auto|]. intros Hnp.
    assert (Herr : is_Err (verifyPoolL2Tx a tx)).
    { specialize (Hzero Hamt). destruct (verifyPoolL2Tx a tx) as [[]| |]; simpl; tauto. }
    split; [exact Herr|]. intros ip. unfold postPoolTx.
    destruct (negb _ || _); [eauto|].
    destruct (verifyPoolL2Tx a tx) as [[]|e|]; simpl in Herr; try tauto. eauto.
  - intros amount Hamt Hpos. unfold verifyPoolL2Tx.
    destruct (NewPoolL2Tx tx) as [tx'| |] eqn:Hnew; simpl; try discriminate.
    2:{ intros [= ->]. exact (NewPoolL2Tx_not_ErrExitAmount0 _ Hnew). }
    pose proof (NewPoolL2Tx_Amount _ _ Hnew) as Hamt'. rewrite Hamt in Hamt'.
    destruct (CalcFeeAmount _ _); simpl; try discriminate.
    destruct (GetCommonAccountAPI _ _); try discriminate.
    repeat (case_match; simpl; try discriminate); try congruence.
    all: simplify_eq; lia.
Qed.

End admission.

(** ** Big-endian bytes *)

Section bytes.
Import common.

Lemma byte_of_mod x : byte_of x = x mod 256.
Proof. unfold byte_of. change 255 with (Z.ones 8). rewrite Z.land_ones by lia. reflexivity. Qed.

Lemma byte_of_is_byte x : is_byte (byte_of x).
Proof. rewrite byte_of_mod. unfold is_byte. apply Z.mod_pos_bound. lia. Qed.

Lemma length_be_bytes n x : length (be_bytes n x) = n.
Proof. induction n; simpl; auto. Qed.

Lemma be_bytes_is_byte n x : Forall is_byte (be_bytes n x).
Proof. induction n; simpl; constructor; auto using byte_of_is_byte. Qed.

Lemma pow256 k : 0 <= k -> 2 ^ (8 * (k + 1)) = 256 * 2 ^ (8 * k).
Proof.
  intros Hk. replace (8 * (k + 1)) with (8 + 8 * k) by lia.
  rewrite Z.pow_add_r by lia. reflexivity.
Qed.

Lemma SetBytes_from acc b :
  fold_left (fun acc x => acc * 256 + x) b acc
  = acc * 2 ^ (8 * Z.of_nat (length b)) + SetBytes b.
Proof.
  unfold SetBytes. revert acc. induction b as [|x b IH]; intros acc; simpl fold_left.
  - simpl. lia.
  - rewrite IH. rewrite (IH (0 * 256 + x)).
    replace (Z.of_nat (length (x :: b))) with (Z.of_nat (length b) + 1)
      by (simpl length; lia).
    rewrite pow256 by lia. lia.
Qed.

Lemma SetBytes_cons x b :
  SetBytes (x :: b) = x * 2 ^ (8 * Z.of_nat (length b)) + SetBytes b.
Proof. unfold SetBytes at 1. simpl fold_left. rewrite SetBytes_from. lia. Qed.

Lemma SetBytes_app a b :
  SetBytes (a ++ b) = SetBytes a * 2 ^ (8 * Z.of_nat (length b)) + SetBytes b.
Proof.
  induction a as [|x a IH]; simpl app.
  - unfold SetBytes at 2. simpl. lia.
  - rewrite !SetBytes_cons, IH, length_app, Nat2Z.inj_add.
    replace (8 * (Z.of_nat (length a) + Z.of_nat (length b)))
      with (8 * Z.of_nat (length a) + 8 * Z.of_nat (length b)) by lia.
    rewrite Z.pow_add_r by lia. lia.
Qed.

Lemma SetBytes_bound b :
  Forall is_byte b -> 0 <= SetBytes b < 2 ^ (8 * Z.of_nat (length b)).
Proof.
  induction 1 as [|x b Hx Hb IH].
  - unfold SetBytes. simpl. lia.
  - rewrite SetBytes_cons.
    replace (Z.of_nat (length (x :: b))) with (Z.of_nat (length b) + 1)
      by (simpl length; lia).
    rewrite pow256 by lia. unfold is_byte in Hx. nia.
Qed.

(** The [n] bytes written for [x] read back as [x] modulo [256 ^ n]. *)
Lemma SetBytes_be_bytes n x :
  SetBytes (be_bytes n x) = x mod 2 ^ (8 * Z.of_nat n).
Proof.
  induction n as [|k IH].
  - simpl. unfold SetBytes. simpl. rewrite Z.mod_1_r. reflexivity.
  - simpl be_bytes. rewrite SetBytes_cons, length_be_bytes, IH, byte_of_mod.
    rewrite Z.shiftr_div_pow2 by lia.
    replace (Z.of_nat (S k)) with (Z.of_nat k + 1) by lia.
    rewrite pow256 by lia.
    rewrite (Z.mul_comm 256), Z.rem_mul_r by lia. lia.
Qed.

Lemma SetBytes_be_bytes_id n x :
  0 <= x < 2 ^ (8 * Z.of_nat n) -> SetBytes (be_bytes n x) = x.
Proof. intros Hx. rewrite SetBytes_be_bytes. apply Z.mod_small. exact Hx. Qed.

Lemma be_bytes_add_high k m c x :
  (k <= m)%nat -> be_bytes k (c * 2 ^ (8 * Z.of_nat m) + x) = be_bytes k x.
Proof.
  induction k as [|k IH]; intros Hkm; simpl; [reflexivity|].
  rewrite IH by lia. f_equal.
  rewrite !byte_of_mod, !Z.shiftr_div_pow2 by lia.
  replace (8 * Z.of_nat m) with (8 * Z.of_nat k + 8 * (Z.of_nat m - Z.of_nat k - 1 + 1)) by lia.
  rewrite Z.pow_add_r by lia.
  rewrite pow256 by lia.
  replace (c * (2 ^ (8 * Z.of_nat k) * (256 * 2 ^ (8 * (Z.of_nat m - Z.of_nat k - 1)))) + x)
    with (x + (c * 256 * 2 ^ (8 * (Z.of_nat m - Z.of_nat k - 1))) * 2 ^ (8 * Z.of_nat k))
    by lia.
  rewrite Z.div_add by lia.
  replace (c * 256 * 2 ^ (8 * (Z.of_nat m - Z.of_nat k - 1)))
    with ((c * 2 ^ (8 * (Z.of_nat m - Z.of_nat k - 1))) * 256) by lia.
  apply Z.mod_add. lia.
Qed.

(** Bytes read as a number and written back with their length are themselves. *)
Lemma be_bytes_SetBytes b : Forall is_byte b -> be_bytes (length b) (SetBytes b) = b.
Proof.
  induction 1 as [|x b Hx Hb IH]; [reflexivity|].
  simpl length. simpl be_bytes. rewrite SetBytes_cons.
  rewrite be_bytes_add_high by lia. rewrite IH. f_equal.
  rewrite byte_of_mod, Z.shiftr_div_pow2 by lia.
  pose proof (SetBytes_bound b Hb) as Hr.
  rewrite Z.add_comm, Z.div_add by lia.
  rewrite Z.div_small by lia. simpl. apply Z.mod_small. exact Hx.
Qed.

Lemma Idx_Bytes_ok idx : idx <= maxIdxValue -> Idx_Bytes idx = Ok (be_bytes 6 idx).
Proof.
  intros Hle. unfold Idx_Bytes. destruct (Z.gtb_spec idx maxIdxValue); [lia|]. reflexivity.
Qed.

Lemma Nonce_Bytes_ok n : n <= maxNonceValue -> Nonce_Bytes n = Ok (be_bytes 5 n).
Proof.
  intros Hle. unfold Nonce_Bytes. destruct (Z.gtb_spec n maxNonceValue); [lia|]. reflexivity.
Qed.

End bytes.

(** ** Transaction ids and compressed data *)

Section codec.
Context {F64 : Float64} {CC : common.Consts}.
Import common.

Lemma SetID_ok (tx : PoolL2Tx.t) :
  length (PoolL2Tx.TxID tx) = 12%nat ->
  PoolL2Tx.FromIdx tx <= maxIdxValue -> PoolL2Tx.Nonce tx <= maxNonceValue ->
  SetID tx = Ok (PoolL2Tx.set_TxID (l2TxID tx) tx).
Proof.
  intros Hlen Hidx Hnonce. unfold SetID, l2TxID.
  rewrite (Idx_Bytes_ok _ Hidx), (Nonce_Bytes_ok _ Hnonce).
  pose proof (length_be_bytes 6 (PoolL2Tx.FromIdx tx)) as H6.
  pose proof (length_be_bytes 5 (PoolL2Tx.Nonce tx)) as H5.
  destruct (be_bytes 6 (PoolL2Tx.FromIdx tx)) as [|f0 l6]; [discriminate|].
  destruct (be_bytes 5 (PoolL2Tx.Nonce tx)) as [|n0 l5]; [discriminate|].
  destruct (PoolL2Tx.TxID tx) as [|t0 l12]; [discriminate|].
  explode l6 H6. explode l5 H5. explode l12 Hlen.
  reflexivity.
Qed.

Lemma SetType_fields (tx tx1 : PoolL2Tx.t) :
  SetType tx = Ok tx1 ->
  PoolL2Tx.TxID tx1 = PoolL2Tx.TxID tx /\
  PoolL2Tx.FromIdx tx1 = PoolL2Tx.FromIdx tx /\
  PoolL2Tx.Nonce tx1 = PoolL2Tx.Nonce tx.
Proof. unfold SetType. repeat case_match; intros [= <-]; auto. Qed.

Lemma length_l2TxID (tx : PoolL2Tx.t) : length (l2TxID tx) = 12%nat.
Proof. unfold l2TxID. cbn [length]. rewrite length_app, !length_be_bytes. reflexivity. Qed.

(** C7 (amended).  SetID computes the prefix byte followed by the 6 bytes
    of FromIdx and the 5 bytes of Nonce, and computing it again changes
    nothing.  For a tx with a pre-set non-empty TxID whose type SetType can
    infer, in agreement with the type the tx carries if it carries one,
    NewPoolL2Tx returns without error if and only if the stored TxID is
    the computed one. *)
Theorem NewPoolL2Tx_TxID (tx tx1 : PoolL2Tx.t) :
  length (PoolL2Tx.TxID tx) = 12%nat ->
  PoolL2Tx.FromIdx tx <= maxIdxValue -> PoolL2Tx.Nonce tx <= maxNonceValue ->
  SetType tx = Ok tx1 ->
  PoolL2Tx.Type_ tx = TxTypeUnset \/ PoolL2Tx.Type_ tx = PoolL2Tx.Type_ tx1 ->
  (exists tx', SetID tx = Ok tx' /\ PoolL2Tx.TxID tx' = l2TxID tx /\
               SetID tx' = Ok tx') /\
  (PoolL2Tx.TxID tx <> EmptyTxID ->
     (exists tx', NewPoolL2Tx tx = Ok tx') <-> PoolL2Tx.TxID tx = l2TxID tx).
Proof.
  intros Hlen Hidx Hnonce Hty Hold. split.
  - exists (PoolL2Tx.set_TxID (l2TxID tx) tx).
    split; [apply SetID_ok; assumption|]. split; [reflexivity|].
    rewrite SetID_ok; simpl; auto using length_l2TxID.
  - intros Hne. unfold NewPoolL2Tx. rewrite Hty. simpl mbind.
    destruct (SetType_fields _ _ Hty) as (Hid & Hfrom & Hn).
    assert (Htyck : bool_decide (PoolL2Tx.Type_ tx <> TxTypeUnset)
                    && bool_decide (PoolL2Tx.Type_ tx <> PoolL2Tx.Type_ tx1) = false).
    { destruct Hold as [Hu|He].
      - rewrite (bool_decide_eq_false_2 _ (fun H => H Hu)). reflexivity.
      - rewrite (bool_decide_eq_false_2 (_ <> PoolL2Tx.Type_ tx1) (fun H => H He)).
        apply andb_false_r. }
    rewrite Htyck.
    rewrite SetID_ok by congruence. simpl mbind.
    rewrite Hid. rewrite (bool_decide_eq_true_2 _ Hne). simpl andb.
    simpl PoolL2Tx.TxID.
    assert (Hl : l2TxID tx1 = l2TxID tx) by (unfold l2TxID; rewrite Hfrom, Hn; reflexivity).
    rewrite Hl.
    destruct (decide (PoolL2Tx.TxID tx = l2TxID tx)) as [Heq|Hneq].
    + rewrite (bool_decide_eq_false_2 _ (fun H => H Heq)). split; eauto.
    + rewrite (bool_decide_eq_true_2 _ Hneq). split; [intros [? ?]; discriminate|tauto].
Qed.

Context {CD : Codec}.

Lemma TxCompressedData_bytes_ok (tx : PoolL2Tx.t) chainID amountFloat16 :
  NewFloat16 (PoolL2Tx.Amount tx) = Ok amountFloat16 ->
  PoolL2Tx.Nonce tx <= maxNonceValue ->
  PoolL2Tx.ToIdx tx <= maxIdxValue -> PoolL2Tx.FromIdx tx <= maxIdxValue ->
  length SignatureConstantBytes = 4%nat ->
  TxCompressedData_bytes tx chainID = Ok (compressedLayout tx chainID amountFloat16).
Proof.
  intros Hf Hn Hto Hfrom Hsig. unfold TxCompressedData_bytes, compressedLayout.
  rewrite Hf, (Nonce_Bytes_ok _ Hn), (Idx_Bytes_ok _ Hto), (Idx_Bytes_ok _ Hfrom).
  cbn [mbind result_bind].
  unfold TokenID_Bytes, Float16_Bytes, PutUint16, PutUint32.
  pose proof (length_be_bytes 5 (PoolL2Tx.Nonce tx)) as H1.
  pose proof (length_be_bytes 4 (PoolL2Tx.TokenID tx)) as H2.
  pose proof (length_be_bytes 2 amountFloat16) as H3.
  pose proof (length_be_bytes 6 (PoolL2Tx.ToIdx tx)) as H4.
  pose proof (length_be_bytes 6 (PoolL2Tx.FromIdx tx)) as H5.
  pose proof (length_be_bytes 2 chainID) as H6.
  destruct (be_bytes 5 (PoolL2Tx.Nonce tx)) as [|? l1]; [discriminate|].
  destruct (be_bytes 4 (PoolL2Tx.TokenID tx)) as [|? l2]; [discriminate|].
  destruct (be_bytes 2 amountFloat16) as [|? l3]; [discriminate|].
  destruct (be_bytes 6 (PoolL2Tx.ToIdx tx)) as [|? l4]; [discriminate|].
  destruct (be_bytes 6 (PoolL2Tx.FromIdx tx)) as [|? l5]; [discriminate|].
  destruct (be_bytes 2 chainID) as [|? l6]; [discriminate|].
  destruct SignatureConstantBytes as [|? l7]; [discriminate|].
  explode l1 H1. explode l2 H2. explode l3 H3. explode l4 H4. explode l5 H5.
  explode l6 H6. explode l7 Hsig.
  reflexivity.
Qed.

(** C6.  For a tx whose amount has a Float16 and whose fields have the
    widths of their types, TxCompressedData is the number whose 31
    big-endian bytes are toBJJSign, fee, nonce (5), tokenID (4),
    amountFloat16 (2), toIdx (6), fromIdx (6), chainID (2) and the
    signature constant (4), every field big-endian; as a number, each field
    shifted to its place. *)
Theorem TxCompressedData_layout (tx : PoolL2Tx.t) (chainID amountFloat16 : Z) :
  NewFloat16 (PoolL2Tx.Amount tx) = Ok amountFloat16 ->
  0 <= amountFloat16 < 2 ^ 16 ->
  0 <= PoolL2Tx.Fee tx < 2 ^ 8 ->
  0 <= PoolL2Tx.Nonce tx < 2 ^ 40 ->
  0 <= PoolL2Tx.TokenID tx < 2 ^ 32 ->
  0 <= PoolL2Tx.ToIdx tx < 2 ^ 48 ->
  0 <= PoolL2Tx.FromIdx tx < 2 ^ 48 ->
  0 <= chainID < 2 ^ 16 ->
  length SignatureConstantBytes = 4%nat -> Forall is_byte SignatureConstantBytes ->
  exists v,
    TxCompressedData tx chainID = Ok v /\
    be_bytes 31 v = compressedLayout tx chainID amountFloat16 /\
    v = compressedValue tx chainID amountFloat16.
Proof.
  intros Hf Hf16 Hfee Hn Htok Hto Hfrom Hchain Hsig Hsigb.
  unfold TxCompressedData.
  rewrite (TxCompressedData_bytes_ok tx chainID amountFloat16)
    by (unfold maxNonceValue, maxIdxValue; auto; lia).
  simpl mbind. eexists. split; [reflexivity|]. split.
  - assert (Hlen : length (compressedLayout tx chainID amountFloat16) = 31%nat).
    { unfold compressedLayout. rewrite !length_app, !length_be_bytes, Hsig. reflexivity. }
    rewrite <- Hlen at 1. apply be_bytes_SetBytes.
    unfold compressedLayout. repeat (apply Forall_app; split);
      auto using be_bytes_is_byte.
    constructor; [|constructor]. unfold is_byte. destruct (UnpackSignY_sign _); lia.
  - unfold compressedLayout, compressedValue.
    rewrite !SetBytes_app, !length_app, !length_be_bytes, Hsig.
    rewrite !SetBytes_be_bytes_id by (simpl; lia).
    replace (SetBytes [if UnpackSignY_sign (PoolL2Tx.ToBJJ tx) then 1 else 0])
      with (if UnpackSignY_sign (PoolL2Tx.ToBJJ tx) then 1 else 0)
      by (destruct (UnpackSignY_sign _); reflexivity).
    simpl Z.of_nat. simpl Z.mul.
    generalize (SetBytes SignatureConstantBytes). intros s.
    destruct (UnpackSignY_sign _); lia.
Qed.

End codec.

(** ** Effective amounts *)

Section effective.
Context {CC : common.Consts} {SDB : StateDBOps}.

Lemma computeEffectiveAmounts_fields (tp : TxProcessor) (tx : L1Tx.t) :
  L1Tx.set_Effective None None (computeEffectiveAmounts tp tx)
  = L1Tx.set_Effective None None tx.
Proof. reflexivity. Qed.

(** C3.  For an L1 tx of user origin the effective deposit amount is the
    deposit amount, and when the balance the sender had plus the
    effective deposit does not cover Amount, the effective amount is 0;
    these are the amounts the processor leaves in the tx. *)
Theorem computeEffectiveAmounts_deposit (tp : TxProcessor) (tx : L1Tx.t) :
  L1Tx.UserOrigin tx = true ->
  let tx' := computeEffectiveAmounts tp tx in
  L1Tx.EffectiveDepositAmount tx' = Some (L1Tx.DepositAmount tx) /\
  (preExistingBalance tp tx + L1Tx.DepositAmount tx < L1Tx.Amount tx ->
     L1Tx.EffectiveAmount tx' = Some 0) /\
  (forall tp' tx'', ProcessL1Tx tp tx = Ok (tp', tx'') -> tx'' = tx').
Proof.
  intros _ tx'. split; [reflexivity|]. split.
  - intros Hlt. unfold tx', computeEffectiveAmounts. simpl.
    destruct (Z.leb_spec (L1Tx.Amount tx)
                (preExistingBalance tp tx + L1Tx.DepositAmount tx)); [lia|].
    rewrite !andb_false_r. reflexivity.
  - intros tp' tx''. unfold ProcessL1Tx. fold tx'.
    destruct (applyL1Tx tp tx'); simpl; congruence.
Qed.

End effective.

(** ** Sorting *)

Section sorting.
Context {A : Type} (R : A -> A -> Prop).

Lemma StronglySorted_app_iff (l1 l2 : list A) :
  StronglySorted R (l1 ++ l2) <->
  StronglySorted R l1 /\ StronglySorted R l2 /\
  (forall a b, a ∈ l1 -> b ∈ l2 -> R a b).
Proof.
  induction l1 as [|x l1 IH]; simpl.
  - split.
    + intros Hs. repeat split; [constructor|exact Hs|].
      intros a b Ha. inversion Ha.
    + intros (_ & Hs & _). exact Hs.
  - split.
    + intros Hs. apply StronglySorted_inv in Hs as [Hs Hx].
      apply IH in Hs as (H1 & H2 & H12).
      rewrite Forall_forall in Hx.
      repeat split; [constructor; [exact H1|]|exact H2|].
      * apply Forall_forall. intros y Hy. apply Hx, elem_of_app. left. exact Hy.
      * intros a b Ha Hb. apply elem_of_cons in Ha as [->|Ha].
        -- apply Hx, elem_of_app. right. exact Hb.
        -- apply H12; assumption.
    + intros (H1 & H2 & H12).
      apply StronglySorted_inv in H1 as [H1 Hx].
      constructor.
      * apply IH. repeat split; auto.
        intros a b Ha Hb. apply H12; [apply elem_of_cons; right|]; assumption.
      * rewrite Forall_forall in Hx. apply Forall_forall. intros y Hy.
        apply elem_of_app in Hy as [Hy|Hy].
        -- apply Hx, Hy.
        -- apply H12; [apply elem_of_cons; left; reflexivity|exact Hy].
Qed.
End sorting.

Section stable_sort.
Context {A : Type} (less : A -> A -> bool).

Lemma insertStable_perm x l : Permutation (insertStable less x l) (x :: l).
Proof.
  induction l as [|y l IH]; simpl; [reflexivity|].
  destruct (less y x); [|reflexivity].
  rewrite IH. apply perm_swap.
Qed.

Lemma sort_SliceStable_perm l : Permutation (sort_SliceStable less l) l.
Proof.
  induction l as [|x l IH]; simpl; [reflexivity|].
  unfold sort_SliceStable in *. simpl. rewrite insertStable_perm. constructor. exact IH.
Qed.

Hypothesis less_irrefl : forall a, less a a = false.
Hypothesis less_trans : forall a b c, less a b = true -> less b c = true -> less a c = true.
Hypothesis less_cotrans : forall a b c,
  less a c = true -> less a b = true \/ less b c = true.

Lemma less_asym a b : less a b = true -> less b a = false.
Proof using less_irrefl less_trans.
  intros Hab. destruct (less b a) eqn:Hba; [|reflexivity].
  rewrite <- (less_irrefl a). symmetry. eapply less_trans; eassumption.
Qed.

Lemma insertStable_sorted x l :
  StronglySorted (fun a b => less b a = false) l ->
  StronglySorted (fun a b => less b a = false) (insertStable less x l).
Proof using less_irrefl less_trans less_cotrans.
  induction 1 as [|y l Hs IH Hy]; simpl.
  - repeat constructor.
  - destruct (less y x) eqn:Hyx.
    + constructor; [exact IH|].
      rewrite Forall_forall in *. intros z Hz.
      rewrite (insertStable_perm x l) in Hz.
      apply elem_of_cons in Hz as [->|Hz].
      * apply less_asym. exact Hyx.
      * apply Hy, Hz.
    + constructor; [constructor; assumption|].
      constructor; [exact Hyx|].
      rewrite Forall_forall in *. intros z Hz.
      destruct (less z x) eqn:Hzx; [|reflexivity].
      destruct (less_cotrans z y x Hzx) as [Hzy|Hyx']; [|congruence].
      rewrite (Hy z Hz) in Hzy. discriminate.
Qed.

Lemma sort_SliceStable_sorted l :
  StronglySorted (fun a b => less b a = false) (sort_SliceStable less l).
Proof using less_irrefl less_trans less_cotrans.
  induction l as [|x l IH]; [constructor|].
  unfold sort_SliceStable in *. simpl. apply insertStable_sorted. exact IH.
Qed.
End stable_sort.

(** ** The order of the selectable txs *)

Section order.
Context {F64 : Float64} {FO : Float64Order}.

Lemma f64_gtb_asym a b : f64_gtb a b = true -> f64_gtb b a = false.
Proof.
  intros Hab. destruct (f64_gtb b a) eqn:Hba; [|reflexivity].
  rewrite <- (f64_gtb_irrefl a). symmetry. eapply f64_gtb_trans; eassumption.
Qed.

Lemma f64_gtb_eq_r a b c :
  f64_gtb a b = true -> f64_gtb c b = false -> f64_gtb a c = true.
Proof.
  intros Hab Hcb. destruct (f64_gtb_cotrans a c b Hab) as [H|H]; [exact H|congruence].
Qed.

Lemma f64_gtb_eq_l a b c :
  f64_gtb b a = false -> f64_gtb b c = true -> f64_gtb a c = true.
Proof.
  intros Hba Hbc. destruct (f64_gtb_cotrans b a c Hbc) as [H|H]; [congruence|exact H].
Qed.

Lemma f64_gtb_false_trans a b c :
  f64_gtb a b = false -> f64_gtb b c = false -> f64_gtb a c = false.
Proof.
  intros Hab Hbc. destruct (f64_gtb a c) eqn:Hac; [|reflexivity].
  destruct (f64_gtb_cotrans a b c Hac); congruence.
Qed.

Lemma lessNonAtomic_irrefl a : lessNonAtomic a a = false.
Proof.
  unfold lessNonAtomic. rewrite f64_neb_gtb, f64_gtb_irrefl. simpl.
  rewrite Z.eqb_refl. simpl. apply Z.ltb_irrefl.
Qed.

Lemma lessNonAtomic_spec a b :
  lessNonAtomic a b = true <->
  f64_gtb (PoolL2Tx.AbsoluteFee a) (PoolL2Tx.AbsoluteFee b) = true \/
  (f64_gtb (PoolL2Tx.AbsoluteFee a) (PoolL2Tx.AbsoluteFee b) = false /\
   f64_gtb (PoolL2Tx.AbsoluteFee b) (PoolL2Tx.AbsoluteFee a) = false /\
   (PoolL2Tx.FromIdx a < PoolL2Tx.FromIdx b \/
    (PoolL2Tx.FromIdx a = PoolL2Tx.FromIdx b /\ PoolL2Tx.Nonce a < PoolL2Tx.Nonce b))).
Proof.
  unfold lessNonAtomic. rewrite f64_neb_gtb.
  pose proof (f64_gtb_asym (PoolL2Tx.AbsoluteFee a) (PoolL2Tx.AbsoluteFee b)).
  destruct (f64_gtb (PoolL2Tx.AbsoluteFee a) (PoolL2Tx.AbsoluteFee b));
    destruct (f64_gtb (PoolL2Tx.AbsoluteFee b) (PoolL2Tx.AbsoluteFee a)); simpl;
    try (intuition congruence).
  destruct (Z.eqb_spec (PoolL2Tx.FromIdx a) (PoolL2Tx.FromIdx b)); simpl;
    rewrite Z.ltb_lt; intuition (try congruence; try lia).
Qed.

Lemma lessNonAtomic_false a b : lessNonAtomic b a = false <-> nonAtomicOrder a b.
Proof.
  unfold nonAtomicOrder.
  destruct (lessNonAtomic b a) eqn:Hl.
  - apply lessNonAtomic_spec in Hl.
    pose proof (f64_gtb_asym (PoolL2Tx.AbsoluteFee b) (PoolL2Tx.AbsoluteFee a)).
    split; [discriminate|]. intros Ho. exfalso.
    intuition (try congruence; try lia).
  - split; [intros _|reflexivity].
    assert (Hn : ~ (lessNonAtomic b a = true)) by congruence.
    rewrite lessNonAtomic_spec in Hn.
    destruct (f64_gtb (PoolL2Tx.AbsoluteFee a) (PoolL2Tx.AbsoluteFee b)) eqn:Hab;
      [left; reflexivity|right].
    destruct (f64_gtb (PoolL2Tx.AbsoluteFee b) (PoolL2Tx.AbsoluteFee a)) eqn:Hba;
      [exfalso; tauto|].
    split; [reflexivity|].
    assert (Hn' : ~ (PoolL2Tx.FromIdx b < PoolL2Tx.FromIdx a \/
                     (PoolL2Tx.FromIdx b = PoolL2Tx.FromIdx a /\
                      PoolL2Tx.Nonce b < PoolL2Tx.Nonce a)))
      by (intros Hc; apply Hn; right; auto).
    lia.
Qed.

Lemma lessNonAtomic_trans a b c :
  lessNonAtomic a b = true -> lessNonAtomic b c = true -> lessNonAtomic a c = true.
Proof.
  rewrite !lessNonAtomic_spec.
  intros [H1|(H1a & H1b & H1c)] [H2|(H2a & H2b & H2c)].
  - left. eapply f64_gtb_trans; eassumption.
  - left. eapply f64_gtb_eq_r; eassumption.
  - left. eapply f64_gtb_eq_l; eassumption.
  - right. split; [eapply f64_gtb_false_trans; eassumption|].
    split; [eapply f64_gtb_false_trans; eassumption|]. lia.
Qed.

Lemma lessNonAtomic_cotrans a b c :
  lessNonAtomic a c = true -> lessNonAtomic a b = true \/ lessNonAtomic b c = true.
Proof.
  rewrite !lessNonAtomic_spec.
  intros [H|(Hac & Hca & Hlex)].
  - destruct (f64_gtb_cotrans _ (PoolL2Tx.AbsoluteFee b) _ H) as [H'|H']; auto.
  - destruct (f64_gtb (PoolL2Tx.AbsoluteFee a) (PoolL2Tx.AbsoluteFee b)) eqn:Hab; [auto|].
    destruct (f64_gtb (PoolL2Tx.AbsoluteFee b) (PoolL2Tx.AbsoluteFee c)) eqn:Hbc; [auto|].
    assert (Hba : f64_gtb (PoolL2Tx.AbsoluteFee b) (PoolL2Tx.AbsoluteFee a) = false).
    { destruct (f64_gtb (PoolL2Tx.AbsoluteFee b) (PoolL2Tx.AbsoluteFee a)) eqn:Hba;
        [|reflexivity].
      rewrite <- Hbc. symmetry. eapply f64_gtb_eq_r; eassumption. }
    assert (Hcb : f64_gtb (PoolL2Tx.AbsoluteFee c) (PoolL2Tx.AbsoluteFee b) = false).
    { destruct (f64_gtb (PoolL2Tx.AbsoluteFee c) (PoolL2Tx.AbsoluteFee b)) eqn:Hcb;
        [|reflexivity].
      rewrite <- Hca. symmetry. eapply f64_gtb_eq_r; eassumption. }
    assert (Hint :
      (PoolL2Tx.FromIdx a < PoolL2Tx.FromIdx b \/
       (PoolL2Tx.FromIdx a = PoolL2Tx.FromIdx b /\ PoolL2Tx.Nonce a < PoolL2Tx.Nonce b)) \/
      (PoolL2Tx.FromIdx b < PoolL2Tx.FromIdx c \/
       (PoolL2Tx.FromIdx b = PoolL2Tx.FromIdx c /\ PoolL2Tx.Nonce b < PoolL2Tx.Nonce c)))
      by lia.
    destruct Hint as [Hi|Hi]; [left|right]; right; auto.
Qed.

End order.

Section groups.
Context {F64 : Float64} {FO : Float64Order}.

Lemma uniformGroup_snoc group tx :
  uniformGroup group -> PoolL2Tx.AtomicGroupID tx = groupKey group ->
  uniformGroup (group ++ [tx]) /\ groupKey (group ++ [tx]) = groupKey group.
Proof.
  intros (Hne & Hk & Hall) Htx.
  assert (Hkey : groupKey (group ++ [tx]) = groupKey group)
    by (destruct group; [contradiction|reflexivity]).
  split; [|exact Hkey]. repeat split.
  - destruct group; discriminate.
  - rewrite Hkey. exact Hk.
  - intros y Hy. rewrite Hkey. apply elem_of_app in Hy as [Hy|Hy]; [auto|].
    apply list_elem_of_singleton in Hy as ->. exact Htx.
Qed.

Lemma appendToGroup_keys k tx (m : groupsMap) :
  map fst (appendToGroup k tx m)
  = if bool_decide (k ∈ map fst m) then map fst m else map fst m ++ [k].
Proof.
  induction m as [|[k0 txs] m IH].
  - reflexivity.
  - cbn [appendToGroup map fst]. destruct (decide (k0 = k)) as [->|Hne].
    + rewrite bool_decide_eq_true_2 by reflexivity. cbn [map fst].
      rewrite (bool_decide_eq_true_2 (k ∈ k :: map fst m)); [reflexivity|].
      apply elem_of_cons. auto.
    + rewrite (bool_decide_eq_false_2 (k0 = k)) by assumption. cbn [map fst]. rewrite IH.
      destruct (decide (k ∈ map fst m)) as [Hin|Hnin].
      * rewrite (bool_decide_eq_true_2 _ Hin).
        rewrite (bool_decide_eq_true_2 (k ∈ k0 :: map fst m)); [reflexivity|].
        apply elem_of_cons. auto.
      * rewrite (bool_decide_eq_false_2 _ Hnin).
        rewrite (bool_decide_eq_false_2 (k ∈ k0 :: map fst m)); [reflexivity|].
        intros [?|?]%elem_of_cons; congruence.
Qed.

Lemma appendToGroup_wf k tx (m : groupsMap) :
  wfGroupsMap m -> k <> common.EmptyAtomicGroupID -> PoolL2Tx.AtomicGroupID tx = k ->
  wfGroupsMap (appendToGroup k tx m).
Proof.
  intros [Hall Hnd] Hk Htx. split.
  - clear Hnd. induction Hall as [|[k0 txs] m [Hu Hkey] Hall IH]; simpl.
    + constructor; [|constructor]. simpl. split; [|exact Htx].
      repeat split; simpl; [discriminate|congruence|].
      intros y Hy. apply list_elem_of_singleton in Hy as ->. reflexivity.
    + simpl in Hkey. destruct (decide (k0 = k)) as [->|Hne].
      * rewrite bool_decide_eq_true_2 by reflexivity.
        constructor; [|exact Hall]. simpl.
        destruct (uniformGroup_snoc txs tx Hu) as [Hu' Hk']; [congruence|].
        split; [exact Hu'|congruence].
      * rewrite bool_decide_eq_false_2 by assumption.
        constructor; [split; assumption|exact IH].
  - rewrite appendToGroup_keys. case_bool_decide as Hin; [exact Hnd|].
    apply NoDup_app. repeat split; [exact Hnd| |apply NoDup_singleton].
    intros x Hx Hx'. apply list_elem_of_singleton in Hx' as ->. contradiction.
Qed.

Lemma appendToGroup_perm k tx (m : groupsMap) :
  Permutation (concat (map snd (appendToGroup k tx m))) (tx :: concat (map snd m)).
Proof.
  induction m as [|[k0 txs] m IH]; simpl; [reflexivity|].
  case_bool_decide; simpl.
  - rewrite <- app_assoc. simpl. symmetry. apply Permutation_middle.
  - rewrite IH. symmetry. apply Permutation_middle.
Qed.

Lemma filter_none {A} (P : A -> Prop) `{forall x, Decision (P x)} (l : list A) :
  (forall x, x ∈ l -> ~ P x) -> filter P l = [].
Proof.
  induction l as [|x l IH]; intros Hall; [reflexivity|].
  rewrite filter_cons_False by (apply Hall; left).
  apply IH. intros y Hy. apply Hall. right. exact Hy.
Qed.

Lemma filter_all {A} (P : A -> Prop) `{forall x, Decision (P x)} (l : list A) :
  (forall x, x ∈ l -> P x) -> filter P l = l.
Proof.
  induction l as [|x l IH]; intros Hall; [reflexivity|].
  rewrite filter_cons_True by (apply Hall; left).
  f_equal. apply IH. intros y Hy. apply Hall. right. exact Hy.
Qed.

Lemma ofGroup_app g l1 l2 : ofGroup g (l1 ++ l2) = ofGroup g l1 ++ ofGroup g l2.
Proof. apply filter_app. Qed.

Lemma ofGroup_other g group :
  uniformGroup group -> groupKey group <> g -> ofGroup g group = [].
Proof.
  intros (_ & _ & Hall) Hne. apply filter_none.
  intros x Hx Hg. apply Hne. rewrite <- (Hall x Hx). exact Hg.
Qed.

Lemma ofGroup_concat_other g (groups : list (list PoolL2Tx.t)) :
  Forall uniformGroup groups -> g ∉ map groupKey groups ->
  ofGroup g (concat groups) = [].
Proof.
  induction 1 as [|x groups Hx Hall IH]; intros Hnin; [reflexivity|].
  simpl. rewrite ofGroup_app, IH, app_nil_r.
  - apply ofGroup_other; [exact Hx|]. intros Heq. apply Hnin. simpl.
    apply elem_of_cons. left. congruence.
  - intros Hin. apply Hnin. simpl. apply elem_of_cons. right. exact Hin.
Qed.

Lemma wfGroupsMap_groups (m : groupsMap) :
  wfGroupsMap m -> wfGroups (map snd m) /\ map groupKey (map snd m) = map fst m.
Proof.
  intros [Hall Hnd].
  assert (Hkeys : map groupKey (map snd m) = map fst m).
  { clear Hnd. induction Hall as [|e m [_ He] _ IH]; [reflexivity|].
    simpl. rewrite He, IH. reflexivity. }
  split; [|exact Hkeys]. split.
  - clear Hnd Hkeys. induction Hall as [|e m [He _] _ IH]; constructor; assumption.
  - rewrite Hkeys. exact Hnd.
Qed.

Lemma appendToGroup_ofGroup g k tx (m : groupsMap) :
  wfGroupsMap m -> PoolL2Tx.AtomicGroupID tx = k ->
  ofGroup g (concat (map snd (appendToGroup k tx m)))
  = ofGroup g (concat (map snd m)) ++ ofGroup g [tx].
Proof.
  intros Hwf Htx. induction m as [|[k0 txs] m IH].
  - simpl. reflexivity.
  - destruct Hwf as [Hall Hnd]. apply Forall_cons in Hall as [[Hu Hkey] Hall].
    simpl in Hkey. simpl in Hnd. apply NoDup_cons in Hnd as [Hk0 Hnd].
    cbn [appendToGroup]. case_bool_decide as Hk; cbn [map snd concat].
    + subst k0. rewrite <- app_assoc, !ofGroup_app, <- app_assoc. f_equal.
      destruct (decide (PoolL2Tx.AtomicGroupID tx = g)) as [Hg|Hg].
      * destruct (wfGroupsMap_groups m (conj Hall Hnd)) as [[Hug _] Hkeys].
        rewrite (ofGroup_concat_other g (map snd m) Hug).
        -- apply app_nil_r.
        -- rewrite Hkeys. congruence.
      * assert (Hnil : ofGroup g [tx] = [])
          by (unfold ofGroup; rewrite filter_cons_False by assumption; reflexivity).
        rewrite Hnil. symmetry. apply app_nil_r.
    + rewrite !ofGroup_app, IH by (split; assumption).
      rewrite app_assoc. reflexivity.
Qed.

Lemma ofGroup_concat_perm g (groups groups' : list (list PoolL2Tx.t)) :
  Permutation groups groups' -> wfGroups groups ->
  ofGroup g (concat groups') = ofGroup g (concat groups).
Proof.
  induction 1 as [|x l l' Hp IH|x y l|l l' l'' Hp1 IH1 Hp2 IH2]; intros [Hall Hnd].
  - reflexivity.
  - simpl. rewrite !ofGroup_app. f_equal. apply IH.
    apply Forall_cons in Hall as [_ Hall]. simpl in Hnd.
    apply NoDup_cons in Hnd as [_ Hnd]. split; assumption.
  - simpl. rewrite !ofGroup_app, !app_assoc. f_equal.
    apply Forall_cons in Hall as [Hy Hall]. apply Forall_cons in Hall as [Hx Hall].
    simpl in Hnd. apply NoDup_cons in Hnd as [Hyx _].
    destruct (decide (groupKey x = g)) as [Hg|Hg].
    + rewrite (ofGroup_other g y Hy); [rewrite app_nil_r; reflexivity|].
      intros Hg'. apply Hyx. apply elem_of_cons. left. congruence.
    + rewrite (ofGroup_other g x Hx Hg). rewrite app_nil_r. reflexivity.
  - rewrite IH2, IH1; [reflexivity|split; assumption|].
    split; [rewrite <- Hp1; exact Hall|]. rewrite <- Hp1. exact Hnd.
Qed.

Lemma wfGroups_perm (groups groups' : list (list PoolL2Tx.t)) :
  Permutation groups groups' -> wfGroups groups -> wfGroups groups'.
Proof. intros Hp [Hall Hnd]. split; rewrite <- Hp; assumption. Qed.

Lemma Permutation_concat {A} (l l' : list (list A)) :
  Permutation l l' -> Permutation (concat l) (concat l').
Proof.
  induction 1; simpl; [reflexivity| | |etransitivity; eassumption].
  - apply Permutation_app_head. assumption.
  - rewrite !app_assoc. apply Permutation_app_tail, Permutation_app_comm.
Qed.

(** *** The first loop *)

Lemma separateAtomic_spec l2Txs (m : groupsMap) nonAtomicTxs :
  wfGroupsMap m ->
  let '(m', nonAtomicTxs') := separateAtomic l2Txs m nonAtomicTxs in
  wfGroupsMap m' /\
  nonAtomicTxs' = nonAtomicTxs ++ filter (fun tx => isAtomicTx tx = false) l2Txs /\
  Permutation (concat (map snd m') ++ nonAtomicTxs')
    ((concat (map snd m) ++ nonAtomicTxs) ++ l2Txs) /\
  forall g, g <> common.EmptyAtomicGroupID ->
    ofGroup g (concat (map snd m')) = ofGroup g (concat (map snd m)) ++ ofGroup g l2Txs.
Proof.
  revert m nonAtomicTxs. induction l2Txs as [|tx rest IH]; intros m na Hwf.
  - simpl. rewrite !app_nil_r. split; [exact Hwf|]. repeat split; auto.
    intros g _. symmetry. apply app_nil_r.
  - cbn [separateAtomic]. unfold isAtomicTx in *. case_bool_decide as Hat.
    + specialize (IH (appendToGroup (PoolL2Tx.AtomicGroupID tx) tx m) na
                    (appendToGroup_wf _ _ _ Hwf Hat eq_refl)).
      destruct (separateAtomic rest _ na) as [m' na'].
      destruct IH as (Hwf' & Hna & Hperm & Hog).
      split; [exact Hwf'|]. split; [|split].
      * rewrite filter_cons_False; [exact Hna|]. rewrite bool_decide_eq_true_2 by assumption.
        discriminate.
      * rewrite Hperm, appendToGroup_perm. simpl. apply Permutation_middle.
      * intros g Hg. rewrite (Hog g Hg), appendToGroup_ofGroup by auto.
        rewrite <- app_assoc, <- ofGroup_app. reflexivity.
    + specialize (IH m (na ++ [tx]) Hwf).
      destruct (separateAtomic rest m (na ++ [tx])) as [m' na'].
      destruct IH as (Hwf' & Hna & Hperm & Hog).
      split; [exact Hwf'|]. split; [|split].
      * rewrite filter_cons_True; [rewrite Hna, <- app_assoc; reflexivity|].
        apply bool_decide_eq_false_2. intros Hne. exact (Hne Hat).
      * rewrite Hperm. rewrite <- !app_assoc. reflexivity.
      * intros g Hg. rewrite (Hog g Hg). f_equal.
        unfold ofGroup. rewrite filter_cons_False; [reflexivity|].
        intros Heq. apply Hg. rewrite <- Heq. exact Hat.
Qed.

End groups.

Section combine_props.
Context {F64 : Float64} {FO : Float64Order}.
Variable atomicGroupsFee : gmap common.AtomicGroupID float64.

Lemma combine_nil groups : combine atomicGroupsFee [] groups = concat groups.
Proof. destruct groups; reflexivity. Qed.

Lemma combine_cons_nil tx nonAtomicTxs :
  combine atomicGroupsFee (tx :: nonAtomicTxs) [] = tx :: nonAtomicTxs.
Proof. reflexivity. Qed.

Lemma combine_cons_cons tx nonAtomicTxs group groups :
  combine atomicGroupsFee (tx :: nonAtomicTxs) (group :: groups)
  = if f64_gtb (PoolL2Tx.AbsoluteFee tx) (groupFee atomicGroupsFee group)
    then tx :: combine atomicGroupsFee nonAtomicTxs (group :: groups)
    else group ++ combine atomicGroupsFee (tx :: nonAtomicTxs) groups.
Proof. reflexivity. Qed.

Lemma combine_perm nonAtomicTxs groups :
  Permutation (combine atomicGroupsFee nonAtomicTxs groups)
    (nonAtomicTxs ++ concat groups).
Proof.
  revert groups. induction nonAtomicTxs as [|tx na IHna]; intros groups.
  - rewrite combine_nil. reflexivity.
  - induction groups as [|g gs IHgs].
    + rewrite combine_cons_nil, app_nil_r. reflexivity.
    + rewrite combine_cons_cons. destruct (f64_gtb _ _).
      * rewrite IHna. reflexivity.
      * rewrite IHgs. apply (Permutation_app_swap_app g (tx :: na) (concat gs)).
Qed.

Lemma elem_of_combine x nonAtomicTxs groups :
  x ∈ combine atomicGroupsFee nonAtomicTxs groups <->
  x ∈ nonAtomicTxs \/ x ∈ concat groups.
Proof. rewrite combine_perm. apply elem_of_app. Qed.

Lemma combine_ofGroup g nonAtomicTxs groups :
  (forall x, x ∈ nonAtomicTxs -> PoolL2Tx.AtomicGroupID x <> g) ->
  ofGroup g (combine atomicGroupsFee nonAtomicTxs groups) = ofGroup g (concat groups).
Proof.
  revert groups. induction nonAtomicTxs as [|tx na IHna]; intros groups Hna.
  - rewrite combine_nil. reflexivity.
  - assert (Htx : PoolL2Tx.AtomicGroupID tx <> g) by (apply Hna; left).
    assert (Hna' : forall x, x ∈ na -> PoolL2Tx.AtomicGroupID x <> g)
      by (intros x Hx; apply Hna; right; exact Hx).
    induction groups as [|gr gs IHgs].
    + rewrite combine_cons_nil. apply filter_none. intros x Hx. apply Hna. exact Hx.
    + rewrite combine_cons_cons. destruct (f64_gtb _ _).
      * unfold ofGroup at 1. rewrite filter_cons_False by exact Htx.
        apply IHna. exact Hna'.
      * cbn [concat]. rewrite !ofGroup_app, IHgs. reflexivity.
Qed.

Lemma combine_nonAtomic nonAtomicTxs groups :
  (forall x, x ∈ concat groups -> isAtomicTx x = true) ->
  filter (fun tx => isAtomicTx tx = false) (combine atomicGroupsFee nonAtomicTxs groups)
  = filter (fun tx => isAtomicTx tx = false) nonAtomicTxs.
Proof.
  revert groups. induction nonAtomicTxs as [|tx na IHna]; intros groups Hg.
  - rewrite combine_nil. apply filter_none. intros x Hx. rewrite (Hg x Hx). discriminate.
  - induction groups as [|gr gs IHgs].
    + rewrite combine_cons_nil. reflexivity.
    + rewrite combine_cons_cons. destruct (f64_gtb _ _).
      * rewrite !filter_cons. rewrite IHna by exact Hg. reflexivity.
      * rewrite filter_app, IHgs.
        -- rewrite (filter_none _ gr); [reflexivity|].
           intros x Hx. rewrite (Hg x); [discriminate|].
           simpl. apply elem_of_app. left. exact Hx.
        -- intros x Hx. apply Hg. simpl. apply elem_of_app. right. exact Hx.
Qed.

Lemma uniformGroup_rank group tx :
  uniformGroup group -> tx ∈ group ->
  isAtomicTx tx = true /\ rankFee atomicGroupsFee tx = groupFee atomicGroupsFee group.
Proof.
  intros (Hne & Hk & Hall) Hin. specialize (Hall tx Hin). split.
  - unfold isAtomicTx. apply bool_decide_eq_true_2. congruence.
  - unfold rankFee, groupFee. rewrite Hall. destruct group; [contradiction|reflexivity].
Qed.

Lemma StronglySorted_all {A} (R : A -> A -> Prop) (l : list A) :
  (forall a b, a ∈ l -> b ∈ l -> R a b) -> StronglySorted R l.
Proof.
  induction l as [|x l IH]; intros Hall; constructor.
  - apply IH. intros a b Ha Hb. apply Hall; right; assumption.
  - apply Forall_forall. intros y Hy. apply Hall; [left|right; exact Hy].
Qed.

Lemma StronglySorted_impl_elem {A} (R R' : A -> A -> Prop) (l : list A) :
  StronglySorted R l -> (forall a b, a ∈ l -> b ∈ l -> R a b -> R' a b) ->
  StronglySorted R' l.
Proof.
  induction 1 as [|x l Hs IH Hx]; intros Himpl; constructor.
  - apply IH. intros a b Ha Hb. apply Himpl; right; assumption.
  - rewrite Forall_forall in *. intros y Hy.
    apply Himpl; [left|right; exact Hy|apply Hx, Hy].
Qed.

Lemma elem_of_concat {A} (x : A) (ls : list (list A)) :
  x ∈ concat ls <-> exists l, l ∈ ls /\ x ∈ l.
Proof.
  induction ls as [|l ls IH]; simpl.
  - split; [intros H; inversion H|intros (l & H & _); inversion H].
  - rewrite elem_of_app, IH. split.
    + intros [H|(l' & H1 & H2)]; [exists l; split; [left|exact H]|].
      exists l'. split; [right; exact H1|exact H2].
    + intros (l' & H1 & H2). apply elem_of_cons in H1 as [->|H1]; [left; exact H2|].
      right. exists l'. auto.
Qed.

Lemma group_sorted group :
  uniformGroup group -> StronglySorted (sortedOrder atomicGroupsFee) group.
Proof.
  intros Hu. apply StronglySorted_all. intros a b Ha Hb.
  destruct (uniformGroup_rank group a Hu Ha) as [Haa Hra].
  destruct (uniformGroup_rank group b Hu Hb) as [Hab Hrb].
  unfold sortedOrder. rewrite Haa, Hab, Hra, Hrb. apply f64_gtb_irrefl.
Qed.

Lemma concat_sorted groups :
  Forall uniformGroup groups -> StronglySorted (groupOrder atomicGroupsFee) groups ->
  StronglySorted (sortedOrder atomicGroupsFee) (concat groups).
Proof.
  intros Hu Hs. induction Hs as [|g gs Hs IH Hg]; [constructor|].
  apply Forall_cons in Hu as [Hug Hu]. simpl.
  apply StronglySorted_app_iff. split; [apply group_sorted, Hug|].
  split; [apply IH, Hu|]. intros a b Ha Hb.
  apply elem_of_concat in Hb as (g' & Hg' & Hb).
  rewrite Forall_forall in Hg, Hu.
  destruct (uniformGroup_rank g a Hug Ha) as [Haa Hra].
  destruct (uniformGroup_rank g' b (Hu g' Hg') Hb) as [Hab Hrb].
  unfold sortedOrder. rewrite Haa, Hab, Hra, Hrb. apply (Hg g' Hg').
Qed.

Lemma nonAtomicOrder_fee a b :
  nonAtomicOrder a b ->
  f64_gtb (PoolL2Tx.AbsoluteFee b) (PoolL2Tx.AbsoluteFee a) = false.
Proof. intros [H|[H _]]; [apply f64_gtb_asym, H|exact H]. Qed.

Lemma combine_sorted nonAtomicTxs groups :
  StronglySorted (sortedOrder atomicGroupsFee) nonAtomicTxs ->
  (forall x, x ∈ nonAtomicTxs -> isAtomicTx x = false) ->
  Forall uniformGroup groups -> StronglySorted (groupOrder atomicGroupsFee) groups ->
  StronglySorted (sortedOrder atomicGroupsFee)
    (combine atomicGroupsFee nonAtomicTxs groups).
Proof.
  revert groups. induction nonAtomicTxs as [|tx na IHna]; intros groups Hsna Hna Hu Hsg.
  - rewrite combine_nil. apply concat_sorted; assumption.
  - assert (Htx : isAtomicTx tx = false) by (apply Hna; left).
    assert (Hna' : forall x, x ∈ na -> isAtomicTx x = false)
      by (intros x Hx; apply Hna; right; exact Hx).
    pose proof (StronglySorted_inv Hsna) as [Hsna' Htxna].
    rewrite Forall_forall in Htxna.
    induction groups as [|g gs IHgs].
    + rewrite combine_cons_nil. exact Hsna.
    + rewrite combine_cons_cons.
      pose proof (StronglySorted_inv Hsg) as [Hsgs Hggs].
      pose proof Hu as Hu0.
      apply Forall_cons in Hu as [Hug Hugs].
      rewrite Forall_forall in Hggs.
      destruct (f64_gtb (PoolL2Tx.AbsoluteFee tx) (groupFee atomicGroupsFee g)) eqn:Hcmp.
      * constructor; [apply IHna; assumption|].
        apply Forall_forall. intros y Hy.
        apply elem_of_combine in Hy as [Hy|Hy]; [apply Htxna, Hy|].
        apply elem_of_concat in Hy as (g' & Hg' & Hy).
        rewrite Forall_forall in Hu0.
        destruct (uniformGroup_rank g' y (Hu0 g' Hg') Hy) as [Hay Hry].
        unfold sortedOrder. rewrite Htx, Hay, Hry.
        apply elem_of_cons in Hg' as [->|Hg']; [exact Hcmp|].
        eapply f64_gtb_eq_r; [exact Hcmp|]. apply (Hggs g' Hg').
      * apply StronglySorted_app_iff. split; [apply group_sorted, Hug|].
        split; [apply IHgs; assumption|].
        intros a b Ha Hb.
        destruct (uniformGroup_rank g a Hug Ha) as [Haa Hra].
        apply elem_of_combine in Hb as [Hb|Hb].
        -- assert (Hab : isAtomicTx b = false) by (apply Hna, Hb).
           unfold sortedOrder. rewrite Haa, Hab, Hra.
           apply elem_of_cons in Hb as [->|Hb]; [exact Hcmp|].
           eapply f64_gtb_false_trans; [|exact Hcmp].
           specialize (Htxna b Hb). unfold sortedOrder in Htxna.
           rewrite Htx, Hab in Htxna. apply nonAtomicOrder_fee, Htxna.
        -- apply elem_of_concat in Hb as (g' & Hg' & Hb).
           rewrite Forall_forall in Hugs.
           destruct (uniformGroup_rank g' b (Hugs g' Hg') Hb) as [Hab Hrb].
           unfold sortedOrder. rewrite Haa, Hab, Hra, Hrb. apply (Hggs g' Hg').
Qed.

End combine_props.

Section sortL2Txs_props.
Context {F64 : Float64} {FO : Float64Order} {SE : SelectorEnv} {SL : SelectorEnvLaws}.

(** C4 (amended).  sortL2Txs keeps every tx; in its result the non atomic
    txs stand by AbsoluteFee descending, then FromIdx ascending, then Nonce
    ascending; a non atomic tx stands before the txs of an atomic group
    exactly when its AbsoluteFee is greater than the fee of the group, so
    that on equal fees the atomic group comes first; the groups stand by
    descending fee; and the txs of one atomic group are in the order in
    which they were given. *)
Theorem sortL2Txs_order (l2Txs : list PoolL2Tx.t)
    (atomicGroupsFee : gmap common.AtomicGroupID float64) :
  let sorted := sortL2Txs l2Txs atomicGroupsFee in
  Permutation sorted l2Txs /\
  StronglySorted (sortedOrder atomicGroupsFee) sorted /\
  (forall g, g <> common.EmptyAtomicGroupID -> ofGroup g sorted = ofGroup g l2Txs).
Proof.
  cbv zeta. unfold sortL2Txs.
  pose proof (separateAtomic_spec l2Txs [] []) as Hsep.
  destruct (separateAtomic l2Txs [] []) as [m na0].
  destruct Hsep as (Hwf & Hna0 & Hperm & Hog).
  { split; constructor. }
  simpl in Hna0, Hperm, Hog.
  set (less := fun gi gj : list PoolL2Tx.t =>
                 f64_gtb (groupFee atomicGroupsFee gi) (groupFee atomicGroupsFee gj)).
  set (groups := sort_SliceStable less (map snd (rangeOrder m))).
  set (na := sort_Slice lessNonAtomic na0).
  destruct (wfGroupsMap_groups m Hwf) as [Hwfg _].
  assert (Hpg : Permutation (map snd m) groups).
  { unfold groups. rewrite sort_SliceStable_perm. apply Permutation_map.
    symmetry. apply rangeOrder_perm. }
  pose proof (wfGroups_perm _ _ Hpg Hwfg) as [Hug Hndg].
  assert (Hpna : Permutation na na0) by apply sort_Slice_perm.
  assert (Hna : forall x, x ∈ na -> isAtomicTx x = false).
  { intros x Hx. rewrite Hpna, Hna0 in Hx.
    apply list_elem_of_filter in Hx as [Hx _]. exact Hx. }
  fold less groups na. split; [|split].
  - rewrite combine_perm, Hpna, <- Hpg, <- Hperm.
    apply Permutation_app_comm.
  - apply combine_sorted; [|exact Hna|exact Hug|].
    + eapply StronglySorted_impl_elem.
      * apply (sort_Slice_sorted lessNonAtomic na0);
          [apply lessNonAtomic_irrefl|apply lessNonAtomic_trans
          |apply lessNonAtomic_cotrans].
      * intros a b Ha Hb Hab. apply lessNonAtomic_false in Hab.
        unfold sortedOrder. fold na in Ha, Hb. rewrite (Hna a Ha), (Hna b Hb). exact Hab.
    + apply (sort_SliceStable_sorted less).
      * intros a. apply f64_gtb_irrefl.
      * intros a b c. apply f64_gtb_trans.
      * intros a b c. apply f64_gtb_cotrans.
  - intros g Hg. rewrite combine_ofGroup.
    + rewrite <- (Hog g Hg). apply ofGroup_concat_perm; [exact Hpg|exact Hwfg].
    + intros x Hx Hgx. specialize (Hna x Hx). unfold isAtomicTx in Hna.
      apply bool_decide_eq_false_1 in Hna. apply Hna. congruence.
Qed.

End sortL2Txs_props.

(** ** Strongly connected components *)

Section graph_props.
Import graph.
Implicit Types (g : Mutable) (v w : nat) (seen : list nat).

Lemma elem_of_flat_map {A B} (f : A -> list B) (l : list A) (y : B) :
  y ∈ flat_map f l <-> exists x, x ∈ l /\ y ∈ f x.
Proof.
  rewrite list_elem_of_In, in_flat_map. split.
  - intros (x & Hx & Hy). exists x. rewrite !list_elem_of_In. auto.
  - intros (x & Hx & Hy). exists x. rewrite <- !list_elem_of_In. auto.
Qed.

Lemma elem_of_fresh seen ws w : w ∈ fresh seen ws <-> w ∈ ws /\ w ∉ seen.
Proof.
  unfold fresh. rewrite elem_of_remove_dups, list_elem_of_filter. tauto.
Qed.

Lemma elem_of_expand_seen g fuel seen x : x ∈ seen -> x ∈ expand g fuel seen.
Proof.
  revert seen. induction fuel as [|fuel IH]; intros seen Hx; simpl; [exact Hx|].
  apply IH, elem_of_app. left. exact Hx.
Qed.

Lemma expand_sound g fuel seen w :
  w ∈ expand g fuel seen -> exists v, v ∈ seen /\ rtc (edge g) v w.
Proof.
  revert seen. induction fuel as [|fuel IH]; intros seen Hw; simpl in Hw.
  - exists w. split; [exact Hw|constructor].
  - apply IH in Hw as (v & Hv & Hrtc).
    apply elem_of_app in Hv as [Hv|Hv]; [eauto|].
    apply elem_of_fresh in Hv as [Hv _].
    apply elem_of_flat_map in Hv as (x & Hx & Hxv).
    exists x. split; [exact Hx|]. eapply rtc_l; [exact Hxv|exact Hrtc].
Qed.

Lemma fresh_nil_closed g seen :
  fresh seen (flat_map (succs g) seen) = [] -> closed g seen.
Proof.
  intros Hnil x y Hx Hxy.
  destruct (decide (y ∈ seen)) as [Hy|Hy]; [exact Hy|exfalso].
  assert (Hin : y ∈ fresh seen (flat_map (succs g) seen)).
  { apply elem_of_fresh. split; [|exact Hy]. apply elem_of_flat_map. eauto. }
  rewrite Hnil in Hin. inversion Hin.
Qed.

Lemma closed_fresh_nil g seen :
  closed g seen -> fresh seen (flat_map (succs g) seen) = [].
Proof.
  intros Hc. destruct (fresh seen (flat_map (succs g) seen)) as [|y l] eqn:Hf;
    [reflexivity|exfalso].
  assert (Hin : y ∈ fresh seen (flat_map (succs g) seen)) by (rewrite Hf; left).
  apply elem_of_fresh in Hin as [Hin Hnin].
  apply elem_of_flat_map in Hin as (x & Hx & Hxy). apply Hnin. eapply Hc; eassumption.
Qed.

Lemma expand_closed g fuel seen : closed g seen -> expand g fuel seen = seen.
Proof.
  intros Hc. induction fuel as [|fuel IH]; simpl; [reflexivity|].
  rewrite (closed_fresh_nil g seen Hc), app_nil_r. exact IH.
Qed.

(** Either the vertices found are closed under the edges, or every round
    found a new one. *)
Lemma expand_closed_or_grows g fuel seen :
  closed g (expand g fuel seen) \/
  (length seen + fuel <= length (expand g fuel seen))%nat.
Proof.
  revert seen. induction fuel as [|fuel IH]; intros seen; simpl.
  - right. lia.
  - destruct (fresh seen (flat_map (succs g) seen)) as [|y l] eqn:Hf.
    + left. rewrite app_nil_r. apply fresh_nil_closed in Hf.
      rewrite expand_closed; assumption.
    + destruct (IH (seen ++ y :: l)) as [Hc|Hlen]; [left; exact Hc|right].
      rewrite length_app in Hlen. simpl in Hlen. lia.
Qed.

Lemma expand_NoDup g fuel seen : NoDup seen -> NoDup (expand g fuel seen).
Proof.
  revert seen. induction fuel as [|fuel IH]; intros seen Hnd; simpl; [exact Hnd|].
  apply IH. apply NoDup_app. split; [exact Hnd|]. split.
  - intros x Hx Hx'. apply elem_of_fresh in Hx' as [_ Hx']. contradiction.
  - unfold fresh. apply NoDup_remove_dups.
Qed.

Lemma expand_inside g fuel seen :
  edgesInside g -> (forall x, x ∈ seen -> (x < Order g)%nat) ->
  forall x, x ∈ expand g fuel seen -> (x < Order g)%nat.
Proof.
  intros Hwf Hseen x Hx. apply expand_sound in Hx as (v & Hv & Hrtc).
  specialize (Hseen v Hv). clear Hv. induction Hrtc as [|a b c Hab _ IH]; [exact Hseen|].
  apply IH. eapply Hwf. exact Hab.
Qed.

Lemma reach_closed g v : edgesInside g -> (v < Order g)%nat -> closed g (reach g v).
Proof.
  intros Hwf Hv. unfold reach.
  destruct (expand_closed_or_grows g (Order g) [v]) as [Hc|Hlen]; [exact Hc|exfalso].
  assert (Hle : (length (expand g (Order g) [v]) <= length (seq 0 (Order g)))%nat).
  { apply submseteq_length, NoDup_submseteq.
    - apply expand_NoDup, NoDup_singleton.
    - intros x Hx. apply elem_of_seq. split; [lia|]. simpl.
      eapply expand_inside; [exact Hwf| |exact Hx].
      intros y Hy. apply list_elem_of_singleton in Hy as ->. exact Hv. }
  rewrite length_seq in Hle. simpl in Hlen. lia.
Qed.

(** [reaches] decides the reflexive transitive closure of the edges. *)
Lemma reaches_spec g v w :
  edgesInside g -> (v < Order g)%nat -> reaches g v w = true <-> rtc (edge g) v w.
Proof.
  intros Hwf Hv. unfold reaches. rewrite bool_decide_eq_true. split.
  - intros Hw. apply expand_sound in Hw as (x & Hx & Hrtc).
    apply list_elem_of_singleton in Hx as ->. exact Hrtc.
  - intros Hrtc.
    assert (Hin : v ∈ reach g v) by (apply elem_of_expand_seen; left).
    pose proof (reach_closed g v Hwf Hv) as Hc.
    generalize dependent (reach g v). intros S Hin Hc. clear Hv.
    induction Hrtc as [|a b c Hab _ IH]; [exact Hin|].
    apply IH. eapply Hc; eassumption.
Qed.

Lemma elem_of_component g v w :
  w ∈ component g v <->
  (w < Order g)%nat /\ reaches g v w = true /\ reaches g w v = true.
Proof.
  unfold component. rewrite list_elem_of_filter, elem_of_seq.
  rewrite andb_True, !Is_true_true. split; intros; intuition lia.
Qed.

Lemma components_nil g vs assigned :
  components g vs assigned = [] <-> forall v, v ∈ vs -> v ∈ assigned.
Proof.
  revert assigned. induction vs as [|v vs IH]; intros assigned; simpl.
  - split; [intros _ v Hv; inversion Hv|reflexivity].
  - case_bool_decide as Hv.
    + rewrite IH. split.
      * intros Hall x Hx. apply elem_of_cons in Hx as [->|Hx]; auto.
      * intros Hall x Hx. apply Hall. right. exact Hx.
    + split; [discriminate|]. intros Hall. exfalso. apply Hv, Hall. left.
Qed.

(** There is one component exactly when the graph has a vertex and every
    vertex is in the component of vertex 0. *)
Lemma StrongComponents_one g :
  length (StrongComponents g) = 1%nat <->
  (0 < Order g)%nat /\ forall v, (v < Order g)%nat -> v ∈ component g 0.
Proof.
  unfold StrongComponents. destruct (Order g) as [|n] eqn:Hn.
  - simpl. split; [discriminate|lia].
  - cbn [seq components]. rewrite bool_decide_eq_false_2 by (intros H; inversion H).
    cbn [length]. rewrite app_nil_r. split.
    + intros Hlen. split; [lia|]. intros v Hv.
      assert (Hnil : components g (seq 1 n) (component g 0) = [])
        by (apply length_zero_iff_nil; lia).
      destruct v as [|v].
      * apply elem_of_component. rewrite Hn. split; [lia|].
        assert (H0 : reaches g 0 0 = true).
        { unfold reaches. apply bool_decide_eq_true_2, elem_of_expand_seen. left. }
        auto.
      * apply (proj1 (components_nil g _ _) Hnil). apply elem_of_seq. lia.
    + intros [_ Hall]. f_equal. apply length_zero_iff_nil, components_nil.
      intros v Hv. apply elem_of_seq in Hv. apply Hall. lia.
Qed.

(** [StrongComponents] returns a single component exactly when the graph is
    not empty and every vertex can be reached from every vertex. *)
Lemma StrongComponents_single g :
  edgesInside g ->
  length (StrongComponents g) = 1%nat <->
  (0 < Order g)%nat /\
  forall v w, (v < Order g)%nat -> (w < Order g)%nat -> rtc (edge g) v w.
Proof.
  intros Hwf. rewrite StrongComponents_one. split; intros [Hpos Hall]; (split; [exact Hpos|]).
  - intros v w Hv Hw.
    pose proof (Hall v Hv) as Hcv. pose proof (Hall w Hw) as Hcw.
    apply elem_of_component in Hcv as (_ & _ & Hv0).
    apply elem_of_component in Hcw as (_ & H0w & _).
    apply reaches_spec in Hv0; [|exact Hwf|exact Hv].
    apply reaches_spec in H0w; [|exact Hwf|exact Hpos].
    eapply rtc_trans; eassumption.
  - intros v Hv. apply elem_of_component. split; [exact Hv|].
    split; (apply reaches_spec; [exact Hwf| |apply Hall]); assumption.
Qed.

End graph_props.

(** ** Atomic group detection *)

Section atomic_detection.
Context {F64 : Float64}.
Implicit Types (txs : list PoolL2Tx.t) (id : common.TxID).

Lemma idToPos_from_lookup (i : nat) txs (m : gmap common.TxID nat) id :
  idToPos_from i txs m !! id
  = match lastPos id txs with
    | Some k => Some (i + k)%nat
    | None => m !! id
    end.
Proof.
  revert i m. induction txs as [|tx rest IH]; intros i m; simpl; [reflexivity|].
  rewrite IH. destruct (lastPos id rest) as [k|].
  - f_equal. lia.
  - case_bool_decide as Hid.
    + subst id. rewrite lookup_insert_eq. f_equal. lia.
    + rewrite lookup_insert_ne by exact Hid. reflexivity.
Qed.

Lemma lastPos_None id txs :
  lastPos id txs = None <-> forall tx, tx ∈ txs -> PoolL2Tx.TxID tx <> id.
Proof.
  induction txs as [|tx rest IH]; simpl.
  - split; [intros _ tx H; inversion H|reflexivity].
  - destruct (lastPos id rest) as [k|].
    + split; [discriminate|]. intros Hall. exfalso.
      assert (Hn : Some k = None) by (apply IH; intros y Hy; apply Hall; right; exact Hy).
      discriminate.
    + case_bool_decide as Hid.
      * split; [discriminate|]. intros Hall. exfalso. apply (Hall tx); [left|exact Hid].
      * split; [|reflexivity]. intros _ y Hy.
        apply elem_of_cons in Hy as [->|Hy]; [exact Hid|].
        apply (proj1 IH eq_refl). exact Hy.
Qed.

Lemma lastPos_Some id txs j : lastPos id txs = Some j <-> names txs id j.
Proof.
  revert j. induction txs as [|tx rest IH]; intros j; simpl.
  - split; [discriminate|]. intros [(tx & H & _) _]. discriminate.
  - destruct (lastPos id rest) as [k|] eqn:Hl.
    + split.
      * intros [= <-]. destruct (proj1 (IH k) eq_refl) as [(tx0 & Hk & Hid) Hlast].
        split; [exists tx0; auto|].
        intros k' tx' Hlt Hk'. destruct k' as [|k']; [lia|].
        apply (Hlast k' tx'); [lia|exact Hk'].
      * intros [(tx0 & Hj & Hid) Hlast]. destruct j as [|j].
        -- exfalso. destruct (proj1 (IH k) eq_refl) as [(tx1 & Hk & Hid1) _].
           apply (Hlast (S k) tx1); [lia|exact Hk|exact Hid1].
        -- f_equal. f_equal. symmetry.
           assert (Hn : Some k = Some j); [|congruence].
           apply IH. split; [exists tx0; auto|].
           intros k' tx' Hlt Hk'. apply (Hlast (S k') tx'); [lia|exact Hk'].
    + pose proof (proj1 (lastPos_None id rest) Hl) as Hnone.
      case_bool_decide as Hid.
      * split.
        -- intros [= <-]. split; [exists tx; auto|].
           intros k' tx' Hlt Hk'. destruct k' as [|k']; [lia|].
           apply Hnone. eapply list_elem_of_lookup_2. exact Hk'.
        -- intros [(tx0 & Hj & Hid0) _]. destruct j as [|j]; [reflexivity|].
           exfalso. apply (Hnone tx0); [|exact Hid0].
           eapply list_elem_of_lookup_2. exact Hj.
      * split; [discriminate|].
        intros [(tx0 & Hj & Hid0) _]. destruct j as [|j].
        -- simpl in Hj. congruence.
        -- exfalso. apply (Hnone tx0); [|exact Hid0].
           eapply list_elem_of_lookup_2. exact Hj.
Qed.

Lemma idToPos_Some txs id j : idToPos txs !! id = Some j <-> names txs id j.
Proof.
  unfold idToPos. rewrite idToPos_from_lookup, <- lastPos_Some.
  destruct (lastPos id txs); simpl; [reflexivity|].
  rewrite lookup_empty. reflexivity.
Qed.

Lemma idToPos_None txs id :
  idToPos txs !! id = None <-> forall tx, tx ∈ txs -> PoolL2Tx.TxID tx <> id.
Proof.
  unfold idToPos. rewrite idToPos_from_lookup, <- lastPos_None.
  destruct (lastPos id txs); simpl; [split; discriminate|].
  rewrite lookup_empty. tauto.
Qed.

Lemma names_lt txs id j : names txs id j -> (j < length txs)%nat.
Proof. intros [(tx & Hj & _) _]. eapply lookup_lt_Some. exact Hj. Qed.

(** *** The graph built by the second loop *)

Lemma succs_Add (g : graph.Mutable) v w v' :
  graph.succs (graph.Add g v w) v'
  = if bool_decide (v' = v /\ (v < length g)%nat)
    then w :: graph.succs g v else graph.succs g v'.
Proof.
  unfold graph.succs, graph.Add, graph.Mutable in *. case_bool_decide as Hv.
  - destruct Hv as [-> Hlt]. rewrite list_lookup_alter_eq.
    destruct (lookup_lt_is_Some_2 g v Hlt) as [l Hl]. rewrite Hl. reflexivity.
  - destruct (decide (v' = v)) as [->|Hne].
    + rewrite list_lookup_alter_eq.
      assert (Hge : (length g <= v)%nat) by (destruct (decide (v < length g)%nat); [tauto|lia]).
      rewrite (lookup_ge_None_2 g v Hge). reflexivity.
    + rewrite list_lookup_alter_ne by congruence. reflexivity.
Qed.

Lemma Order_Add (g : graph.Mutable) v w : graph.Order (graph.Add g v w) = graph.Order g.
Proof. unfold graph.Order, graph.Add, graph.Mutable in *. apply length_alter. Qed.

Lemma addEdges_None (m : gmap common.TxID nat) (i : nat) txs g :
  addEdges m i txs g = None <->
  exists tx, tx ∈ txs /\
    (PoolL2Tx.RqTxID tx = common.EmptyTxID \/ m !! PoolL2Tx.RqTxID tx = None).
Proof.
  revert i g. induction txs as [|tx rest IH]; intros i g; simpl.
  - split; [discriminate|]. intros (tx & H & _). inversion H.
  - case_bool_decide as He.
    + split; [|reflexivity]. intros _. exists tx. split; [left|auto].
    + destruct (m !! PoolL2Tx.RqTxID tx) as [j|] eqn:Hm.
      * rewrite IH. split.
        -- intros (tx' & Hin & H). exists tx'. split; [right; exact Hin|exact H].
        -- intros (tx' & Hin & H). apply elem_of_cons in Hin as [->|Hin].
           ++ destruct H as [H|H]; congruence.
           ++ exists tx'. auto.
      * split; [|reflexivity]. intros _. exists tx. split; [left|auto].
Qed.

Lemma addEdges_Some (m : gmap common.TxID nat) (i : nat) txs g g' :
  addEdges m i txs g = Some g' ->
  graph.Order g' = graph.Order g /\
  forall v w, w ∈ graph.succs g' v <->
    w ∈ graph.succs g v \/
    ((v < graph.Order g)%nat /\ (i <= v)%nat /\
     exists tx, txs !! (v - i)%nat = Some tx /\ m !! PoolL2Tx.RqTxID tx = Some w).
Proof.
  revert i g. induction txs as [|tx rest IH]; intros i g; simpl.
  - intros [= <-]. split; [reflexivity|]. intros v w. split; [auto|].
    intros [H|(_ & _ & tx & H & _)]; [exact H|discriminate].
  - case_bool_decide as He; [discriminate|].
    destruct (m !! PoolL2Tx.RqTxID tx) as [j|] eqn:Hm; [|discriminate].
    intros Hadd. apply IH in Hadd as [Hord Hsucc].
    rewrite Order_Add in Hord. split; [exact Hord|].
    intros v w. rewrite Hsucc, succs_Add, Order_Add. unfold graph.Order.
    case_bool_decide as Hv.
    + destruct Hv as [-> Hlt]. rewrite elem_of_cons. split.
      * intros [[->|H]|(Hlt' & Hle & _)]; [|auto|lia].
        right. split; [exact Hlt|]. split; [lia|].
        exists tx. rewrite Nat.sub_diag. auto.
      * intros [H|(_ & _ & tx' & Htx' & Hm')]; [auto|].
        rewrite Nat.sub_diag in Htx'. simpl in Htx'. injection Htx' as <-.
        left. left. congruence.
    + split.
      * intros [H|(Hlt & Hle & tx' & Htx' & Hm')]; [auto|].
        right. split; [exact Hlt|]. split; [lia|]. exists tx'. split; [|exact Hm'].
        replace (v - i)%nat with (S (v - S i)) by lia. exact Htx'.
      * intros [H|(Hlt & Hle & tx' & Htx' & Hm')]; [auto|].
        destruct (decide (v = i)) as [->|Hne]; [tauto|].
        right. split; [exact Hlt|]. split; [lia|]. exists tx'. split; [|exact Hm'].
        replace (v - i)%nat with (S (v - S i)) in Htx' by lia. exact Htx'.
Qed.

Lemma succs_New n v : graph.succs (graph.New n) v = [].
Proof.
  unfold graph.succs.
  destruct (graph.New n !! v) as [l|] eqn:Hl; [|reflexivity].
  unfold graph.New in Hl.
  apply list_elem_of_lookup_2, list_elem_of_In, repeat_spec in Hl. subst l. reflexivity.
Qed.

Lemma Order_New n : graph.Order (graph.New n) = n.
Proof. apply repeat_length. Qed.

(** The edges of the graph are the requests. *)
Lemma requestGraph_edges txs g :
  addEdges (idToPos txs) 0 txs (graph.New (length txs)) = Some g ->
  graph.Order g = length txs /\ edgesInside g /\
  forall v w, edge g v w <-> requests txs v w.
Proof.
  intros Hadd. apply addEdges_Some in Hadd as [Hord Hsucc].
  rewrite Order_New in Hord, Hsucc.
  assert (Hedge : forall v w, edge g v w <-> requests txs v w).
  { intros v w. unfold edge. rewrite Hsucc, succs_New, Nat.sub_0_r. split.
    - intros [H|(_ & _ & tx & Hv & Hm)]; [inversion H|].
      exists tx. split; [exact Hv|]. apply idToPos_Some. exact Hm.
    - intros (tx & Hv & Hn). right. split; [eapply lookup_lt_Some; exact Hv|].
      split; [lia|]. exists tx. split; [exact Hv|]. apply idToPos_Some. exact Hn. }
  split; [exact Hord|]. split; [|exact Hedge].
  intros v w Hvw. apply Hedge in Hvw as (tx & _ & Hn). rewrite Hord.
  eapply names_lt. exact Hn.
Qed.

Lemma rtc_iff {A} (R R' : relation A) x y :
  (forall a b, R a b <-> R' a b) -> rtc R x y <-> rtc R' x y.
Proof.
  intros Hiff. split; induction 1 as [|a b c Hab _ IH]; try constructor;
    (eapply rtc_l; [apply Hiff, Hab|exact IH]).
Qed.

(** C2.  isSingleAtomicGroup returns true exactly when every tx requests a
    tx of the payload (its RqTxID is not empty and is the TxID of a tx of
    the payload) and the graph of the requests is a single strongly
    connected component covering all the txs; in particular it returns
    false as soon as one RqTxID is empty or matches no tx of the payload. *)
Theorem isSingleAtomicGroup_spec txs :
  (isSingleAtomicGroup txs = true <-> requestsInside txs /\ singleComponent txs) /\
  ((exists tx, tx ∈ txs /\
      (PoolL2Tx.RqTxID tx = common.EmptyTxID \/
       forall tx', tx' ∈ txs -> PoolL2Tx.TxID tx' <> PoolL2Tx.RqTxID tx)) ->
   isSingleAtomicGroup txs = false).
Proof.
  assert (Hnone : addEdges (idToPos txs) 0 txs (graph.New (length txs)) = None ->
                  ~ requestsInside txs).
  { intros Hadd Hall. apply addEdges_None in Hadd as (tx & Htx & Hbad).
    destruct (Hall tx Htx) as [Hne (tx' & Htx' & Hid)].
    destruct Hbad as [Hbad|Hbad]; [contradiction|].
    apply (proj1 (idToPos_None _ _) Hbad tx' Htx' Hid). }
  assert (Hsome : forall g,
            addEdges (idToPos txs) 0 txs (graph.New (length txs)) = Some g ->
            requestsInside txs).
  { intros g Hadd tx Htx.
    assert (Hgood : ~ (PoolL2Tx.RqTxID tx = common.EmptyTxID \/
                       idToPos txs !! PoolL2Tx.RqTxID tx = None)).
    { intros Hbad.
      assert (Hn : addEdges (idToPos txs) 0 txs (graph.New (length txs)) = None)
        by (apply addEdges_None; eauto).
      congruence. }
    split; [tauto|].
    destruct (idToPos txs !! PoolL2Tx.RqTxID tx) as [j|] eqn:Hm; [|tauto].
    apply idToPos_Some in Hm as [(tx' & Hj & Hid) _].
    exists tx'. split; [eapply list_elem_of_lookup_2; exact Hj|exact Hid]. }
  assert (Hmain : isSingleAtomicGroup txs = true <->
                  requestsInside txs /\ singleComponent txs).
  { unfold isSingleAtomicGroup.
    destruct (addEdges (idToPos txs) 0 txs (graph.New (length txs))) as [g|] eqn:Hadd.
    - pose proof (Hsome g eq_refl) as Hri.
      destruct (requestGraph_edges txs g Hadd) as (Hord & Hwf & Hedge).
      rewrite bool_decide_eq_true, (StrongComponents_single g Hwf), Hord.
      unfold singleComponent. split.
      + intros [Hpos Hall]. split; [exact Hri|]. split.
        * intros ->. simpl in Hpos. lia.
        * intros i j Hi Hj. apply (rtc_iff _ _ _ _ Hedge). apply Hall; assumption.
      + intros [_ [Hne Hall]]. split.
        * destruct txs; [contradiction|simpl; lia].
        * intros v w Hv Hw. apply (rtc_iff _ _ _ _ Hedge). apply Hall; assumption.
    - split; [discriminate|]. intros [Hri _]. exfalso.
      apply (Hnone eq_refl). exact Hri. }
  split; [exact Hmain|].
  intros (tx & Htx & Hbad).
  apply not_true_is_false. intros Hs.
  apply Hmain in Hs as [Hri _]. destruct (Hri tx Htx) as [Hne (tx' & Htx' & Hid)].
  destruct Hbad as [Hbad|Hbad]; [contradiction|]. exact (Hbad tx' Htx' Hid).
Qed.

End atomic_detection.

(** ** The selection *)

Section selection_props.
Context {F64 : Float64} {CC : common.Consts} {SDB : StateDBOps} {SE : SelectorEnv}.

Lemma computeEffectiveAmounts_twice tp tp' tx :
  computeEffectiveAmounts tp' (computeEffectiveAmounts tp tx)
  = computeEffectiveAmounts tp' tx.
Proof. reflexivity. Qed.

Lemma processedFrom_trans a b c : processedFrom a b -> processedFrom b c -> processedFrom a c.
Proof.
  intros [tp ->] [tp' ->]. exists tp'. apply computeEffectiveAmounts_twice.
Qed.

Lemma processedFrom_fields inp out :
  processedFrom inp out ->
  L1Tx.set_Effective None None out = L1Tx.set_Effective None None inp.
Proof. intros [tp ->]. apply computeEffectiveAmounts_fields. Qed.

Lemma processL1UserTxs_processed tp l1UserTxs tp' l1UserTxs' :
  processL1UserTxs tp l1UserTxs = Ok (tp', l1UserTxs') ->
  Forall2 processedFrom l1UserTxs l1UserTxs'.
Proof.
  revert tp tp' l1UserTxs'. induction l1UserTxs as [|tx rest IH]; intros tp tp' l'; simpl.
  - intros [= <- <-]. constructor.
  - unfold ProcessL1Tx at 1.
    destruct (applyL1Tx tp (computeEffectiveAmounts tp tx)) as [tp1| |]; simpl;
      try discriminate.
    destruct (processL1UserTxs tp1 rest) as [[tp2 rest']| |] eqn:Hrest; simpl;
      try discriminate.
    intros [= <- <-]. constructor; [exists tp; reflexivity|]. eapply IH. exact Hrest.
Qed.

Lemma Forall2_processedFrom_trans l1 l2 l3 :
  Forall2 processedFrom l1 l2 -> Forall2 processedFrom l2 l3 ->
  Forall2 processedFrom l1 l3.
Proof.
  intros H12. revert l3. induction H12 as [|a b l1 l2 Hab _ IH]; intros l3 H23.
  - inversion H23. constructor.
  - inversion H23 as [|? c ? l3' Hbc H23']; subst. constructor.
    + eapply processedFrom_trans; eassumption.
    + apply IH. exact H23'.
Qed.

Section loop_props.
Variable verifyTxs : verifyTxs_t.
Variable selectionConfig : Config.t.
Variable l1UserFutureTxs : list L1Tx.t.
Variable coord : CoordAccount.
Variable l1UserTxs : list L1Tx.t.
Variable restart : gmap common.AtomicGroupID failedAtomicGroup -> TxProcessor -> run.
Variable failedAtomicGroups : gmap common.AtomicGroupID failedAtomicGroup.

(** What holds of the l1UserTxs of the attempt holds of those returned,
    provided it holds of those returned after a restart. *)
Lemma selectLoop_l1UserTxs (Q : list L1Tx.t -> Prop) fuel st sel :
  Q l1UserTxs ->
  (forall failed tp sel', restart failed tp = Returns (Ok sel') ->
                          Q (sel_l1UserTxs sel')) ->
  selectLoop verifyTxs selectionConfig l1UserFutureTxs coord l1UserTxs restart
    failedAtomicGroups fuel st = Returns (Ok sel) ->
  Q (sel_l1UserTxs sel).
Proof.
  intros HQ Hrestart. revert st. induction fuel as [|fuel IH]; intros st; simpl;
    [discriminate|].
  destruct (pending st) as [|s rest]; [discriminate|].
  destruct (ev s); repeat case_match; try discriminate; try (apply IH).
  - apply Hrestart.
  - intros [= <-]. exact HQ.
Qed.
End loop_props.

(** C10 (amended).  When GetL1L2TxSelection returns without error, the
    l1UserTxs it returns are those passed as input, as many and in the same
    order, each as the processor left it: with EffectiveAmount and
    EffectiveDepositAmount computed and every other field unchanged;
    whatever the verifier sends, however many L2 txs are selected or
    discarded. *)
Theorem GetL1L2TxSelection_l1UserTxs (verifyTxs : verifyTxs_t) (attempts fuel : nat)
    (txsel : TxSelector) (selectionConfig : Config.t)
    (l1UserTxs l1UserFutureTxs : list L1Tx.t) (sel : selection) :
  GetL1L2TxSelection verifyTxs attempts fuel txsel selectionConfig
    l1UserTxs l1UserFutureTxs = Returns (Ok sel) ->
  length (sel_l1UserTxs sel) = length l1UserTxs /\
  Forall2 (fun inp out =>
             processedFrom inp out /\
             L1Tx.set_Effective None None out = L1Tx.set_Effective None None inp)
    l1UserTxs (sel_l1UserTxs sel).
Proof.
  unfold GetL1L2TxSelection, getL1L2TxSelection.
  generalize (∅ : gmap common.AtomicGroupID failedAtomicGroup) as failed.
  generalize (localAccountsDB txsel) as tp.
  intros tp failed Hrun.
  assert (H : Forall2 processedFrom l1UserTxs (sel_l1UserTxs sel)).
  { revert l1UserTxs failed tp sel Hrun.
    induction attempts as [|attempts IH]; intros l1 failed tp sel; simpl; [discriminate|].
    destruct (processL1UserTxs (clearAccumulatedFees tp) l1) as [[tp1 l1']| |] eqn:Hl1;
      try discriminate.
    pose proof (processL1UserTxs_processed _ _ _ _ Hl1) as Hproc.
    destruct (GetPendingTxs (l2db txsel)) as [l2TxsFromDB| |]; try discriminate.
    destruct (filterFailedAtomicGroups l2TxsFromDB failed) as [tmp discarded].
    destruct (filterInvalidAtomicGroups tmp) as [selectable discarded'].
    destruct (length selectable =? 0)%nat.
    - destruct (MakeCheckpoint tp1); try discriminate. intros [= <-]. exact Hproc.
    - apply selectLoop_l1UserTxs; [exact Hproc|].
      intros failed' tp' sel' Hre. eapply Forall2_processedFrom_trans; [exact Hproc|].
      eapply IH. exact Hre. }
  split.
  - symmetry. eapply Forall2_length. exact H.
  - eapply Forall2_impl; [exact H|]. intros inp out Hp.
    split; [exact Hp|apply processedFrom_fields, Hp].
Qed.

End selection_props.

(** ** Capacity *)

Section capacity.
Context {F64 : Float64} {CC : common.Consts} {SDB : StateDBOps} {SE : SelectorEnv}.

Lemma canAddL2Tx_after_L1 nL1Txs nL2Txs selectionConfig :
  canAddL2TxThatNeedsNewCoordL1Tx nL1Txs nL2Txs selectionConfig = true ->
  canAddL2Tx (nL1Txs + 1) nL2Txs selectionConfig = true.
Proof.
  unfold canAddL2TxThatNeedsNewCoordL1Tx, canAddL2Tx.
  rewrite andb_true_iff, !Z.ltb_lt. lia.
Qed.

Lemma processL1UserTxs_length tp l1UserTxs tp' l1UserTxs' :
  processL1UserTxs tp l1UserTxs = Ok (tp', l1UserTxs') ->
  length l1UserTxs' = length l1UserTxs.
Proof.
  intros H. symmetry. eapply Forall2_length, processL1UserTxs_processed. exact H.
Qed.

Section loop_capacity.
Variable verifyTxs : verifyTxs_t.
Hypothesis verifyTxs_gated : gatedVerifier verifyTxs.
Variable selectionConfig : Config.t.
Variable l1UserFutureTxs : list L1Tx.t.
Variable coord : CoordAccount.
Variable l1UserTxs : list L1Tx.t.
Variable restart : gmap common.AtomicGroupID failedAtomicGroup -> TxProcessor -> run.
Variable failedAtomicGroups : gmap common.AtomicGroupID failedAtomicGroup.

Lemma selectLoop_capacity fuel st sel :
  (forall failed tp sel', restart failed tp = Returns (Ok sel') ->
                          withinCapacity selectionConfig sel') ->
  loopFits selectionConfig l1UserTxs st ->
  selectLoop verifyTxs selectionConfig l1UserFutureTxs coord l1UserTxs restart
    failedAtomicGroups fuel st = Returns (Ok sel) ->
  withinCapacity selectionConfig sel.
Proof using verifyTxs_gated.
  intros Hrestart. revert st. induction fuel as [|fuel IH]; intros st; simpl;
    [discriminate|].
  unfold loopFits. destruct (pending st) as [|s rest]; [discriminate|].
  cbn [gated]. intros (H1 & H2 & Hg).
  destruct (ev s) eqn:Hev.
  - (* TxL1ToBeProcessed *)
    destruct Hg as [Hcan Hg].
    destruct (ProcessL1Tx (effect s (tp_ st)) tx) as [[tp' tx']| |]; try discriminate.
    apply IH. unfold loopFits. cbn [l1CoordinatorTxs selectedTxs pending].
    unfold canAddL2TxThatNeedsNewCoordL1Tx in Hcan.
    apply andb_true_iff in Hcan as [Hc1 Hc2]. apply Z.ltb_lt in Hc1, Hc2.
    rewrite length_app. cbn [length].
    replace (Z.of_nat (length l1UserTxs + (length (l1CoordinatorTxs st) + 1)))
      with (Z.of_nat (length l1UserTxs + length (l1CoordinatorTxs st)) + 1) by lia.
    repeat split; [lia|lia|exact Hg].
  - (* NonSelectedL2Tx *)
    apply IH. unfold loopFits. cbn [l1CoordinatorTxs selectedTxs pending]. auto.
  - (* SelectedL2Tx *)
    destruct Hg as [Hcan Hg].
    destruct (GetAccount (effect s (tp_ st)) (PoolL2Tx.FromIdx tx)) as [acc| |];
      try discriminate.
    destruct (getCoordIdx coord (effect s (tp_ st)) (Account.TokenID acc)) as [idx| |];
      try discriminate.
    unfold canAddL2Tx in Hcan. apply Z.ltb_lt in Hcan.
    destruct (coordIdxsMap st !! Account.TokenID acc);
      apply IH; unfold loopFits; cbn [l1CoordinatorTxs selectedTxs pending];
      rewrite length_app; cbn [length];
      replace (Z.of_nat (length (selectedTxs st) + 1))
        with (Z.of_nat (length (selectedTxs st)) + 1) by lia;
      (repeat split; [lia|lia|exact Hg]).
  - (* UnforjableL2Tx *)
    apply IH. unfold loopFits. cbn [l1CoordinatorTxs selectedTxs pending]. auto.
  - (* AccAuth *)
    apply IH. unfold loopFits. cbn [l1CoordinatorTxs selectedTxs pending]. auto.
  - (* FailedAG *)
    destruct (Reset _ _ _); try discriminate. apply Hrestart.
  - (* VerifierErr *)
    discriminate.
  - (* VerificationEnded *)
    subst rest. destruct (length (iteSelectedTxs st) =? 0)%nat.
    + destruct (distributeFees _ _); try discriminate.
      destruct (MakeCheckpoint _); try discriminate.
      intros [= <-]. unfold withinCapacity. cbn [sel_l1UserTxs sel_l1CoordinatorTxs sel_l2Txs].
      split; [exact H1|]. rewrite Nat2Z.inj_add. exact H2.
    + apply IH. unfold loopFits. cbn [l1CoordinatorTxs selectedTxs pending app].
      repeat split; [exact H1|exact H2|]. apply verifyTxs_gated.
Qed.
End loop_capacity.

(** The two bounds hold of the selection returned for l1UserTxs that fit,
    with a verifier that respects the gates. *)
Lemma getL1L2TxSelection_capacity (verifyTxs : verifyTxs_t) (attempts fuel : nat)
    (txsel : TxSelector) (selectionConfig : Config.t)
    (l1UserTxs l1UserFutureTxs : list L1Tx.t) (sel : selection) :
  gatedVerifier verifyTxs ->
  Z.of_nat (length l1UserTxs) <= Config.MaxL1Tx selectionConfig ->
  Z.of_nat (length l1UserTxs) <= Config.MaxTx selectionConfig ->
  getL1L2TxSelection verifyTxs attempts fuel txsel selectionConfig
    l1UserTxs l1UserFutureTxs = Returns (Ok sel) ->
  withinCapacity selectionConfig sel.
Proof.
  intros Hgated. unfold getL1L2TxSelection.
  generalize (∅ : gmap common.AtomicGroupID failedAtomicGroup) as failed.
  generalize (localAccountsDB txsel) as tp.
  revert l1UserTxs sel.
  induction attempts as [|attempts IH]; intros l1 sel tp failed HL1 HTx; simpl;
    [discriminate|].
  destruct (processL1UserTxs (clearAccumulatedFees tp) l1) as [[tp1 l1']| |] eqn:Hl1;
    try discriminate.
  pose proof (processL1UserTxs_length _ _ _ _ Hl1) as Hlen.
  destruct (GetPendingTxs (l2db txsel)) as [l2TxsFromDB| |]; try discriminate.
  destruct (filterFailedAtomicGroups l2TxsFromDB failed) as [tmp discarded].
  destruct (filterInvalidAtomicGroups tmp) as [selectable discarded'].
  destruct (length selectable =? 0)%nat.
  - destruct (MakeCheckpoint tp1); try discriminate. intros [= <-].
    unfold withinCapacity. simpl. rewrite Hlen, !Nat.add_0_r. auto.
  - apply (selectLoop_capacity verifyTxs Hgated).
    + intros failed' tp' sel' Hre. eapply IH; [| |exact Hre]; rewrite Hlen; assumption.
    + unfold loopFits. cbn [l1CoordinatorTxs selectedTxs pending length].
      rewrite !Nat.add_0_r. split; [rewrite Hlen; exact HL1|].
      split; [rewrite Hlen; simpl; lia|]. apply Hgated.
Qed.

Context {VE : VerifierEnv}.

Lemma gated_app_L1 selectionConfig tp nL1Txs nL2Txs newL1CoordTxs rest :
  let '(sent, tp', nL1Txs', ok) :=
    addL1CoordTxs selectionConfig tp nL1Txs nL2Txs newL1CoordTxs in
  (canAddL2Tx nL1Txs nL2Txs selectionConfig = true ->
   canAddL2Tx nL1Txs' nL2Txs selectionConfig = true) /\
  (gated selectionConfig nL1Txs' nL2Txs rest ->
   gated selectionConfig nL1Txs nL2Txs (sent ++ rest)).
Proof.
  revert tp nL1Txs. induction newL1CoordTxs as [|l1Tx l1s IH]; intros tp nL1Txs; simpl.
  - auto.
  - destruct (canAddL2TxThatNeedsNewCoordL1Tx nL1Txs nL2Txs selectionConfig) eqn:Hcan;
      [|simpl; auto].
    destruct (ProcessL1Tx tp l1Tx) as [[tp' tx']| |].
    + specialize (IH tp' (nL1Txs + 1)).
      destruct (addL1CoordTxs selectionConfig tp' (nL1Txs + 1) nL2Txs l1s)
        as [[[sent tp''] n] ok].
      destruct IH as [IH1 IH2]. split.
      * intros _. apply IH1, canAddL2Tx_after_L1, Hcan.
      * intros Hg. simpl. split; [exact Hcan|apply IH2, Hg].
    + split; [intros _; apply canAddL2Tx_after_L1, Hcan|].
      intros Hg. simpl. split; [exact Hcan|exact Hg].
    + split; [intros _; apply canAddL2Tx_after_L1, Hcan|].
      intros Hg. simpl. split; [exact Hcan|exact Hg].
Qed.

Lemma gated_app_AccAuth selectionConfig nL1Txs nL2Txs (usedAccAuths : list (list Z)) rest :
  gated selectionConfig nL1Txs nL2Txs rest ->
  gated selectionConfig nL1Txs nL2Txs
    (map (fun a => send (AccAuth a)) usedAccAuths ++ rest).
Proof. induction usedAccAuths; simpl; auto. Qed.

(** The verifier respects the capacity gates. *)
Lemma verifyPass_gated : gatedVerifier verifyTxs.
Proof.
  intros cfg fut coord tp l2Txs. unfold verifyTxs.
  revert tp. induction l2Txs as [|tx rest IH]; intros tp nL1 nL2; [simpl; auto|].
  cbn [verifyPass].
  assert (Hdiscard : forall why tp' n,
    gated cfg n nL2
      (if isAtomicTx tx
       then [send (FailedAG (mkFailedAtomicGroup (PoolL2Tx.AtomicGroupID tx)
                               (PoolL2Tx.TxID tx) why))]
       else send (UnforjableL2Tx tx) :: verifyPass cfg fut coord tp' rest n nL2)).
  { intros why tp' n. destruct (isAtomicTx tx); simpl; [auto|apply IH]. }
  destruct (isExitWithZeroAmount tx); [apply Hdiscard|].
  destruct (canAddL2Tx nL1 nL2 cfg) eqn:Hcan; [|apply Hdiscard]. simpl negb. cbv iota.
  destruct (classify cfg fut coord tp tx) as [|why|l1s auths].
  - pose proof (Hdiscard errNotSelectable tp nL1) as Hd.
    destruct (isAtomicTx tx); [exact Hd|simpl; apply IH].
  - apply Hdiscard.
  - pose proof (gated_app_L1 cfg tp nL1 nL2 l1s) as HL1.
    destruct (addL1CoordTxs cfg tp nL1 nL2 l1s) as [[[sent tp'] n] ok].
    destruct ok.
    + destruct (HL1 (map (fun a => send (AccAuth a)) auths
                       ++ mkStep (ProcessL2Tx tx) (SelectedL2Tx tx)
                          :: verifyPass cfg fut coord (ProcessL2Tx tx tp') rest n (nL2 + 1)))
        as [Hc Hg].
      apply Hg. apply gated_app_AccAuth. simpl. split; [apply Hc, Hcan|apply IH].
    + destruct (HL1 (if isAtomicTx tx
                     then [send (FailedAG (mkFailedAtomicGroup (PoolL2Tx.AtomicGroupID tx)
                                             (PoolL2Tx.TxID tx) errNoCapacity))]
                     else send (UnforjableL2Tx tx)
                          :: verifyPass cfg fut coord tp' rest n nL2)) as [_ Hg].
      apply Hg, Hdiscard.
Qed.

(** C1 (amended).  When the l1UserTxs passed in fit the batch (they are at
    most MaxL1Tx and at most MaxTx), every selection that
    GetL1L2TxSelection returns without error satisfies both capacity
    bounds: L1 user txs plus L1 coordinator txs are at most MaxL1Tx, and
    together with the selected L2 txs at most MaxTx. *)
Theorem GetL1L2TxSelection_capacity (attempts fuel : nat)
    (txsel : TxSelector) (selectionConfig : Config.t)
    (l1UserTxs l1UserFutureTxs : list L1Tx.t) (sel : selection) :
  Z.of_nat (length l1UserTxs) <= Config.MaxL1Tx selectionConfig ->
  Z.of_nat (length l1UserTxs) <= Config.MaxTx selectionConfig ->
  GetL1L2TxSelection verifyTxs attempts fuel txsel selectionConfig
    l1UserTxs l1UserFutureTxs = Returns (Ok sel) ->
  withinCapacity selectionConfig sel.
Proof.
  intros HL1 HTx Hrun. eapply getL1L2TxSelection_capacity;
    [apply verifyPass_gated|exact HL1|exact HTx|exact Hrun].
Qed.

End capacity.

(** * Further properties *)

(** ** The second compressed form *)

Section codec_v2.
Context {F64 : Float64} {CC : common.Consts} {CD : Codec}.
Import common.

Lemma TxCompressedDataV2_bytes_ok (tx : PoolL2Tx.t) amount amountFloat16 :
  PoolL2Tx.Amount tx = Some amount ->
  NewFloat16 (Some amount) = Ok amountFloat16 ->
  PoolL2Tx.Nonce tx <= maxNonceValue ->
  PoolL2Tx.ToIdx tx <= maxIdxValue -> PoolL2Tx.FromIdx tx <= maxIdxValue ->
  TxCompressedDataV2_bytes tx = (tx, Ok (compressedLayoutV2 tx amountFloat16)).
Proof.
  intros Ha Hf Hn Hto Hfrom. unfold TxCompressedDataV2_bytes, compressedLayoutV2, signV2.
  rewrite Ha. cbv beta iota zeta.
  rewrite Ha, Hf, (Nonce_Bytes_ok _ Hn), (Idx_Bytes_ok _ Hto), (Idx_Bytes_ok _ Hfrom).
  cbn [mbind result_bind].
  unfold TokenID_Bytes, Float16_Bytes, PutUint16, PutUint32.
  pose proof (length_be_bytes 5 (PoolL2Tx.Nonce tx)) as H1.
  pose proof (length_be_bytes 4 (PoolL2Tx.TokenID tx)) as H2.
  pose proof (length_be_bytes 2 amountFloat16) as H3.
  pose proof (length_be_bytes 6 (PoolL2Tx.ToIdx tx)) as H4.
  pose proof (length_be_bytes 6 (PoolL2Tx.FromIdx tx)) as H5.
  destruct (be_bytes 5 (PoolL2Tx.Nonce tx)) as [|? l1]; [discriminate|].
  destruct (be_bytes 4 (PoolL2Tx.TokenID tx)) as [|? l2]; [discriminate|].
  destruct (be_bytes 2 amountFloat16) as [|? l3]; [discriminate|].
  destruct (be_bytes 6 (PoolL2Tx.ToIdx tx)) as [|? l4]; [discriminate|].
  destruct (be_bytes 6 (PoolL2Tx.FromIdx tx)) as [|? l5]; [discriminate|].
  explode l1 H1. explode l2 H2. explode l3 H3. explode l4 H4. explode l5 H5.
  reflexivity.
Qed.

Lemma TxCompressedDataV2_nil (tx : PoolL2Tx.t) :
  PoolL2Tx.Amount tx = None ->
  TxCompressedDataV2 tx = TxCompressedDataV2 (set_Amount (Some 0) tx).
Proof.
  intros Ha. unfold TxCompressedDataV2, TxCompressedDataV2_bytes. rewrite Ha.
  reflexivity.
Qed.

Lemma signV2_byte toBJJ : 0 <= signV2 toBJJ <= 1.
Proof. unfold signV2. repeat case_match; lia. Qed.

(** X1.  For a tx whose amount, zero if it is nil, has a Float16, and whose
    fields have the widths of their types, TxCompressedDataV2 is the number
    whose 25 big-endian bytes are toBJJSign (0 for an empty ToBJJ), fee,
    nonce (5), tokenID (4), amountFloat16 (2), toIdx (6) and fromIdx (6);
    the tx is left as it was, but for a nil Amount, which is left zero. *)
Theorem TxCompressedDataV2_layout (tx : PoolL2Tx.t) (amountFloat16 : Z) :
  NewFloat16 (Some (default 0 (PoolL2Tx.Amount tx))) = Ok amountFloat16 ->
  0 <= amountFloat16 < 2 ^ 16 ->
  0 <= PoolL2Tx.Fee tx < 2 ^ 8 ->
  0 <= PoolL2Tx.Nonce tx < 2 ^ 40 ->
  0 <= PoolL2Tx.TokenID tx < 2 ^ 32 ->
  0 <= PoolL2Tx.ToIdx tx < 2 ^ 48 ->
  0 <= PoolL2Tx.FromIdx tx < 2 ^ 48 ->
  exists v,
    TxCompressedDataV2 tx
    = (set_Amount (Some (default 0 (PoolL2Tx.Amount tx))) tx, Ok v) /\
    be_bytes 25 v = compressedLayoutV2 tx amountFloat16 /\
    v = compressedValueV2 tx amountFloat16.
Proof.
  intros Hf Hf16 Hfee Hn Htok Hto Hfrom.
  set (tx0 := set_Amount (Some (default 0 (PoolL2Tx.Amount tx))) tx).
  assert (Heq : TxCompressedDataV2 tx = TxCompressedDataV2 tx0).
  { destruct (PoolL2Tx.Amount tx) as [amount|] eqn:Ha.
    - subst tx0. destruct tx. simpl in Ha. subst. reflexivity.
    - apply TxCompressedDataV2_nil. exact Ha. }
  rewrite Heq. unfold TxCompressedDataV2.
  rewrite (TxCompressedDataV2_bytes_ok tx0 (default 0 (PoolL2Tx.Amount tx)) amountFloat16)
    by (unfold maxNonceValue, maxIdxValue; simpl; auto; lia).
  cbn [mbind result_bind]. eexists. split; [reflexivity|].
  change (compressedLayoutV2 tx0 amountFloat16) with (compressedLayoutV2 tx amountFloat16).
  pose proof (signV2_byte (PoolL2Tx.ToBJJ tx)) as Hs.
  split.
  - assert (Hlen : length (compressedLayoutV2 tx amountFloat16) = 25%nat).
    { unfold compressedLayoutV2. rewrite !length_app, !length_be_bytes. reflexivity. }
    rewrite <- Hlen at 1. apply be_bytes_SetBytes.
    unfold compressedLayoutV2. repeat (apply Forall_app; split);
      auto using be_bytes_is_byte.
    constructor; [|constructor]. unfold is_byte. lia.
  - unfold compressedLayoutV2, compressedValueV2.
    rewrite !SetBytes_app, !length_app, !length_be_bytes.
    rewrite !SetBytes_be_bytes_id by (simpl; lia).
    replace (SetBytes [signV2 (PoolL2Tx.ToBJJ tx)]) with (signV2 (PoolL2Tx.ToBJJ tx))
      by (unfold SetBytes; simpl; lia).
    simpl Z.of_nat. simpl Z.mul. lia.
Qed.

Lemma Nonce_Bytes_inv n b : Nonce_Bytes n = Ok b -> n <= maxNonceValue.
Proof. unfold Nonce_Bytes. destruct (Z.gtb_spec n maxNonceValue); [discriminate|lia]. Qed.

Lemma Idx_Bytes_inv idx b : Idx_Bytes idx = Ok b -> idx <= maxIdxValue.
Proof. unfold Idx_Bytes. destruct (Z.gtb_spec idx maxIdxValue); [discriminate|lia]. Qed.

Lemma TxCompressedData_bytes_inv (tx : PoolL2Tx.t) chainID b :
  TxCompressedData_bytes tx chainID = Ok b ->
  exists amountFloat16,
    NewFloat16 (PoolL2Tx.Amount tx) = Ok amountFloat16 /\
    PoolL2Tx.Nonce tx <= maxNonceValue /\
    PoolL2Tx.ToIdx tx <= maxIdxValue /\ PoolL2Tx.FromIdx tx <= maxIdxValue.
Proof.
  unfold TxCompressedData_bytes.
  destruct (NewFloat16 (PoolL2Tx.Amount tx)) as [f| |]; try discriminate.
  cbn [mbind result_bind].
  destruct (Nonce_Bytes (PoolL2Tx.Nonce tx)) as [nb| |] eqn:Hn; try discriminate.
  cbn [mbind result_bind].
  destruct (Idx_Bytes (PoolL2Tx.ToIdx tx)) as [tb| |] eqn:Hto; try discriminate.
  cbn [mbind result_bind].
  destruct (Idx_Bytes (PoolL2Tx.FromIdx tx)) as [fb| |] eqn:Hfrom; try discriminate.
  intros _. exists f. repeat split; eauto using Nonce_Bytes_inv, Idx_Bytes_inv.
Qed.

(** X2.  The first compressed form is the second one followed by the chain
    id and the signature constant: whenever TxCompressedData returns [v1]
    for a tx with an amount, TxCompressedDataV2 returns some [v2] for it,
    leaves the tx as it is, and [v1] is [v2] shifted by 48 bits plus the 16
    bits of the chain id shifted by 32 bits plus the signature constant;
    provided the sign of an empty ToBJJ, which only the first form unpacks,
    is 0. *)
Theorem TxCompressedData_V2 (tx : PoolL2Tx.t) (chainID v1 : Z) :
  length SignatureConstantBytes = 4%nat ->
  PoolL2Tx.Amount tx <> None ->
  (PoolL2Tx.ToBJJ tx = EmptyBJJComp -> UnpackSignY_sign EmptyBJJComp = false) ->
  TxCompressedData tx chainID = Ok v1 ->
  exists v2,
    TxCompressedDataV2 tx = (tx, Ok v2) /\
    v1 = v2 * 2 ^ 48 + (chainID mod 2 ^ 16) * 2 ^ 32 + SetBytes SignatureConstantBytes.
Proof.
  intros Hsig Hamt Hsign. unfold TxCompressedData.
  destruct (TxCompressedData_bytes tx chainID) as [b| |] eqn:Hb; try discriminate.
  cbn [mbind result_bind]. intros [= <-].
  destruct (TxCompressedData_bytes_inv _ _ _ Hb) as (f & Hf & Hn & Hto & Hfrom).
  rewrite (TxCompressedData_bytes_ok tx chainID f Hf Hn Hto Hfrom Hsig) in Hb.
  injection Hb as <-.
  destruct (PoolL2Tx.Amount tx) as [amount|] eqn:Ha; [|contradiction].
  unfold TxCompressedDataV2.
  rewrite (TxCompressedDataV2_bytes_ok tx amount f Ha Hf Hn Hto Hfrom).
  cbn [mbind result_bind]. eexists. split; [reflexivity|].
  assert (Hl : compressedLayout tx chainID f
               = compressedLayoutV2 tx f ++ be_bytes 2 chainID ++ SignatureConstantBytes).
  { unfold compressedLayout, compressedLayoutV2, signV2.
    assert (Hs : (if UnpackSignY_sign (PoolL2Tx.ToBJJ tx) then 1 else 0)
                 = if bool_decide (PoolL2Tx.ToBJJ tx <> EmptyBJJComp)
                   then (if UnpackSignY_sign (PoolL2Tx.ToBJJ tx) then 1 else 0) else 0).
    { case_bool_decide as He; [reflexivity|].
      assert (He' : PoolL2Tx.ToBJJ tx = EmptyBJJComp)
        by (destruct (decide (PoolL2Tx.ToBJJ tx = EmptyBJJComp)); [assumption|contradiction]).
      rewrite He', (Hsign He'). reflexivity. }
    rewrite Hs at 1. rewrite <- !app_assoc. reflexivity. }
  rewrite Hl, !SetBytes_app, !length_app, length_be_bytes, Hsig, SetBytes_be_bytes.
  change (8 * Z.of_nat (2 + 4)) with 48. change (8 * Z.of_nat 2) with 16.
  change (8 * Z.of_nat 4) with 32. lia.
Qed.

End codec_v2.

(** ** Types, ids and conversions of pool txs *)

Section pooll2tx_props.
Context {F64 : Float64} {CC : common.Consts}.
Import common.

Lemma SetType_frame (tx tx1 : PoolL2Tx.t) :
  SetType tx = Ok tx1 -> tx1 = PoolL2Tx.set_Type (PoolL2Tx.Type_ tx1) tx.
Proof.
  unfold SetType. repeat case_match; intros [= <-]; try reflexivity.
  destruct tx; reflexivity.
Qed.

Lemma SetType_again (tx tx1 : PoolL2Tx.t) (id : TxID) :
  SetType tx = Ok tx1 ->
  SetType (PoolL2Tx.set_TxID id tx1) = Ok (PoolL2Tx.set_TxID id tx1).
Proof.
  unfold SetType.
  destruct (PoolL2Tx.ToIdx tx >=? IdxUserThreshold) eqn:H1.
  { intros [= <-]. cbn [PoolL2Tx.ToIdx PoolL2Tx.ToBJJ PoolL2Tx.ToEthAddr PoolL2Tx.set_TxID
           PoolL2Tx.set_Type]. rewrite H1. reflexivity. }
  destruct (PoolL2Tx.ToIdx tx =? 1) eqn:H2.
  { intros [= <-]. cbn [PoolL2Tx.ToIdx PoolL2Tx.ToBJJ PoolL2Tx.ToEthAddr PoolL2Tx.set_TxID
           PoolL2Tx.set_Type]. rewrite H1, H2. reflexivity. }
  destruct (PoolL2Tx.ToIdx tx =? 0) eqn:H3; [|discriminate].
  destruct (bool_decide (PoolL2Tx.ToBJJ tx <> EmptyBJJComp)
            && bool_decide (PoolL2Tx.ToEthAddr tx = FFAddr)) eqn:H4.
  { intros [= <-]. cbn [PoolL2Tx.ToIdx PoolL2Tx.ToBJJ PoolL2Tx.ToEthAddr PoolL2Tx.set_TxID
           PoolL2Tx.set_Type]. rewrite H1, H2, H3, H4. reflexivity. }
  destruct (bool_decide (PoolL2Tx.ToEthAddr tx <> FFAddr)
            && bool_decide (PoolL2Tx.ToEthAddr tx <> EmptyAddr)) eqn:H5.
  { intros [= <-]. cbn [PoolL2Tx.ToIdx PoolL2Tx.ToBJJ PoolL2Tx.ToEthAddr PoolL2Tx.set_TxID
           PoolL2Tx.set_Type]. rewrite H1, H2, H3, H4, H5. reflexivity. }
  intros [= <-]. cbn [PoolL2Tx.ToIdx PoolL2Tx.ToBJJ PoolL2Tx.ToEthAddr PoolL2Tx.set_TxID
           PoolL2Tx.set_Type]. rewrite H1, H2, H3, H4, H5. reflexivity.
Qed.

(** X3.  SetType changes nothing but the Type of the tx, and setting the
    type of a tx whose type was set changes nothing at all. *)
Theorem SetType_idempotent (tx tx1 : PoolL2Tx.t) :
  SetType tx = Ok tx1 ->
  tx1 = PoolL2Tx.set_Type (PoolL2Tx.Type_ tx1) tx /\ SetType tx1 = Ok tx1.
Proof.
  intros Hty. split; [exact (SetType_frame _ _ Hty)|].
  pose proof (SetType_again tx tx1 (PoolL2Tx.TxID tx1) Hty) as H.
  replace (PoolL2Tx.set_TxID (PoolL2Tx.TxID tx1) tx1) with tx1 in H
    by (destruct tx1; reflexivity).
  exact H.
Qed.

Lemma SetID_inv (tx tx2 : PoolL2Tx.t) :
  SetID tx = Ok tx2 ->
  PoolL2Tx.FromIdx tx <= maxIdxValue /\ PoolL2Tx.Nonce tx <= maxNonceValue.
Proof.
  unfold SetID.
  destruct (Idx_Bytes (PoolL2Tx.FromIdx tx)) as [fb| |] eqn:Hf; try discriminate.
  cbn [mbind result_bind].
  destruct (Nonce_Bytes (PoolL2Tx.Nonce tx)) as [nb| |] eqn:Hn; try discriminate.
  intros _. split.
  - unfold Idx_Bytes in Hf. destruct (Z.gtb_spec (PoolL2Tx.FromIdx tx) maxIdxValue);
      [discriminate|lia].
  - unfold Nonce_Bytes in Hn. destruct (Z.gtb_spec (PoolL2Tx.Nonce tx) maxNonceValue);
      [discriminate|lia].
Qed.

(** X4.  What NewPoolL2Tx returns is the tx it was given with the computed
    TxID and the inferred Type, every other field unchanged, and it is
    accepted again as it is: NewPoolL2Tx is idempotent. *)
Theorem NewPoolL2Tx_idempotent (tx tx' : PoolL2Tx.t) :
  length (PoolL2Tx.TxID tx) = 12%nat ->
  NewPoolL2Tx tx = Ok tx' ->
  tx' = PoolL2Tx.set_TxID (l2TxID tx) (PoolL2Tx.set_Type (PoolL2Tx.Type_ tx') tx) /\
  NewPoolL2Tx tx' = Ok tx'.
Proof.
  intros Hlen. unfold NewPoolL2Tx at 1.
  destruct (SetType tx) as [tx1| |] eqn:Hty; try discriminate.
  cbn [mbind result_bind].
  destruct (_ && _); [discriminate|].
  destruct (SetID tx1) as [tx2| |] eqn:Hid; try discriminate.
  cbn [mbind result_bind].
  destruct (_ && _); [discriminate|]. intros [= <-].
  destruct (SetType_fields _ _ Hty) as (Hid1 & Hfrom & Hn).
  destruct (SetID_inv _ _ Hid) as [Hidx Hnonce].
  rewrite SetID_ok in Hid by congruence. injection Hid as <-.
  assert (Hl : l2TxID tx1 = l2TxID tx) by (unfold l2TxID; rewrite Hfrom, Hn; reflexivity).
  rewrite Hl. split.
  - simpl. rewrite (SetType_frame _ _ Hty) at 1. reflexivity.
  - unfold NewPoolL2Tx. rewrite (SetType_again _ _ _ Hty). cbn [mbind result_bind].
    rewrite (bool_decide_eq_false_2 (PoolL2Tx.Type_ _ <> PoolL2Tx.Type_ _))
      by (intros H; apply H; reflexivity).
    rewrite andb_false_r.
    rewrite SetID_ok by (simpl; auto using length_l2TxID).
    cbn [mbind result_bind].
    assert (Hsame : PoolL2Tx.set_TxID (l2TxID (PoolL2Tx.set_TxID (l2TxID tx) tx1))
                      (PoolL2Tx.set_TxID (l2TxID tx) tx1)
                    = PoolL2Tx.set_TxID (l2TxID tx) tx1).
    { unfold l2TxID. simpl. rewrite Hfrom, Hn. reflexivity. }
    rewrite Hsame.
    rewrite (bool_decide_eq_false_2 (PoolL2Tx.TxID _ <> PoolL2Tx.TxID _))
      by (intros H; apply H; reflexivity).
    rewrite andb_false_r. reflexivity.
Qed.

Context {CD : Codec}.

Lemma PoolL2TxsToL2Txs_from_spec (txs : list PoolL2Tx.t) (done old : list L2Tx.t) :
  length old = length txs ->
  PoolL2TxsToL2Txs_from (length done) txs (done ++ old)
  = done ++ map PoolL2Tx_L2Tx txs.
Proof.
  revert done old. induction txs as [|tx rest IH]; intros done old Hlen; simpl in *.
  - destruct old; [reflexivity|discriminate].
  - destruct old as [|o old']; [discriminate|]. injection Hlen as Hlen.
    replace (<[length done := PoolL2Tx_L2Tx tx]> (done ++ o :: old'))
      with ((done ++ [PoolL2Tx_L2Tx tx]) ++ old').
    + replace (S (length done)) with (length (done ++ [PoolL2Tx_L2Tx tx]))
        by (rewrite length_app; simpl; lia).
      rewrite (IH _ _ Hlen), <- app_assoc. reflexivity.
    + rewrite <- (Nat.add_0_r (length done)) at 1. rewrite insert_app_r.
      rewrite <- app_assoc. reflexivity.
Qed.

Lemma TxIDsFromPoolL2Txs_from_spec (txs : list PoolL2Tx.t) (done old : list TxID) :
  length old = length txs ->
  TxIDsFromPoolL2Txs_from (length done) txs (done ++ old)
  = done ++ map PoolL2Tx.TxID txs.
Proof.
  revert done old. induction txs as [|tx rest IH]; intros done old Hlen; simpl in *.
  - destruct old; [reflexivity|discriminate].
  - destruct old as [|o old']; [discriminate|]. injection Hlen as Hlen.
    replace (<[length done := PoolL2Tx.TxID tx]> (done ++ o :: old'))
      with ((done ++ [PoolL2Tx.TxID tx]) ++ old').
    + replace (S (length done)) with (length (done ++ [PoolL2Tx.TxID tx]))
        by (rewrite length_app; simpl; lia).
      rewrite (IH _ _ Hlen), <- app_assoc. reflexivity.
    + rewrite <- (Nat.add_0_r (length done)) at 1. rewrite insert_app_r.
      rewrite <- app_assoc. reflexivity.
Qed.

(** X5.  PoolL2TxsToL2Txs never fails and converts the txs one by one, in
    order: the L2Tx at each position carries the TxID, FromIdx, Amount, Fee,
    Nonce and Type of the pool tx at that position, and its ToIdx, or its
    AuxToIdx when the ToIdx is 0; the ids of the L2Txs are those that
    TxIDsFromPoolL2Txs gives for the pool txs. *)
Theorem PoolL2TxsToL2Txs_spec (txs : list PoolL2Tx.t) :
  exists l2Txs,
    PoolL2TxsToL2Txs txs = Ok l2Txs /\
    length l2Txs = length txs /\
    (forall (i : nat) tx, txs !! i = Some tx ->
       exists l2Tx,
         l2Txs !! i = Some l2Tx /\
         L2Tx.TxID l2Tx = PoolL2Tx.TxID tx /\
         L2Tx.FromIdx l2Tx = PoolL2Tx.FromIdx tx /\
         L2Tx.ToIdx l2Tx = (if PoolL2Tx.ToIdx tx =? 0 then PoolL2Tx.AuxToIdx tx
                            else PoolL2Tx.ToIdx tx) /\
         L2Tx.Amount l2Tx = PoolL2Tx.Amount tx /\
         L2Tx.Fee l2Tx = PoolL2Tx.Fee tx /\
         L2Tx.Nonce l2Tx = PoolL2Tx.Nonce tx /\
         L2Tx.Type_ l2Tx = PoolL2Tx.Type_ tx) /\
    map L2Tx.TxID l2Txs = TxIDsFromPoolL2Txs txs.
Proof.
  exists (map PoolL2Tx_L2Tx txs).
  assert (Hl : PoolL2TxsToL2Txs txs = Ok (map PoolL2Tx_L2Tx txs)).
  { unfold PoolL2TxsToL2Txs. f_equal.
    apply (PoolL2TxsToL2Txs_from_spec txs [] (repeat L2Tx.zero (length txs))).
    apply repeat_length. }
  assert (Hi : TxIDsFromPoolL2Txs txs = map PoolL2Tx.TxID txs).
  { unfold TxIDsFromPoolL2Txs.
    apply (TxIDsFromPoolL2Txs_from_spec txs [] (repeat EmptyTxID (length txs))).
    apply repeat_length. }
  split; [exact Hl|]. split; [apply length_map|]. split.
  - intros i tx Hi'. exists (PoolL2Tx_L2Tx tx). split.
    + rewrite list_lookup_fmap, Hi'. reflexivity.
    + repeat split.
  - rewrite Hi, map_map. reflexivity.
Qed.

End pooll2tx_props.

(** ** Pool admission, continued *)

Section offsets_props.

Lemma requestOffset2RelativePosition_range (a ra : Z) :
  requestOffset2RelativePosition a = (ra, None) ->
  1 <= a <= 7 /\ -4 <= ra <= 3 /\ ra <> 0.
Proof.
  unfold requestOffset2RelativePosition. cbv zeta.
  repeat match goal with
         | |- context [a =? ?k] => destruct (Z.eqb_spec a k)
         end; intros [= <-]; lia.
Qed.

(** X6.  A request offset that is accepted never points at the tx that
    carries it: its relative position is one of -4 .. -1 and 1 .. 3, and
    two accepted offsets with the same relative position are equal. *)
Theorem requestOffset2RelativePosition_injective (a b ra rb : Z) :
  requestOffset2RelativePosition a = (ra, None) ->
  requestOffset2RelativePosition b = (rb, None) ->
  (1 <= a <= 7 /\ -4 <= ra <= 3 /\ ra <> 0) /\ (ra = rb -> a = b).
Proof.
  unfold requestOffset2RelativePosition. cbv zeta.
  repeat match goal with
         | |- context [a =? ?k] => destruct (Z.eqb_spec a k)
         end; intros [= <-]; try discriminate;
  repeat match goal with
         | |- context [b =? ?k] => destruct (Z.eqb_spec b k)
         end; intros [= <-]; try discriminate; split; lia.
Qed.

End offsets_props.

Section admission_props.
Context {F64 : Float64} {CC : common.Consts} {AE : ApiEnv}.

Lemma SetID_frame (tx tx2 : PoolL2Tx.t) :
  SetID tx = Ok tx2 -> tx2 = PoolL2Tx.set_TxID (PoolL2Tx.TxID tx2) tx.
Proof.
  unfold SetID. destruct (common.Idx_Bytes _); simpl; try discriminate.
  destruct (common.Nonce_Bytes _); simpl; try discriminate.
  intros [= <-]. reflexivity.
Qed.

Lemma NewPoolL2Tx_frame (tx tx' : PoolL2Tx.t) :
  NewPoolL2Tx tx = Ok tx' ->
  tx' = PoolL2Tx.set_TxID (PoolL2Tx.TxID tx')
          (PoolL2Tx.set_Type (PoolL2Tx.Type_ tx') tx).
Proof.
  unfold NewPoolL2Tx. destruct (SetType tx) as [tx1| |] eqn:E1; simpl; try discriminate.
  case_match; try discriminate.
  destruct (SetID tx1) as [tx2| |] eqn:E2; simpl; try discriminate.
  case_match; try discriminate. intros [= <-].
  rewrite (SetID_frame _ _ E2) at 1.
  rewrite (SetType_frame _ _ E1) at 1.
  rewrite (SetID_Type _ _ E2). reflexivity.
Qed.

(** X7.  A tx that verifyPoolL2Tx accepts passed every check: its type and
    id are consistent (NewPoolL2Tx accepts it), its fee amount can be
    computed, the sender account exists, holds the token of the tx and has
    a nonce that is not above that of the tx, the signature verifies for
    the key of the sender; a transfer goes to an existing account of the
    same token, a transfer to an Ethereum address goes to an address that
    can receive the token, and an exit has a positive amount. *)
Theorem verifyPoolL2Tx_sound (a : API) (tx : PoolL2Tx.t) :
  verifyPoolL2Tx a tx = Ok () ->
  exists tx' feeAmount account,
    NewPoolL2Tx tx = Ok tx' /\
    CalcFeeAmount (PoolL2Tx.Amount tx) (PoolL2Tx.Fee tx) = Ok feeAmount /\
    GetCommonAccountAPI (h a) (PoolL2Tx.FromIdx tx) = Ok account /\
    PoolL2Tx.TokenID tx = Account.TokenID account /\
    Account.Nonce account <= PoolL2Tx.Nonce tx /\
    VerifySignature tx' (cg_ChainID a) (Account.BJJ account) = true /\
    (PoolL2Tx.Type_ tx' = common.TxTypeTransfer ->
       exists toAccount,
         GetCommonAccountAPI (h a) (PoolL2Tx.ToIdx tx) = Ok toAccount /\
         PoolL2Tx.TokenID tx = Account.TokenID toAccount) /\
    (PoolL2Tx.Type_ tx' = common.TxTypeTransferToEthAddr ->
       CanSendToEthAddr (h a) (PoolL2Tx.ToEthAddr tx) (PoolL2Tx.TokenID tx) = Ok true) /\
    (PoolL2Tx.Type_ tx' = common.TxTypeExit ->
       exists amount, PoolL2Tx.Amount tx = Some amount /\ 0 < amount).
Proof.
  unfold verifyPoolL2Tx.
  destruct (NewPoolL2Tx tx) as [tx'| |] eqn:Hnew; try discriminate.
  cbn [mbind result_bind].
  pose proof (NewPoolL2Tx_frame _ _ Hnew) as Hfr.
  assert (Hf : PoolL2Tx.Amount tx' = PoolL2Tx.Amount tx /\
               PoolL2Tx.Fee tx' = PoolL2Tx.Fee tx /\
               PoolL2Tx.FromIdx tx' = PoolL2Tx.FromIdx tx /\
               PoolL2Tx.TokenID tx' = PoolL2Tx.TokenID tx /\
               PoolL2Tx.Nonce tx' = PoolL2Tx.Nonce tx /\
               PoolL2Tx.ToIdx tx' = PoolL2Tx.ToIdx tx /\
               PoolL2Tx.ToEthAddr tx' = PoolL2Tx.ToEthAddr tx)
    by (rewrite Hfr; repeat split).
  destruct Hf as (-> & -> & -> & -> & -> & -> & ->).
  destruct (CalcFeeAmount _ _) as [feeAmount| |] eqn:Hfee; try discriminate.
  cbn [mbind result_bind].
  destruct (GetCommonAccountAPI (h a) (PoolL2Tx.FromIdx tx)) as [account| |] eqn:Hacc;
    try discriminate.
  destruct (Z.eqb_spec (PoolL2Tx.TokenID tx) (Account.TokenID account)) as [Htok|];
    [|discriminate].
  cbn [negb].
  destruct (Z.ltb_spec (PoolL2Tx.Nonce tx) (Account.Nonce account)); [discriminate|].
  destruct (VerifySignature tx' (cg_ChainID a) (Account.BJJ account)) eqn:Hsig;
    [|discriminate].
  cbn [negb]. intros Hrest.
  exists tx', feeAmount, account.
  do 6 (split; [first [reflexivity | assumption]|]).
  destruct (PoolL2Tx.Type_ tx') eqn:Hty; cbn [mbind result_bind] in Hrest;
    (split; [try discriminate|split; [try discriminate|try discriminate]]).
  all: try (intros _).
  all: match goal with
       | |- exists amount, _ = Some amount /\ _ =>
           destruct (PoolL2Tx.Amount tx) as [amount|]; [|discriminate Hrest];
           destruct (Z.leb_spec amount 0); [discriminate Hrest|]; eauto
       | |- exists toAccount, _ =>
           destruct (GetCommonAccountAPI (h a) (PoolL2Tx.ToIdx tx)) as [toAccount| |];
           try discriminate Hrest;
           destruct (Z.eqb_spec (PoolL2Tx.TokenID tx) (Account.TokenID toAccount));
           [|discriminate Hrest]; eauto
       | |- _ = Ok true =>
           destruct (CanSendToEthAddr _ _ _) as [[|]| |]; try discriminate Hrest;
           reflexivity
       end.
Qed.

(** X8.  postPoolTx adds a tx to the pool only if it carries no atomic
    data and verifyPoolL2Tx accepts it; what is added is the tx as it was
    received, with the client address filled in, and the reply is the TxID
    it was received with.  With any other reply the pool is as it was. *)
Theorem postPoolTx_accepts (a : API) (body : result PoolL2Tx.t) (clientIP : list Z) :
  (forall txIDs db, postPoolTx a body clientIP = (StatusOK txIDs, db) ->
     exists receivedTx,
       body = Ok receivedTx /\
       PoolL2Tx.RqOffset receivedTx = 0 /\
       PoolL2Tx.RqTxID receivedTx = common.EmptyTxID /\
       verifyPoolL2Tx a receivedTx = Ok () /\
       AddTxAPI (l2 a) (PoolL2Tx.set_ClientIP clientIP receivedTx) = Ok db /\
       txIDs = [PoolL2Tx.TxID receivedTx]) /\
  ((forall txIDs, (postPoolTx a body clientIP).1 <> StatusOK txIDs) ->
     (postPoolTx a body clientIP).2 = l2 a).
Proof.
  unfold postPoolTx. destruct body as [receivedTx|e|]; simpl;
    [|split; [discriminate|reflexivity]..].
  destruct (Z.eqb_spec (PoolL2Tx.RqOffset receivedTx) 0) as [Hoff|]; simpl;
    [|split; [discriminate|reflexivity]].
  case_bool_decide as Hrq; simpl; [split; [discriminate|reflexivity]|].
  assert (Hid : PoolL2Tx.RqTxID receivedTx = common.EmptyTxID)
    by (destruct (decide (PoolL2Tx.RqTxID receivedTx = common.EmptyTxID));
        [assumption|contradiction]).
  destruct (verifyPoolL2Tx a receivedTx) as [[]|e|] eqn:Hver; simpl;
    [|split; [discriminate|reflexivity]..].
  destruct (AddTxAPI _ _) as [db'|e|] eqn:Hadd; simpl;
    [|split; [discriminate|reflexivity]..].
  split.
  - intros txIDs db [= <- <-]. exists receivedTx.
    repeat split; first [assumption | reflexivity].
  - intros Hno. exfalso. eapply Hno. reflexivity.
Qed.

End admission_props.

(** ** Valid atomic groups *)

Section valid_groups.
Context {F64 : Float64}.

Lemma at_Some {A} (l : list A) (p : Z) (x : A) :
  at_ l p = Some x -> 0 <= p <= Z.of_nat (length l) - 1.
Proof.
  unfold at_. destruct (Z.ltb_spec p 0) as [|Hp]; [discriminate|].
  intros Hl. apply lookup_lt_Some in Hl. lia.
Qed.

Lemma rqFields_match (tx req : PoolL2Tx.t) :
  negb (PoolL2Tx.RqFromIdx tx =? PoolL2Tx.FromIdx req)
  || negb (PoolL2Tx.RqToIdx tx =? PoolL2Tx.ToIdx req)
  || bool_decide (PoolL2Tx.RqToEthAddr tx <> PoolL2Tx.ToEthAddr req)
  || bool_decide (PoolL2Tx.RqToBJJ tx <> PoolL2Tx.ToBJJ req)
  || negb (PoolL2Tx.RqTokenID tx =? PoolL2Tx.TokenID req)
  || negb (PoolL2Tx.RqFee tx =? PoolL2Tx.Fee req)
  || negb (PoolL2Tx.RqNonce tx =? PoolL2Tx.Nonce req) = false <->
  PoolL2Tx.RqFromIdx tx = PoolL2Tx.FromIdx req /\
  PoolL2Tx.RqToIdx tx = PoolL2Tx.ToIdx req /\
  PoolL2Tx.RqToEthAddr tx = PoolL2Tx.ToEthAddr req /\
  PoolL2Tx.RqToBJJ tx = PoolL2Tx.ToBJJ req /\
  PoolL2Tx.RqTokenID tx = PoolL2Tx.TokenID req /\
  PoolL2Tx.RqFee tx = PoolL2Tx.Fee req /\
  PoolL2Tx.RqNonce tx = PoolL2Tx.Nonce req.
Proof.
  rewrite !orb_false_iff, !negb_false_iff, !Z.eqb_eq, !bool_decide_eq_false.
  split.
  - intros ((((((H1 & H2) & H3) & H4) & H5) & H6) & H7).
    repeat split; try assumption.
    + destruct (decide (PoolL2Tx.RqToEthAddr tx = PoolL2Tx.ToEthAddr req));
        [assumption|contradiction].
    + destruct (decide (PoolL2Tx.RqToBJJ tx = PoolL2Tx.ToBJJ req));
        [assumption|contradiction].
  - intros (H1 & H2 & H3 & H4 & H5 & H6 & H7).
    repeat split; try assumption; intros Hn; contradiction.
Qed.

Lemma isAtomicGroupValid_from_cons (txs : list PoolL2Tx.t) (i : nat) txi todo :
  isAtomicGroupValid_from txs i (txi :: todo) = true <->
  (exists req, requestedAt txs i txi req /\ rqMatches txi req) /\
  isAtomicGroupValid_from txs (S i) todo = true.
Proof.
  cbn [isAtomicGroupValid_from]. unfold requestedAt, rqMatches.
  destruct (requestOffset2RelativePosition (PoolL2Tx.RqOffset txi)) as [rel [e|]].
  { split; [discriminate|]. intros [(req & (rel' & [=] & _) & _) _]. }
  destruct ((Z.of_nat i + rel >? Z.of_nat (length txs) - 1) || (Z.of_nat i + rel <? 0))
    eqn:Hout.
  { split; [discriminate|]. intros [(req & (rel' & [= <-] & Hat) & _) _].
    apply at_Some in Hat. apply orb_true_iff in Hout as [H|H]; lia. }
  destruct (at_ txs (Z.of_nat i + rel)) as [requestedTx|] eqn:Hat.
  2: { split; [discriminate|]. intros [(req & (rel' & [= <-] & Hat') & _) _].
       congruence. }
  match goal with
  | |- context [if ?c then false else _] => destruct c eqn:Hf
  end.
  { split; [discriminate|]. intros [(req & (rel' & [= <-] & Hat') & Hm) _].
    assert (req = requestedTx) by congruence. subst req.
    destruct Hm as (H1 & H2 & H3 & H4 & H5 & H6 & H7 & _).
    assert (Hf' : negb (PoolL2Tx.RqFromIdx txi =? PoolL2Tx.FromIdx requestedTx)
                  || negb (PoolL2Tx.RqToIdx txi =? PoolL2Tx.ToIdx requestedTx)
                  || bool_decide (PoolL2Tx.RqToEthAddr txi <> PoolL2Tx.ToEthAddr requestedTx)
                  || bool_decide (PoolL2Tx.RqToBJJ txi <> PoolL2Tx.ToBJJ requestedTx)
                  || negb (PoolL2Tx.RqTokenID txi =? PoolL2Tx.TokenID requestedTx)
                  || negb (PoolL2Tx.RqFee txi =? PoolL2Tx.Fee requestedTx)
                  || negb (PoolL2Tx.RqNonce txi =? PoolL2Tx.Nonce requestedTx) = false)
      by (apply rqFields_match; auto 10).
    congruence. }
  apply rqFields_match in Hf.
  destruct (PoolL2Tx.RqAmount txi) as [rqAmount|] eqn:Hrq,
           (PoolL2Tx.Amount requestedTx) as [amount|] eqn:Ham.
  - destruct (Z.eqb_spec rqAmount amount) as [->|Hne]; cbn [negb].
    + split.
      * intros Hrest. split; [|exact Hrest]. exists requestedTx. split; [eauto|].
        rewrite Ham. intuition.
      * intros [_ Hrest]. exact Hrest.
    + split; [discriminate|]. intros [(req & (rel' & [= <-] & Hat') & Hm) _].
      assert (req = requestedTx) by congruence. subst req.
      destruct Hm as (_ & _ & _ & _ & _ & _ & _ & Ha). congruence.
  - split; [discriminate|]. intros [(req & (rel' & [= <-] & Hat') & Hm) _].
    assert (req = requestedTx) by congruence. subst req.
    destruct Hm as (_ & _ & _ & _ & _ & _ & _ & Ha). congruence.
  - split; [discriminate|]. intros [(req & (rel' & [= <-] & Hat') & Hm) _].
    assert (req = requestedTx) by congruence. subst req.
    destruct Hm as (_ & _ & _ & _ & _ & _ & _ & Ha). congruence.
  - split.
    + intros Hrest. split; [|exact Hrest]. exists requestedTx. split; [eauto|].
      rewrite Ham. intuition.
    + intros [_ Hrest]. exact Hrest.
Qed.

Lemma isAtomicGroupValid_from_spec (txs : list PoolL2Tx.t) (i : nat) todo :
  isAtomicGroupValid_from txs i todo = true <->
  forall (k : nat) tx, todo !! k = Some tx ->
    exists req, requestedAt txs (i + k) tx req /\ rqMatches tx req.
Proof.
  revert i. induction todo as [|txi todo IH]; intros i.
  - simpl. split; [|reflexivity]. intros _ k tx H. destruct k; discriminate H.
  - rewrite isAtomicGroupValid_from_cons, IH. split.
    + intros [H0 Hrest] [|k] tx Hk; simpl in Hk.
      * injection Hk as <-. rewrite Nat.add_0_r. exact H0.
      * replace (i + S k)%nat with (S i + k)%nat by lia. apply Hrest. exact Hk.
    + intros Hall. split.
      * rewrite <- (Nat.add_0_r i). apply Hall. reflexivity.
      * intros k tx Hk. replace (S i + k)%nat with (i + S k)%nat by lia.
        apply Hall. exact Hk.
Qed.

(** X9.  An atomic group is valid for the selector exactly when the
    RqOffset of every tx is an accepted offset that points at a tx of the
    group, and the Rq fields of the tx (FromIdx, ToIdx, ToEthAddr, ToBJJ,
    TokenID, Fee, Nonce and Amount) are the fields of that tx.  A group of
    one tx is never valid. *)
Theorem isAtomicGroupValid_spec (atomicGroup : list PoolL2Tx.t) :
  (isAtomicGroupValid atomicGroup = true <->
   forall (i : nat) tx, atomicGroup !! i = Some tx ->
     exists req, requestedAt atomicGroup i tx req /\ rqMatches tx req) /\
  (length atomicGroup = 1%nat -> isAtomicGroupValid atomicGroup = false).
Proof.
  assert (Hmain : isAtomicGroupValid atomicGroup = true <->
            forall (i : nat) tx, atomicGroup !! i = Some tx ->
              exists req, requestedAt atomicGroup i tx req /\ rqMatches tx req)
    by (unfold isAtomicGroupValid; apply isAtomicGroupValid_from_spec).
  split; [exact Hmain|].
  intros Hlen. apply not_true_is_false. intros Hv.
  destruct atomicGroup as [|tx [|? ?]]; try discriminate Hlen.
  destruct (proj1 Hmain Hv 0%nat tx eq_refl) as (req & (rel & Hoff & Hat) & _).
  apply at_Some in Hat. simpl in Hat.
  destruct (requestOffset2RelativePosition_range _ _ Hoff) as (_ & _ & Hz).
  lia.
Qed.

End valid_groups.

(** ** The atomic endpoint *)

Section atomic_pool.
Context {F64 : Float64} {CC : common.Consts} {AE : ApiEnv}.

Lemma rqFilledAt_core (txs : list PoolL2Tx.t) (j : nat) (x t : PoolL2Tx.t) :
  PoolL2Tx.TxID (rqFilledAt txs j x) = PoolL2Tx.TxID x /\
  PoolL2Tx.RqOffset (rqFilledAt txs j x) = PoolL2Tx.RqOffset x /\
  PoolL2Tx.RqTxID (rqFilledAt txs j x) = PoolL2Tx.RqTxID x /\
  PoolL2Tx.set_Rq (rqFilledAt txs j x) t = PoolL2Tx.set_Rq x t.
Proof.
  unfold rqFilledAt, rqFilled. repeat case_match; repeat split.
Qed.

Lemma at_lookup {A} (l : list A) (p : Z) (x : A) :
  at_ l p = Some x <-> 0 <= p /\ l !! Z.to_nat p = Some x.
Proof.
  unfold at_. destruct (Z.ltb_spec p 0); split; try discriminate; try lia; tauto.
Qed.

Lemma at_same_length {A B} (l : list A) (l' : list B) (p : Z) :
  length l = length l' -> is_Some (at_ l p) -> is_Some (at_ l' p).
Proof.
  intros Hlen [x Hx]. apply at_lookup in Hx as [Hp Hx].
  apply lookup_lt_Some in Hx. rewrite Hlen in Hx.
  apply lookup_lt_is_Some_2 in Hx as [y Hy]. exists y. apply at_lookup. auto.
Qed.

Lemma at_in_range {A} (l : list A) (p : Z) :
  (p >? Z.of_nat (length l) - 1) || (p <? 0) = false -> is_Some (at_ l p).
Proof.
  intros H. apply orb_false_iff in H as [H1 H2].
  unfold at_. rewrite H2. apply lookup_lt_is_Some_2. lia.
Qed.

Lemma setRqFields_spec (txs : list PoolL2Tx.t) (fuel i : nat) (cur : list PoolL2Tx.t) :
  rqFilledUpTo txs cur i -> (length txs <= i + fuel)%nat ->
  match setRqFields fuel i cur with
  | Ok out =>
      rqFilledUpTo txs out (length txs) /\
      forall (j : nat) tx, (i <= j)%nat -> txs !! j = Some tx ->
        exists req, requestedAt txs j tx req
  | Err e =>
      (e = ErrTxsNotAtomic \/ e = ErrInvalidRqOffset \/ e = ErrRqOffsetOutOfBounds) /\
      exists (j : nat) tx, txs !! j = Some tx /\ forall req, ~ requestedAt txs j tx req
  | Panic => False
  end.
Proof.
  revert i cur. induction fuel as [|fuel IH]; intros i cur [Hlen Hcur] Hfuel.
  - simpl. split.
    + split; [exact Hlen|]. intros j tx Hj. rewrite (Hcur j tx Hj).
      pose proof (lookup_lt_Some _ _ _ Hj) as Hlt.
      destruct (Nat.ltb_spec j i), (Nat.ltb_spec j (length txs)); try lia. reflexivity.
    + intros j tx Hij Hj. apply lookup_lt_Some in Hj. lia.
  - cbn [setRqFields].
    destruct (cur !! i) as [tx1|] eqn:Hi.
    2: { apply lookup_ge_None in Hi. rewrite Hlen in Hi. split.
         - split; [exact Hlen|]. intros j tx Hj. rewrite (Hcur j tx Hj).
           pose proof (lookup_lt_Some _ _ _ Hj) as Hlt.
           destruct (Nat.ltb_spec j i), (Nat.ltb_spec j (length txs)); try lia.
           reflexivity.
         - intros j tx Hij Hj. apply lookup_lt_Some in Hj. lia. }
    assert (Horig : txs !! i = Some tx1).
    { pose proof (lookup_lt_Some _ _ _ Hi) as Hlt. rewrite Hlen in Hlt.
      apply lookup_lt_is_Some_2 in Hlt as [tx Htx].
      pose proof (Hcur i tx Htx) as Hc. rewrite Nat.ltb_irrefl in Hc. congruence. }
    destruct (requestOffset2RelativePosition (PoolL2Tx.RqOffset tx1)) as [rel [e|]] eqn:Hoff.
    { split.
      - unfold requestOffset2RelativePosition in Hoff. cbv zeta in Hoff.
        repeat case_match; simplify_eq; auto.
      - exists i, tx1. split; [exact Horig|]. intros req (rel' & Hoff' & _). congruence. }
    destruct ((Z.of_nat i + rel >? Z.of_nat (length cur) - 1) || (Z.of_nat i + rel <? 0))
      eqn:Hout.
    { split; [auto|]. exists i, tx1. split; [exact Horig|].
      intros req (rel' & Hoff' & Hat). assert (rel' = rel) by congruence. subst rel'.
      apply at_lookup in Hat as [Hp Hat]. apply lookup_lt_Some in Hat.
      rewrite Hlen in Hout. apply orb_true_iff in Hout as [H|H]; lia. }
    destruct (at_in_range _ _ Hout) as [requestedTx Hat]. rewrite Hat.
    destruct (at_same_length cur txs _ Hlen (ex_intro _ _ Hat)) as [req0 Hat0].
    assert (Hreq : requestedTx
                   = if (Z.to_nat (Z.of_nat i + rel) <? i)%nat
                     then rqFilledAt txs (Z.to_nat (Z.of_nat i + rel)) req0 else req0).
    { apply at_lookup in Hat as [_ Hat]. apply at_lookup in Hat0 as [_ Hat0].
      rewrite (Hcur _ _ Hat0) in Hat. congruence. }
    assert (Hcore : PoolL2Tx.TxID requestedTx = PoolL2Tx.TxID req0 /\
                    PoolL2Tx.set_Rq requestedTx tx1 = PoolL2Tx.set_Rq req0 tx1).
    { rewrite Hreq. destruct (_ <? _)%nat; [|auto].
      destruct (rqFilledAt_core txs (Z.to_nat (Z.of_nat i + rel)) req0 tx1)
        as (? & _ & _ & ?). auto. }
    destruct Hcore as [Hid Hset].
    assert (Hfill : rqFilledAt txs i tx1
                    = if bool_decide (PoolL2Tx.RqTxID tx1 = PoolL2Tx.TxID requestedTx)
                      then PoolL2Tx.set_Rq requestedTx tx1 else tx1).
    { unfold rqFilledAt, rqFilled. rewrite Hoff, Hat0, Hid, Hset. reflexivity. }
    set (cur' := if bool_decide (PoolL2Tx.RqTxID tx1 = PoolL2Tx.TxID requestedTx)
                 then <[i := PoolL2Tx.set_Rq requestedTx tx1]> cur else cur).
    assert (Hinv : rqFilledUpTo txs cur' (S i)).
    { split.
      - subst cur'. destruct (bool_decide _); [rewrite length_insert|]; exact Hlen.
      - intros j tx Hj. pose proof (Hcur j tx Hj) as Hc.
        destruct (decide (j = i)) as [->|Hne].
        + assert (tx = tx1) by congruence. subst tx.
          replace (i <? S i)%nat with true by (symmetry; apply Nat.ltb_lt; lia).
          rewrite Hfill. subst cur'. destruct (bool_decide _).
          * apply list_lookup_insert_eq. eapply lookup_lt_Some. exact Hi.
          * exact Hi.
        + assert (Hcur' : cur' !! j = cur !! j).
          { subst cur'. destruct (bool_decide _); [|reflexivity].
            apply list_lookup_insert_ne. congruence. }
          rewrite Hcur', Hc.
          destruct (Nat.ltb_spec j i), (Nat.ltb_spec j (S i)); try lia; reflexivity. }
    specialize (IH (S i) cur' Hinv ltac:(lia)).
    destruct (setRqFields fuel (S i) cur') as [out|e|]; [|exact IH..].
    destruct IH as [Hout' Hreqs]. split; [exact Hout'|].
    intros j tx Hij Hj. destruct (decide (j = i)) as [->|Hne].
    + assert (tx = tx1) by congruence. subst tx. exists req0, rel. auto.
    + apply Hreqs; [lia|exact Hj].
Qed.

Lemma rqFilledUpTo_start (txs : list PoolL2Tx.t) : rqFilledUpTo txs txs 0.
Proof. split; [reflexivity|]. intros j tx Hj. exact Hj. Qed.

Lemma verifyEach_spec (a : API) (clientIP : list Z) (txs : list PoolL2Tx.t) r :
  verifyEach a clientIP txs = Ok r ->
  r.1 = map (PoolL2Tx.set_ClientIP clientIP) txs /\
  r.2 = map PoolL2Tx.TxID txs /\
  Forall (fun tx => verifyPoolL2Tx a tx = Ok ()) txs.
Proof.
  revert r. induction txs as [|tx rest IH]; intros r; simpl.
  - intros [= <-]. auto.
  - destruct (verifyPoolL2Tx a tx) as [[]| |] eqn:Hv; try discriminate.
    cbn [mbind result_bind].
    destruct (verifyEach a clientIP rest) as [r'| |]; try discriminate.
    cbn [mbind result_bind]. intros [= <-]. simpl.
    destruct (IH r' eq_refl) as (-> & -> & Hall). auto.
Qed.

Lemma rqFilledAt_requested (txs : list PoolL2Tx.t) (j : nat) (tx req : PoolL2Tx.t) :
  requestedAt txs j tx req -> rqFilledAt txs j tx = rqFilled req tx.
Proof. intros (rel & Hoff & Hat). unfold rqFilledAt. rewrite Hoff, Hat. reflexivity. Qed.

Lemma postAtomicPool_StatusOK (a : API) (receivedTxs : list PoolL2Tx.t)
    (clientIP : list Z) txIDs db :
  postAtomicPool a (Ok receivedTxs) clientIP = (StatusOK txIDs, db) ->
  (2 <= length receivedTxs)%nat /\
  exists out,
    length out = length receivedTxs /\
    (forall (i : nat) tx, receivedTxs !! i = Some tx ->
       exists req, requestedAt receivedTxs i tx req /\
                   out !! i = Some (rqFilled req tx)) /\
    Forall (fun tx => verifyPoolL2Tx a tx = Ok ()) out /\
    isSingleAtomicGroup (map (PoolL2Tx.set_ClientIP clientIP) out) = true /\
    AddAtomicTxsAPI (l2 a) (map (PoolL2Tx.set_ClientIP clientIP) out) = Ok db /\
    txIDs = map PoolL2Tx.TxID out.
Proof.
  unfold postAtomicPool.
  destruct (Nat.leb_spec (length receivedTxs) 1) as [|Hlen]; [discriminate|].
  pose proof (setRqFields_spec receivedTxs (length receivedTxs) 0 receivedTxs
                (rqFilledUpTo_start _) ltac:(lia)) as Hset.
  destruct (setRqFields (length receivedTxs) 0 receivedTxs) as [out| |];
    try discriminate.
  destruct Hset as [[Hlo Hout] Hreq].
  destruct (verifyEach a clientIP out) as [[stored ids]| |] eqn:Hver; try discriminate.
  destruct (verifyEach_spec _ _ _ _ Hver) as (Hst & Hids & Hall). simpl in Hst, Hids.
  subst stored ids.
  destruct (isSingleAtomicGroup _) eqn:Hsingle; [|discriminate]. cbn [negb].
  destruct (AddAtomicTxsAPI _ _) as [db'| |] eqn:Hadd; try discriminate.
  intros [= <- <-]. split; [lia|]. exists out. split; [exact Hlo|].
  split; [|auto].
  intros i tx Hi. destruct (Hreq i tx ltac:(lia) Hi) as [req Hr]. exists req.
  split; [exact Hr|]. rewrite (Hout i tx Hi).
  apply lookup_lt_Some in Hi. apply Nat.ltb_lt in Hi. rewrite Hi.
  rewrite (rqFilledAt_requested _ _ _ _ Hr). reflexivity.
Qed.

(** X10.  postAtomicPool adds txs to the pool only if they are two or more,
    the RqOffset of each is an accepted offset pointing at a tx of the
    payload, verifyPoolL2Tx accepts each of them and together they are a
    single atomic group.  What is added is the payload in its order, each
    tx with the client address filled in and, if its RqTxID is the id of
    the tx its offset points at, with the Rq fields of that tx; the reply
    lists the TxIDs as they were received.  With any other reply the pool
    is as it was. *)
Theorem postAtomicPool_accepts (a : API) (body : result (list PoolL2Tx.t))
    (clientIP : list Z) :
  (forall txIDs db, postAtomicPool a body clientIP = (StatusOK txIDs, db) ->
     exists receivedTxs stored,
       body = Ok receivedTxs /\
       (2 <= length receivedTxs)%nat /\
       length stored = length receivedTxs /\
       (forall (i : nat) tx, receivedTxs !! i = Some tx ->
          exists req,
            requestedAt receivedTxs i tx req /\
            verifyPoolL2Tx a (rqFilled req tx) = Ok () /\
            stored !! i = Some (PoolL2Tx.set_ClientIP clientIP (rqFilled req tx))) /\
       isSingleAtomicGroup stored = true /\
       AddAtomicTxsAPI (l2 a) stored = Ok db /\
       txIDs = map PoolL2Tx.TxID receivedTxs) /\
  ((forall txIDs, (postAtomicPool a body clientIP).1 <> StatusOK txIDs) ->
     (postAtomicPool a body clientIP).2 = l2 a).
Proof.
  split.
  - intros txIDs db Hok. destruct body as [receivedTxs| |]; try discriminate Hok.
    destruct (postAtomicPool_StatusOK _ _ _ _ _ Hok)
      as (Hlen & out & Hlo & Hout & Hall & Hsingle & Hadd & Hids).
    exists receivedTxs, (map (PoolL2Tx.set_ClientIP clientIP) out).
    split; [reflexivity|]. split; [exact Hlen|].
    split; [rewrite length_map; exact Hlo|].
    split; [|split; [exact Hsingle|split; [exact Hadd|]]].
    + intros i tx Hi. destruct (Hout i tx Hi) as (req & Hr & Ho). exists req.
      split; [exact Hr|]. split.
      * rewrite Forall_lookup in Hall. exact (Hall i _ Ho).
      * rewrite list_lookup_fmap, Ho. reflexivity.
    + subst txIDs. apply list_eq. intros i. rewrite !list_lookup_fmap.
      destruct (receivedTxs !! i) as [tx|] eqn:Hi.
      * destruct (Hout i tx Hi) as (req & _ & Ho). rewrite Ho. simpl.
        unfold rqFilled. destruct (bool_decide _); reflexivity.
      * apply lookup_ge_None in Hi. rewrite <- Hlo in Hi.
        apply lookup_ge_None in Hi. rewrite Hi. reflexivity.
  - unfold postAtomicPool. intros Hno.
    repeat (case_match; try reflexivity).
    exfalso. eapply Hno. subst. simpl. repeat (case_match; simplify_eq). reflexivity.
Qed.

(** X11.  What the atomic endpoint adds to the pool is a valid atomic group
    for the selector, provided every tx names, by its RqTxID, the tx its
    RqOffset points at: when postAtomicPool accepts such a payload, the txs
    it hands to the pool pass isAtomicGroupValid. *)
Theorem postAtomicPool_valid_group (a : API) (receivedTxs : list PoolL2Tx.t)
    (clientIP : list Z) (txIDs : list common.TxID) (db : L2DB) :
  postAtomicPool a (Ok receivedTxs) clientIP = (StatusOK txIDs, db) ->
  (forall (i : nat) tx req, receivedTxs !! i = Some tx ->
     requestedAt receivedTxs i tx req ->
     PoolL2Tx.RqTxID tx = PoolL2Tx.TxID req) ->
  exists stored,
    AddAtomicTxsAPI (l2 a) stored = Ok db /\
    length stored = length receivedTxs /\
    isAtomicGroupValid stored = true.
Proof.
  intros Hok Hnames.
  destruct (postAtomicPool_StatusOK _ _ _ _ _ Hok)
    as (Hlen & out & Hlo & Hout & _ & _ & Hadd & _).
  exists (map (PoolL2Tx.set_ClientIP clientIP) out).
  split; [exact Hadd|]. split; [rewrite length_map; exact Hlo|].
  unfold isAtomicGroupValid. apply isAtomicGroupValid_from_spec.
  intros k tx' Hk. simpl.
  rewrite list_lookup_fmap in Hk.
  destruct (out !! k) as [o|] eqn:Ho; [|discriminate]. injection Hk as <-.
  assert (Hlt : (k < length receivedTxs)%nat)
    by (rewrite <- Hlo; eapply lookup_lt_Some; exact Ho).
  apply lookup_lt_is_Some_2 in Hlt as [tx Htx].
  destruct (Hout k tx Htx) as (req & Hr & Ho').
  assert (o = rqFilled req tx) by congruence. subst o.
  pose proof (Hnames k tx req Htx Hr) as Hid.
  assert (Hf : rqFilled req tx = PoolL2Tx.set_Rq req tx)
    by (unfold rqFilled; rewrite (bool_decide_eq_true_2 _ Hid); reflexivity).
  rewrite Hf. clear Hf Ho Ho'.
  destruct Hr as (rel & Hoff & Hat).
  apply at_lookup in Hat as [Hp Hat].
  destruct (Hout _ req Hat) as (req2 & _ & Ho2).
  exists (PoolL2Tx.set_ClientIP clientIP (rqFilled req2 req)). split.
  - exists rel. split.
    + exact Hoff.
    + apply at_lookup. split; [exact Hp|]. rewrite list_lookup_fmap, Ho2. reflexivity.
  - unfold rqMatches, rqFilled. destruct (bool_decide _); repeat split.
Qed.

(** X12.  A payload in which the RqOffset of some tx is not an accepted
    offset pointing at a tx of the payload (an offset 0, an offset above 7,
    or one that leads before the first or past the last tx) is refused by
    the atomic endpoint with a bad request, before any tx is verified, and
    the pool is left as it was. *)
Theorem postAtomicPool_rejects_offsets (a : API) (receivedTxs : list PoolL2Tx.t)
    (clientIP : list Z) :
  (2 <= length receivedTxs)%nat ->
  (exists (i : nat) tx, receivedTxs !! i = Some tx /\
     forall req, ~ requestedAt receivedTxs i tx req) ->
  exists e,
    postAtomicPool a (Ok receivedTxs) clientIP = (BadReq e, l2 a) /\
    (e = ErrTxsNotAtomic \/ e = ErrInvalidRqOffset \/ e = ErrRqOffsetOutOfBounds).
Proof.
  intros Hlen (i & tx & Hi & Hno). unfold postAtomicPool.
  destruct (Nat.leb_spec (length receivedTxs) 1) as [|_]; [lia|].
  pose proof (setRqFields_spec receivedTxs (length receivedTxs) 0 receivedTxs
                (rqFilledUpTo_start _) ltac:(lia)) as Hset.
  destruct (setRqFields (length receivedTxs) 0 receivedTxs) as [out|e|].
  - destruct Hset as [_ Hreq]. destruct (Hreq i tx ltac:(lia) Hi) as [req Hr].
    destruct (Hno req Hr).
  - destruct Hset as [He _]. exists e. split; [reflexivity|exact He].
  - destruct Hset.
Qed.

End atomic_pool.

(** ** Single atomic groups *)

Section single_group.
Context {F64 : Float64}.

Lemma isSingleAtomicGroup_true (txs : list PoolL2Tx.t) :
  isSingleAtomicGroup txs = true -> requestsInside txs /\ singleComponent txs.
Proof.
  unfold isSingleAtomicGroup.
  destruct (addEdges (idToPos txs) 0 txs (graph.New (length txs))) as [g|] eqn:Hadd;
    [|discriminate].
  intros Hone. apply bool_decide_eq_true in Hone.
  destruct (requestGraph_edges txs g Hadd) as (Hord & Hwf & Hedge).
  apply (StrongComponents_single g Hwf) in Hone as [Hpos Hall]. rewrite Hord in Hpos, Hall.
  split.
  - intros tx Htx.
    assert (Hgood : ~ (PoolL2Tx.RqTxID tx = common.EmptyTxID \/
                       idToPos txs !! PoolL2Tx.RqTxID tx = None)).
    { intros Hbad.
      assert (Hn : addEdges (idToPos txs) 0 txs (graph.New (length txs)) = None)
        by (apply addEdges_None; eauto).
      congruence. }
    split; [tauto|].
    destruct (idToPos txs !! PoolL2Tx.RqTxID tx) as [j|] eqn:Hm; [|tauto].
    apply idToPos_Some in Hm as [(tx' & Hj & Hid) _].
    exists tx'. split; [eapply list_elem_of_lookup_2; exact Hj|exact Hid].
  - split.
    + intros ->. simpl in Hpos. lia.
    + intros i j Hi Hj. apply (rtc_iff _ _ _ _ Hedge). apply Hall; assumption.
Qed.

Lemma requests_into (txs : list PoolL2Tx.t) (i j : nat) :
  i <> j -> rtc (requests txs) i j ->
  exists tx, tx ∈ txs /\ names txs (PoolL2Tx.RqTxID tx) j.
Proof.
  intros Hne Hrtc. apply rtc_inv_r in Hrtc as [->|(k & _ & (tx & Hk & Hn))];
    [contradiction|].
  exists tx. split; [eapply list_elem_of_lookup_2; exact Hk|exact Hn].
Qed.

Lemma single_requested (txs : list PoolL2Tx.t) (j : nat) (tx' : PoolL2Tx.t) :
  requestsInside txs -> singleComponent txs -> txs !! j = Some tx' ->
  exists tx, tx ∈ txs /\ names txs (PoolL2Tx.RqTxID tx) j.
Proof.
  intros Hin [Hne Hall] Hj.
  pose proof (lookup_lt_Some _ _ _ Hj) as Hlt.
  destruct txs as [|tx0 [|tx1 rest]]; [contradiction| |].
  - (* one tx: it requests itself *)
    destruct j; [|simpl in Hlt; lia]. injection Hj as <-.
    destruct (Hin tx0 ltac:(apply elem_of_cons; left; reflexivity))
      as [_ (tx & Htx & Hid)].
    apply list_elem_of_singleton in Htx. subst tx.
    exists tx0. split; [apply elem_of_cons; left; reflexivity|].
    split; [exists tx0; split; [reflexivity|exact Hid]|].
    intros k tx' Hk Hk'. destruct k; [lia|discriminate Hk'].
  - destruct (decide (j = 0%nat)) as [->|Hj0].
    + apply (requests_into _ 1%nat 0%nat); [lia|]. apply Hall; simpl; lia.
    + apply (requests_into _ 0%nat j); [lia|]. apply Hall; [simpl; lia|exact Hlt].
Qed.

(** X13.  In a payload that isSingleAtomicGroup accepts, the TxIDs are
    pairwise different, the requested ids (RqTxID) are pairwise different
    too, and the requested ids are the TxIDs in some order: every tx
    requests exactly one tx of the payload and is requested by exactly
    one. *)
Theorem isSingleAtomicGroup_cycle_ids (txs : list PoolL2Tx.t) :
  isSingleAtomicGroup txs = true ->
  NoDup (map PoolL2Tx.TxID txs) /\
  NoDup (map PoolL2Tx.RqTxID txs) /\
  Permutation (map PoolL2Tx.RqTxID txs) (map PoolL2Tx.TxID txs).
Proof.
  intros Hs. apply isSingleAtomicGroup_true in Hs as [Hin Hsc].
  assert (Hids : NoDup (map PoolL2Tx.TxID txs)).
  { apply NoDup_alt. intros i j id Hi Hj.
    rewrite list_lookup_fmap in Hi, Hj.
    destruct (txs !! i) as [a|] eqn:Hai; [|discriminate]. injection Hi as Hi.
    destruct (txs !! j) as [b|] eqn:Hbj; [|discriminate]. injection Hj as Hj.
    assert (Hle : forall (i j : nat) a b, txs !! i = Some a -> txs !! j = Some b ->
                    PoolL2Tx.TxID a = PoolL2Tx.TxID b -> ~ (i < j)%nat).
    { clear i j id a b Hai Hbj Hi Hj. intros i j a b Hai Hbj Hab Hlt.
      destruct (single_requested txs i a Hin Hsc Hai) as (tx & _ & [(a' & Ha' & Hid) Hlast]).
      assert (a' = a) by congruence. subst a'.
      apply (Hlast j b Hlt Hbj). congruence. }
    destruct (lt_eq_lt_dec i j) as [[Hlt| ->]|Hgt]; [|reflexivity|].
    - destruct (Hle i j a b Hai Hbj ltac:(congruence) Hlt).
    - destruct (Hle j i b a Hbj Hai ltac:(congruence) Hgt). }
  assert (Hincl : incl (map PoolL2Tx.TxID txs) (map PoolL2Tx.RqTxID txs)).
  { intros id Hid. apply in_map_iff in Hid as (tx' & <- & Htx').
    apply list_elem_of_In, list_elem_of_lookup in Htx' as [j Hj].
    destruct (single_requested txs j tx' Hin Hsc Hj) as (tx & Htx & [(a & Ha & Hid) _]).
    assert (a = tx') by congruence. subst a.
    apply in_map_iff. exists tx. split; [congruence|]. apply list_elem_of_In. exact Htx. }
  assert (Hrq : NoDup (map PoolL2Tx.RqTxID txs)).
  { apply NoDup_ListNoDup. eapply NoDup_incl_NoDup; [apply NoDup_ListNoDup; exact Hids| |exact Hincl].
    rewrite !length_map. lia. }
  split; [exact Hids|]. split; [exact Hrq|].
  apply NoDup_Permutation; [exact Hrq|exact Hids|].
  intros id. split.
  - intros Hid. apply list_elem_of_In, in_map_iff in Hid as (tx & <- & Htx).
    apply list_elem_of_In in Htx. destruct (Hin tx Htx) as [_ (tx' & Htx' & Hid)].
    rewrite <- Hid. apply list_elem_of_In, in_map. apply list_elem_of_In. exact Htx'.
  - intros Hid. apply list_elem_of_In. apply Hincl. apply list_elem_of_In. exact Hid.
Qed.

End single_group.

(** ** The atomic group filters *)

Section filters.
Context {F64 : Float64} {CC : common.Consts} {SDB : StateDBOps} {SE : SelectorEnv}.

(** X14.  filterFailedAtomicGroups splits the txs in two, keeping their
    order: the txs to process are those of no atomic group and those of the
    groups not recorded as failed, untouched; the filtered txs are those of
    the failed groups, each unchanged but for its error, which is the
    reason of the failure for the tx that made the group fail and names
    that tx for the others.  With no failed group nothing is filtered. *)
Theorem filterFailedAtomicGroups_spec (txs : list PoolL2Tx.t)
    (failedGroups : gmap common.AtomicGroupID failedAtomicGroup) :
  (filterFailedAtomicGroups txs failedGroups).1 = notFailedTxs failedGroups txs /\
  Forall2 (markedFailed failedGroups) (failedTxs failedGroups txs)
    (filterFailedAtomicGroups txs failedGroups).2 /\
  (failedGroups = ∅ -> filterFailedAtomicGroups txs failedGroups = (txs, [])).
Proof.
  assert (Hmain : (filterFailedAtomicGroups txs failedGroups).1
                  = notFailedTxs failedGroups txs /\
                  Forall2 (markedFailed failedGroups) (failedTxs failedGroups txs)
                    (filterFailedAtomicGroups txs failedGroups).2).
  { unfold notFailedTxs, failedTxs.
    induction txs as [|tx rest [IH1 IH2]]; [split; [reflexivity|constructor]|].
    cbn [filterFailedAtomicGroups].
    destruct (filterFailedAtomicGroups rest failedGroups) as [toProcess filtered].
    simpl in IH1, IH2.
    case_bool_decide as Hat.
    - rewrite filter_cons_True by tauto. rewrite filter_cons_False by tauto.
      simpl. split; [f_equal; exact IH1|exact IH2].
    - destruct (failedGroups !! PoolL2Tx.AtomicGroupID tx) as [failed|] eqn:Hf.
      + rewrite filter_cons_False by (intros Hn; apply Hn; split; [exact Hat|eauto]).
        rewrite filter_cons_True by (split; [exact Hat|eauto]).
        simpl. split; [exact IH1|]. constructor; [|exact IH2].
        exists failed. do 3 eexists. split; [exact Hf|]. split; [reflexivity|].
        unfold setInfoForFailedAtomicTx.
        case_bool_decide as Hid; simpl; split; intros Hx; try contradiction; auto.
      + rewrite filter_cons_True by (intros [_ [x Hx]]; congruence).
        rewrite filter_cons_False by (intros [_ [x Hx]]; congruence).
        simpl. split; [f_equal; exact IH1|exact IH2]. }
  destruct Hmain as [H1 H2]. split; [exact H1|]. split; [exact H2|].
  intros ->. clear H1 H2. induction txs as [|tx rest IH]; [reflexivity|].
  cbn [filterFailedAtomicGroups]. rewrite IH, lookup_empty.
  case_bool_decide; reflexivity.
Qed.

Lemma separateGroups_separateAtomic (txs txsToProcess : list PoolL2Tx.t) (m : groupsMap) :
  separateGroups txs txsToProcess m
  = ((separateAtomic txs m txsToProcess).2, (separateAtomic txs m txsToProcess).1).
Proof.
  revert txsToProcess m. induction txs as [|tx rest IH]; intros tp m; simpl;
    [reflexivity|].
  case_bool_decide as He.
  - rewrite bool_decide_eq_false_2 by (intros Hn; exact (Hn He)). apply IH.
  - rewrite bool_decide_eq_true_2 by exact He. apply IH.
Qed.

Lemma validateGroups_spec (groups : list (list PoolL2Tx.t))
    (txsToProcess filteredTxs : list PoolL2Tx.t) :
  validateGroups groups txsToProcess filteredTxs
  = (txsToProcess ++ concat (filter (fun g => isAtomicGroupValid g = true) groups),
     filteredTxs
     ++ concat (map (map markInvalid)
                  (filter (fun g => isAtomicGroupValid g = false) groups))).
Proof.
  revert txsToProcess filteredTxs.
  induction groups as [|grp rest IH]; intros tp fl; simpl.
  - rewrite !app_nil_r. reflexivity.
  - destruct (isAtomicGroupValid grp) eqn:Hv; cbn [negb]; rewrite IH.
    + rewrite filter_cons_True by exact Hv.
      rewrite filter_cons_False by (rewrite Hv; discriminate).
      simpl. rewrite <- app_assoc. reflexivity.
    + rewrite filter_cons_False by (rewrite Hv; discriminate).
      rewrite filter_cons_True by exact Hv.
      simpl. rewrite <- app_assoc. reflexivity.
Qed.

Lemma ofGroup_all g group :
  uniformGroup group -> groupKey group = g -> ofGroup g group = group.
Proof.
  intros (_ & _ & Hall) <-. apply filter_all. exact Hall.
Qed.

Lemma keys_filter (P : list PoolL2Tx.t -> Prop) `{forall x, Decision (P x)}
    (groups : list (list PoolL2Tx.t)) g :
  g ∉ map groupKey groups -> g ∉ map groupKey (filter P groups).
Proof.
  intros Hn Hin. apply Hn. apply list_elem_of_fmap in Hin as (grp & -> & Hgrp).
  apply list_elem_of_filter in Hgrp as [_ Hgrp].
  apply list_elem_of_fmap. exists grp. auto.
Qed.

Lemma Forall_filter_sub {A} (P Q : A -> Prop) `{forall x, Decision (P x)} (l : list A) :
  Forall Q l -> Forall Q (filter P l).
Proof.
  rewrite !Forall_forall. intros Hall x Hx. apply list_elem_of_filter in Hx as [_ Hx].
  apply Hall. exact Hx.
Qed.

Lemma ofGroup_concat_filter (P : list PoolL2Tx.t -> Prop) `{forall x, Decision (P x)}
    (groups : list (list PoolL2Tx.t)) g :
  wfGroups groups ->
  ofGroup g (concat (filter P groups))
  = if decide (P (ofGroup g (concat groups))) then ofGroup g (concat groups) else [].
Proof.
  intros [Hall Hnd]. induction groups as [|grp rest IH]; simpl.
  - destruct (decide _); reflexivity.
  - apply Forall_cons in Hall as [Hu Hall]. simpl in Hnd.
    apply NoDup_cons in Hnd as [Hk Hnd]. specialize (IH Hall Hnd).
    rewrite ofGroup_app.
    destruct (decide (groupKey grp = g)) as [Hg|Hg].
    + rewrite (ofGroup_all _ _ Hu Hg).
      rewrite (ofGroup_concat_other g rest Hall) by (rewrite <- Hg; exact Hk).
      rewrite app_nil_r.
      assert (Hrest : ofGroup g (concat (filter P rest)) = []).
      { apply ofGroup_concat_other; [apply Forall_filter_sub; exact Hall|].
        apply keys_filter. rewrite <- Hg. exact Hk. }
      destruct (decide (P grp)) as [Hp|Hp].
      * rewrite filter_cons_True by exact Hp. simpl.
        rewrite ofGroup_app, (ofGroup_all _ _ Hu Hg), Hrest, app_nil_r. reflexivity.
      * rewrite filter_cons_False by exact Hp. exact Hrest.
    + rewrite (ofGroup_other g grp Hu Hg). simpl.
      destruct (decide (P grp)) as [Hp|Hp].
      * rewrite filter_cons_True by exact Hp. simpl.
        rewrite ofGroup_app, (ofGroup_other g grp Hu Hg). exact IH.
      * rewrite filter_cons_False by exact Hp. exact IH.
Qed.

Lemma ofGroup_markInvalid g (l : list PoolL2Tx.t) :
  ofGroup g (map markInvalid l) = map markInvalid (ofGroup g l).
Proof.
  unfold ofGroup. induction l as [|tx rest IH]; [reflexivity|]. simpl.
  destruct (decide (PoolL2Tx.AtomicGroupID tx = g)) as [Hg|Hg].
  - rewrite !filter_cons_True by exact Hg. simpl. rewrite IH. reflexivity.
  - rewrite !filter_cons_False by exact Hg. exact IH.
Qed.

Lemma concat_map_map {A B} (f : A -> B) (ls : list (list A)) :
  concat (map (map f) ls) = map f (concat ls).
Proof.
  induction ls as [|l rest IH]; [reflexivity|]. simpl. rewrite IH, map_app. reflexivity.
Qed.

Lemma atomic_of_groups (groups : list (list PoolL2Tx.t)) :
  Forall uniformGroup groups -> nonAtomicTxsOf (concat groups) = [].
Proof.
  intros Hall. apply filter_none. intros tx Htx He.
  apply elem_of_concat in Htx as (grp & Hgrp & Htx).
  rewrite Forall_forall in Hall. destruct (Hall grp Hgrp) as (_ & Hk & Hsame).
  apply Hk. rewrite <- (Hsame tx Htx). exact He.
Qed.

Lemma nonAtomicTxsOf_markInvalid (l : list PoolL2Tx.t) :
  nonAtomicTxsOf (map markInvalid l) = map markInvalid (nonAtomicTxsOf l).
Proof. apply (ofGroup_markInvalid common.EmptyAtomicGroupID). Qed.

Context {SL : SelectorEnvLaws}.

(** X15.  filterInvalidAtomicGroups keeps or drops an atomic group as a
    whole: the txs to process begin with the txs of no group, in their
    order, followed by atomic txs only; of each valid group (by
    isAtomicGroupValid, on its txs in the order of the list) every tx is
    kept, in that order, and none is filtered; of each invalid group no tx
    is kept and every tx is filtered, in that order, unchanged but for the
    error of an invalid atomic group.  No tx of no group is filtered. *)
Theorem filterInvalidAtomicGroups_spec (txs : list PoolL2Tx.t) :
  let txsToProcess := (filterInvalidAtomicGroups txs).1 in
  let filteredTxs := (filterInvalidAtomicGroups txs).2 in
  (exists kept, txsToProcess = nonAtomicTxsOf txs ++ kept /\ nonAtomicTxsOf kept = []) /\
  nonAtomicTxsOf filteredTxs = [] /\
  forall g, g <> common.EmptyAtomicGroupID ->
    if isAtomicGroupValid (ofGroup g txs)
    then ofGroup g txsToProcess = ofGroup g txs /\ ofGroup g filteredTxs = []
    else ofGroup g txsToProcess = [] /\
         ofGroup g filteredTxs = map markInvalid (ofGroup g txs).
Proof.
  cbv zeta. unfold filterInvalidAtomicGroups.
  rewrite separateGroups_separateAtomic.
  pose proof (separateAtomic_spec txs [] []) as Hsep.
  destruct (separateAtomic txs [] []) as [m na]. cbn [fst snd].
  destruct Hsep as (Hwf & Hna & _ & Hof).
  { split; [constructor|constructor]. }
  simpl in Hna, Hof.
  rewrite validateGroups_spec. cbn [fst snd app].
  set (groups := map snd (rangeOrder m)).
  assert (Hperm : Permutation (map snd m) groups)
    by (subst groups; apply Permutation_map; symmetry; apply rangeOrder_perm).
  destruct (wfGroupsMap_groups m Hwf) as [Hwfm _].
  pose proof (wfGroups_perm _ _ Hperm Hwfm) as Hwfg.
  assert (Hnon : na = nonAtomicTxsOf txs).
  { rewrite Hna. unfold nonAtomicTxsOf. apply list_filter_iff. intros tx.
    unfold isAtomicTx. rewrite bool_decide_eq_false. split.
    - intros Hn. destruct (decide (PoolL2Tx.AtomicGroupID tx = common.EmptyAtomicGroupID));
        [assumption|contradiction].
    - intros He Hn. exact (Hn He). }
  assert (HG : forall g, g <> common.EmptyAtomicGroupID ->
                 ofGroup g (concat groups) = ofGroup g txs).
  { intros g Hg. rewrite (ofGroup_concat_perm g _ _ Hperm Hwfm). apply Hof. exact Hg. }
  split; [|split].
  - eexists. split; [rewrite Hnon; reflexivity|].
    apply atomic_of_groups. apply Forall_filter_sub. apply Hwfg.
  - rewrite concat_map_map, nonAtomicTxsOf_markInvalid.
    rewrite atomic_of_groups by (apply Forall_filter_sub; apply Hwfg). reflexivity.
  - intros g Hg. rewrite ofGroup_app.
    assert (Hna0 : ofGroup g na = []).
    { rewrite Hnon. apply filter_none. intros tx Htx He.
      apply list_elem_of_filter in Htx as [Htx _]. congruence. }
    rewrite Hna0. cbn [app].
    rewrite concat_map_map, ofGroup_markInvalid.
    rewrite (ofGroup_concat_filter (fun g => isAtomicGroupValid g = true) groups g Hwfg).
    rewrite (ofGroup_concat_filter (fun g => isAtomicGroupValid g = false) groups g Hwfg).
    rewrite (HG g Hg).
    destruct (isAtomicGroupValid (ofGroup g txs)) eqn:Hv.
    + rewrite decide_True by reflexivity. rewrite decide_False by discriminate.
      split; reflexivity.
    + rewrite decide_False by discriminate. rewrite decide_True by reflexivity.
      split; reflexivity.
Qed.

End filters.

(** ** The mean fee of the atomic groups *)

Section mean_fee.
Context {F64 : Float64} {CC : common.Consts} {SDB : StateDBOps} {SE : SelectorEnv}.

Lemma sumAtomicGroupsFee_spec (txs : list PoolL2Tx.t)
    (txsPerGroup : gmap common.AtomicGroupID Z)
    (groupAverageFee : gmap common.AtomicGroupID float64) g :
  let r := sumAtomicGroupsFee txs txsPerGroup groupAverageFee in
  (r.1 !! g, r.2 !! g)
  = if decide (g = common.EmptyAtomicGroupID)
    then (txsPerGroup !! g, groupAverageFee !! g)
    else fold_left countFee (ofGroup g txs) (txsPerGroup !! g, groupAverageFee !! g).
Proof.
  cbv zeta. revert txsPerGroup groupAverageFee.
  induction txs as [|tx rest IH]; intros cnt sum.
  - simpl. destruct (decide _); reflexivity.
  - cbn [sumAtomicGroupsFee]. unfold ofGroup.
    case_bool_decide as He.
    + rewrite IH. destruct (decide (g = common.EmptyAtomicGroupID)) as [Hg|Hg];
        [reflexivity|].
      rewrite filter_cons_False by congruence. reflexivity.
    + destruct (decide (PoolL2Tx.AtomicGroupID tx = g)) as [Htx|Htx].
      * rewrite filter_cons_True by exact Htx. simpl fold_left.
        rewrite decide_False by congruence.
        destruct (sum !! PoolL2Tx.AtomicGroupID tx) as [fee|] eqn:Hs;
          rewrite IH, decide_False by congruence; subst g;
          rewrite !lookup_insert_eq; unfold countFee; simpl; rewrite Hs; reflexivity.
      * rewrite filter_cons_False by exact Htx.
        destruct (sum !! PoolL2Tx.AtomicGroupID tx) as [fee|] eqn:Hs;
          rewrite IH; rewrite !lookup_insert_ne by exact Htx; reflexivity.
Qed.

Lemma countFee_fold (txs : list PoolL2Tx.t) (n : Z) (fee : float64) :
  fold_left countFee txs (Some n, Some fee)
  = (Some (n + Z.of_nat (length txs)), Some (addFees fee txs)).
Proof.
  revert n fee. induction txs as [|tx rest IH]; intros n fee; simpl.
  - rewrite Z.add_0_r. reflexivity.
  - unfold countFee at 2. simpl. rewrite IH. f_equal. f_equal. lia.
Qed.

(** X16.  calculateAtomicGroupsAverageFee maps the id of every atomic group
    that has a tx in the list to the mean of the absolute fees of its txs
    (their sum, added up in the order of the list, divided by their
    number), and holds no other key: none for the empty group id, and none
    for a group without txs. *)
Theorem calculateAtomicGroupsAverageFee_spec (txs : list PoolL2Tx.t)
    (g : common.AtomicGroupID) :
  calculateAtomicGroupsAverageFee txs !! g
  = if decide (g = common.EmptyAtomicGroupID) then None else meanFee (ofGroup g txs).
Proof.
  unfold calculateAtomicGroupsAverageFee.
  pose proof (sumAtomicGroupsFee_spec txs ∅ ∅ g) as Hsum. cbv zeta in Hsum.
  destruct (sumAtomicGroupsFee txs ∅ ∅) as [cnt sum]. cbn [fst snd] in Hsum.
  rewrite map_lookup_imap. rewrite !lookup_empty in Hsum.
  destruct (decide (g = common.EmptyAtomicGroupID)) as [Hg|Hg].
  - injection Hsum as _ ->. reflexivity.
  - destruct (ofGroup g txs) as [|tx rest].
    + simpl in Hsum. injection Hsum as _ ->. reflexivity.
    + simpl fold_left in Hsum. unfold countFee at 2 in Hsum. simpl in Hsum.
      rewrite countFee_fold in Hsum. injection Hsum as -> ->.
      simpl. do 2 f_equal. f_equal. lia.
Qed.

End mean_fee.

(** ** The compressed data of the requested tx *)

Section codec_rq.
Context {F64 : Float64} {CC : common.Consts} {CD : Codec}.

(** X17.  Once the loop of postAtomicPool has copied the fields of the
    requested tx into the Rq fields of a tx, RqTxCompressedDataV2 of that
    tx is TxCompressedDataV2 of the requested tx: the same number, or the
    same error. *)
Theorem RqTxCompressedDataV2_requested (req tx : PoolL2Tx.t) :
  (RqTxCompressedDataV2 (PoolL2Tx.set_Rq req tx)).2 = (TxCompressedDataV2 req).2.
Proof.
  unfold RqTxCompressedDataV2, TxCompressedDataV2,
    RqTxCompressedDataV2_bytes, TxCompressedDataV2_bytes.
  cbn [PoolL2Tx.RqAmount PoolL2Tx.set_Rq].
  destruct (PoolL2Tx.Amount req) as [amount|] eqn:Ha; cbn [snd].
  - cbn [PoolL2Tx.RqAmount PoolL2Tx.RqToBJJ PoolL2Tx.RqFee PoolL2Tx.RqNonce
         PoolL2Tx.RqTokenID PoolL2Tx.RqToIdx PoolL2Tx.RqFromIdx PoolL2Tx.set_Rq].
    rewrite Ha. reflexivity.
  - reflexivity.
Qed.

End codec_rq.

(** ** What every selection returns *)

Section selection_more.
Context {F64 : Float64} {CC : common.Consts} {SDB : StateDBOps} {SE : SelectorEnv}.

Lemma Z_ltb_sorted (l : list Z) : StronglySorted Z.le (sort_SliceStable Z.ltb l).
Proof.
  eapply StronglySorted_impl_elem.
  - apply (sort_SliceStable_sorted Z.ltb).
    + intros a. apply Z.ltb_irrefl.
    + intros a b c. rewrite !Z.ltb_lt. lia.
    + intros a b c. rewrite !Z.ltb_lt. lia.
  - intros a b _ _ H. simpl in H. apply Z.ltb_ge in H. exact H.
Qed.

Section loop_more.
Variable verifyTxs : verifyTxs_t.
Variable selectionConfig : Config.t.
Variable l1UserFutureTxs : list L1Tx.t.
Variable coord : CoordAccount.
Variable l1UserTxs : list L1Tx.t.
Variable restart : gmap common.AtomicGroupID failedAtomicGroup -> TxProcessor -> run.
Variable failedAtomicGroups : gmap common.AtomicGroupID failedAtomicGroup.

Lemma selectLoop_coordIdxs fuel st sel :
  (forall failed tp sel', restart failed tp = Returns (Ok sel') ->
     StronglySorted Z.le (sel_coordIdxs sel') /\
     (length (sel_coordIdxs sel') <= length (sel_l2Txs sel'))%nat) ->
  (length (coordIdxs st) <= length (selectedTxs st))%nat ->
  selectLoop verifyTxs selectionConfig l1UserFutureTxs coord l1UserTxs restart
    failedAtomicGroups fuel st = Returns (Ok sel) ->
  StronglySorted Z.le (sel_coordIdxs sel) /\
  (length (sel_coordIdxs sel) <= length (sel_l2Txs sel))%nat.
Proof.
  intros Hrestart. revert st. induction fuel as [|fuel IH]; intros st Hlen; simpl;
    [discriminate|].
  destruct (pending st) as [|s rest]; [discriminate|].
  destruct (ev s); repeat case_match; try discriminate;
    try (apply IH; simplify_eq; simpl; rewrite ?length_app; simpl; lia).
  - apply Hrestart.
  - intros [= <-]. simpl. split; [apply Z_ltb_sorted|].
    etransitivity; [|exact Hlen].
    apply Nat.eq_le_incl, Permutation_length, sort_SliceStable_perm.
Qed.
End loop_more.

(** X18.  Whatever the verifier sends, the coordinator idxs that
    GetL1L2TxSelection returns are in ascending order and are not more than
    the selected L2 txs: none when no L2 tx is selected. *)
Theorem GetL1L2TxSelection_coordIdxs (verifyTxs : verifyTxs_t) (attempts fuel : nat)
    (txsel : TxSelector) (selectionConfig : Config.t)
    (l1UserTxs l1UserFutureTxs : list L1Tx.t) (sel : selection) :
  GetL1L2TxSelection verifyTxs attempts fuel txsel selectionConfig
    l1UserTxs l1UserFutureTxs = Returns (Ok sel) ->
  StronglySorted Z.le (sel_coordIdxs sel) /\
  (length (sel_coordIdxs sel) <= length (sel_l2Txs sel))%nat.
Proof.
  unfold GetL1L2TxSelection, getL1L2TxSelection.
  generalize (∅ : gmap common.AtomicGroupID failedAtomicGroup) as failed.
  generalize (localAccountsDB txsel) as tp.
  revert l1UserTxs sel.
  induction attempts as [|attempts IH]; intros l1 sel tp failed; simpl; [discriminate|].
  destruct (processL1UserTxs (clearAccumulatedFees tp) l1) as [[tp1 l1']| |];
    try discriminate.
  destruct (GetPendingTxs (l2db txsel)) as [l2TxsFromDB| |]; try discriminate.
  destruct (filterFailedAtomicGroups l2TxsFromDB failed) as [tmp discarded].
  destruct (filterInvalidAtomicGroups tmp) as [selectable discarded'].
  destruct (length selectable =? 0)%nat.
  - destruct (MakeCheckpoint tp1); try discriminate. intros [= <-]. simpl.
    split; [constructor|lia].
  - apply selectLoop_coordIdxs; [|simpl; lia].
    intros failed' tp' sel' Hre. eapply IH. exact Hre.
Qed.

Context {SL : SelectorEnvLaws}.

Lemma filterInvalidAtomicGroups_nil : filterInvalidAtomicGroups [] = ([], []).
Proof.
  unfold filterInvalidAtomicGroups. simpl.
  pose proof (rangeOrder_perm []) as Hp. apply Permutation_nil_r in Hp.
  rewrite Hp. reflexivity.
Qed.

(** X19.  With no pending tx in the pool, GetL1L2TxSelection processes the
    L1 user txs, makes the checkpoint and returns them alone: no
    coordinator idx, no authorization, no L1 coordinator tx, no L2 tx and
    nothing discarded.  The verifier is not started, and the errors are
    those of the processor and of the checkpoint. *)
Theorem GetL1L2TxSelection_empty_pool (verifyTxs : verifyTxs_t) (attempts fuel : nat)
    (txsel : TxSelector) (selectionConfig : Config.t)
    (l1UserTxs l1UserFutureTxs : list L1Tx.t) :
  GetPendingTxs (l2db txsel) = Ok [] ->
  GetL1L2TxSelection verifyTxs (S attempts) fuel txsel selectionConfig
    l1UserTxs l1UserFutureTxs
  = Returns (r ← processL1UserTxs (clearAccumulatedFees (localAccountsDB txsel)) l1UserTxs;
             tp ← MakeCheckpoint r.1;
             Ok (mkSelection [] [] r.2 [] [] [] tp)).
Proof.
  intros Hpool. unfold GetL1L2TxSelection, getL1L2TxSelection. simpl.
  destruct (processL1UserTxs _ l1UserTxs) as [[tp l1']| |]; try reflexivity.
  rewrite Hpool. simpl. rewrite filterInvalidAtomicGroups_nil. simpl.
  destruct (MakeCheckpoint tp); reflexivity.
Qed.

End selection_more.

(** ** Atomic groups stay together *)

Section consecutive.
Context {F64 : Float64} {SE : SelectorEnv} {SL : SelectorEnvLaws}.

Lemma combine_block (atomicGroupsFee : gmap common.AtomicGroupID float64)
    (nonAtomicTxs : list PoolL2Tx.t) (groups : list (list PoolL2Tx.t)) grp :
  grp ∈ groups ->
  exists before after,
    combine atomicGroupsFee nonAtomicTxs groups = before ++ grp ++ after.
Proof.
  revert groups. induction nonAtomicTxs as [|tx na IHna]; intros groups Hgrp.
  - rewrite combine_nil. apply list_elem_of_split in Hgrp as (l1 & l2 & ->).
    exists (concat l1), (concat l2). rewrite concat_app. reflexivity.
  - induction groups as [|g gs IHgs]; [inversion Hgrp|].
    rewrite combine_cons_cons. destruct (f64_gtb _ _).
    + destruct (IHna (g :: gs) Hgrp) as (before & after & ->).
      exists (tx :: before), after. reflexivity.
    + apply elem_of_cons in Hgrp as [->|Hgrp].
      * exists [], (combine atomicGroupsFee (tx :: na) gs). reflexivity.
      * destruct (IHgs Hgrp) as (before & after & ->).
        exists (g ++ before), after. rewrite <- app_assoc. reflexivity.
Qed.

Lemma ofGroup_concat_member (groups : list (list PoolL2Tx.t)) grp :
  wfGroups groups -> grp ∈ groups ->
  ofGroup (groupKey grp) (concat groups) = grp.
Proof.
  intros [Hall Hnd] Hgrp. induction groups as [|g0 rest IH]; [inversion Hgrp|].
  apply Forall_cons in Hall as [Hu Hall]. simpl in Hnd.
  apply NoDup_cons in Hnd as [Hk Hnd].
  simpl. rewrite ofGroup_app. apply elem_of_cons in Hgrp as [->|Hgrp].
  - rewrite (ofGroup_all _ _ Hu eq_refl).
    rewrite (ofGroup_concat_other _ rest Hall Hk). apply app_nil_r.
  - assert (Hne : groupKey g0 <> groupKey grp).
    { intros Heq. apply Hk. rewrite Heq. apply list_elem_of_fmap. exists grp. auto. }
    rewrite (ofGroup_other _ g0 Hu Hne). simpl. apply IH; assumption.
Qed.

Lemma ofGroup_concat_key (groups : list (list PoolL2Tx.t)) g :
  Forall uniformGroup groups -> ofGroup g (concat groups) <> [] ->
  exists grp, grp ∈ groups /\ groupKey grp = g.
Proof.
  intros Hall Hne.
  destruct (decide (g ∈ map groupKey groups)) as [Hin|Hnin].
  - apply list_elem_of_fmap in Hin as (grp & -> & Hgrp). eauto.
  - destruct Hne. apply ofGroup_concat_other; assumption.
Qed.

(** X20.  In the result of sortL2Txs the txs of an atomic group stand next
    to each other, in the order in which they were given: the result is
    some txs, then the whole group, then the remaining txs. *)
Theorem sortL2Txs_consecutive (l2Txs : list PoolL2Tx.t)
    (atomicGroupsFee : gmap common.AtomicGroupID float64) (g : common.AtomicGroupID) :
  g <> common.EmptyAtomicGroupID ->
  exists before after,
    sortL2Txs l2Txs atomicGroupsFee = before ++ ofGroup g l2Txs ++ after /\
    ofGroup g before = [] /\ ofGroup g after = [].
Proof.
  intros Hg.
  assert (Hsplit : (exists before after,
            sortL2Txs l2Txs atomicGroupsFee = before ++ ofGroup g l2Txs ++ after) /\
            ofGroup g (sortL2Txs l2Txs atomicGroupsFee) = ofGroup g l2Txs).
  { unfold sortL2Txs.
    pose proof (separateAtomic_spec l2Txs [] []) as Hsep.
    destruct (separateAtomic l2Txs [] []) as [m na0].
    destruct Hsep as (Hwf & Hna0 & _ & Hog).
    { split; constructor. }
    simpl in Hna0, Hog.
    set (less := fun gi gj : list PoolL2Tx.t =>
                   f64_gtb (groupFee atomicGroupsFee gi) (groupFee atomicGroupsFee gj)).
    set (groups := sort_SliceStable less (map snd (rangeOrder m))).
    destruct (wfGroupsMap_groups m Hwf) as [Hwfg _].
    assert (Hpg : Permutation (map snd m) groups).
    { unfold groups. rewrite sort_SliceStable_perm. apply Permutation_map.
      symmetry. apply rangeOrder_perm. }
    pose proof (wfGroups_perm _ _ Hpg Hwfg) as Hwfs.
    assert (HG : ofGroup g (concat groups) = ofGroup g l2Txs).
    { rewrite (ofGroup_concat_perm g _ _ Hpg Hwfg). apply Hog. exact Hg. }
    split.
    - destruct (ofGroup g l2Txs) as [|tx0 l0] eqn:Hl.
      + eexists _, []. rewrite app_nil_r. symmetry. apply app_nil_r.
      + destruct (ofGroup_concat_key groups g (proj1 Hwfs)) as (grp & Hgrp & Hk);
          [rewrite HG; discriminate|].
        pose proof (ofGroup_concat_member groups grp Hwfs Hgrp) as Hm.
        rewrite Hk, HG in Hm. rewrite Hm.
        apply combine_block. exact Hgrp.
    - rewrite combine_ofGroup; [exact HG|].
      intros x Hx Hgx.
      rewrite (sort_Slice_perm lessNonAtomic na0), Hna0 in Hx.
      apply list_elem_of_filter in Hx as [Hx _]. unfold isAtomicTx in Hx.
      apply bool_decide_eq_false_1 in Hx. apply Hx. congruence. }
  destruct Hsplit as [(before & after & Hs) Hw]. exists before, after.
  split; [exact Hs|].
  rewrite Hs, !ofGroup_app in Hw.
  assert (Hidem : ofGroup g (ofGroup g l2Txs) = ofGroup g l2Txs).
  { apply filter_all. intros x Hx. apply list_elem_of_filter in Hx as [Hx _]. exact Hx. }
  rewrite Hidem in Hw.
  apply (f_equal length) in Hw. rewrite !length_app in Hw.
  split; apply length_zero_iff_nil; lia.
Qed.

End consecutive.

(** * Examples *)

(** The order of Z has the laws asked of float64. *)
Lemma fixtures_Float64Order : @Float64Order fixtures.F64.
Proof.
  split; simpl; intros.
  - rewrite Z.gtb_ltb. apply Z.ltb_irrefl.
  - rewrite Z.gtb_ltb, Z.ltb_lt in *. lia.
  - rewrite !Z.gtb_ltb, !Z.ltb_lt in *. lia.
  - rewrite !Z.gtb_ltb. destruct (Z.eqb_spec a b), (Z.ltb_spec b a), (Z.ltb_spec a b);
      simpl; try reflexivity; lia.
Qed.

(** Insertion order and the stable sort have the laws asked of the range
    over a map and of [sort.Slice]. *)
Lemma fixtures_SelectorEnvLaws : @SelectorEnvLaws fixtures.F64 fixtures.SE.
Proof.
  split; simpl.
  - reflexivity.
  - intros. apply sort_SliceStable_perm.
  - intros. apply sort_SliceStable_sorted; assumption.
Qed.

Section examples.
#[local] Existing Instance fixtures.F64.
#[local] Existing Instance fixtures.CC.
#[local] Existing Instance fixtures.CD.
#[local] Existing Instance fixtures.SDB.
#[local] Existing Instance fixtures.SE.
#[local] Existing Instance fixtures.VE.
#[local] Existing Instance fixtures.AE.

(** ** The test of the effective amounts

    The ten cases of TestComputeEffectiveAmounts, on accounts A (256) and B
    (257) of token 0 and C (258) of token 1, ten units each. *)

Example effective_enough_funds :
  effectiveAmounts (fixtures.l1Tx 256 257 10 0 fixtures.addrA 0 common.TxTypeUnset)
  = (Some 0, Some 10).
Proof. reflexivity. Qed.

Example effective_not_enough_funds :
  effectiveAmounts (fixtures.l1Tx 256 257 11 0 fixtures.addrA 0 common.TxTypeUnset)
  = (Some 0, Some 0).
Proof. reflexivity. Qed.

Example effective_create_enough_funds :
  effectiveAmounts (fixtures.l1Tx 0 257 10 10 common.EmptyAddr 0 common.TxTypeUnset)
  = (Some 10, Some 10).
Proof. reflexivity. Qed.

Example effective_create_not_enough_funds :
  effectiveAmounts (fixtures.l1Tx 0 257 11 10 common.EmptyAddr 0 common.TxTypeUnset)
  = (Some 10, Some 0).
Proof. reflexivity. Qed.

Example effective_not_same_TokenID :
  effectiveAmounts (fixtures.l1Tx 256 258 5 0 fixtures.addrA 0 common.TxTypeUnset)
  = (Some 0, Some 0).
Proof. reflexivity. Qed.

Example effective_not_same_EthAddr :
  effectiveAmounts (fixtures.l1Tx 256 257 8 0 fixtures.addrB 0 common.TxTypeUnset)
  = (Some 0, Some 0).
Proof. reflexivity. Qed.

Example effective_deposit_without_transfer :
  effectiveAmounts (fixtures.l1Tx 256 257 20 8 fixtures.addrA 0 common.TxTypeUnset)
  = (Some 8, Some 0).
Proof. reflexivity. Qed.

Example effective_deposit_other_EthAddr :
  effectiveAmounts (fixtures.l1Tx 256 257 8 8 fixtures.addrB 0 common.TxTypeUnset)
  = (Some 8, Some 0).
Proof. reflexivity. Qed.

Example effective_create_no_receiver_token :
  effectiveAmounts (fixtures.l1Tx 0 257 8 8 fixtures.addrA 2
               common.TxTypeCreateAccountDepositTransfer)
  = (Some 8, Some 0).
Proof. reflexivity. Qed.

Example effective_deposit_no_receiver_token :
  effectiveAmounts (fixtures.l1Tx 258 256 8 8 fixtures.addrC 1 common.TxTypeDepositTransfer)
  = (Some 8, Some 0).
Proof. reflexivity. Qed.

(** The deposit of 8 with a transfer of 20 from an account holding 10. *)
Lemma computeEffectiveAmounts_deposit_witness :
  let tx := fixtures.l1Tx 256 257 20 8 fixtures.addrA 0 common.TxTypeUnset in
  let tx' := computeEffectiveAmounts fixtures.stateABC tx in
  L1Tx.UserOrigin tx = true /\
  preExistingBalance fixtures.stateABC tx + L1Tx.DepositAmount tx < L1Tx.Amount tx /\
  L1Tx.EffectiveDepositAmount tx' = Some 8 /\
  L1Tx.EffectiveAmount tx' = Some 0.
Proof.
  intros tx tx'.
  assert (Ho : L1Tx.UserOrigin tx = true) by reflexivity.
  assert (Hlt : preExistingBalance fixtures.stateABC tx + L1Tx.DepositAmount tx
                < L1Tx.Amount tx) by (vm_compute; reflexivity).
  destruct (@computeEffectiveAmounts_deposit fixtures.CC fixtures.SDB
              fixtures.stateABC tx Ho) as (Hd & Ha & _).
  split; [exact Ho|]. split; [exact Hlt|]. split; [exact Hd|exact (Ha Hlt)].
Defined.

(** ** Request offsets and admission *)

(** Offset 8, and a group of two whose first tx requests nothing. *)
Lemma requestOffset2RelativePosition_table_witness :
  let tx := fixtures.atomicTx 256 0 (fixtures.txID 257 0) 0 (repeat 1 32) 5 in
  let atomicGroup := [tx; fixtures.atomicTx 257 0 (fixtures.txID 256 0) 7 (repeat 1 32) 5] in
  7 < 8 /\ requestOffset2RelativePosition 8 = (0, Some ErrInvalidRqOffset) /\
  In tx atomicGroup /\ PoolL2Tx.RqOffset tx = 0 /\
  isAtomicGroupValid atomicGroup = false.
Proof.
  intros tx atomicGroup.
  destruct (@requestOffset2RelativePosition_table fixtures.F64)
    as (_ & _ & _ & _ & _ & _ & _ & _ & Habove & Hzero).
  assert (H78 : 7 < 8) by lia.
  assert (Hin : In tx atomicGroup) by (left; reflexivity).
  assert (Hoff : PoolL2Tx.RqOffset tx = 0) by reflexivity.
  split; [exact H78|]. split; [exact (Habove 8 H78)|].
  split; [exact Hin|]. split; [exact Hoff|exact (Hzero atomicGroup tx Hin Hoff)].
Defined.

(** A tx with RqOffset 1, sent to either endpoint on its own. *)
Lemma postPoolTx_rejects_atomic_data_witness :
  let tx := fixtures.atomicTx 256 0 (fixtures.txID 257 0) 1 (repeat 1 32) 5 in
  (PoolL2Tx.RqOffset tx <> 0 \/ PoolL2Tx.RqTxID tx <> common.EmptyTxID) /\
  postPoolTx apiABC (Ok tx) [] = (BadReq ErrNotAtomicTxsInPostPoolTx, l2 apiABC) /\
  (length [tx] <= 1)%nat /\
  postAtomicPool apiABC (Ok [tx]) [] = (BadReq ErrSingleTxInAtomicEndpoint, l2 apiABC).
Proof.
  intros tx.
  destruct (@postPoolTx_rejects_atomic_data fixtures.F64 fixtures.CC fixtures.AE)
    as [Hsingle Hatomic].
  assert (Hat : PoolL2Tx.RqOffset tx <> 0 \/ PoolL2Tx.RqTxID tx <> common.EmptyTxID)
    by (left; vm_compute; discriminate).
  assert (Hlen : (length [tx] <= 1)%nat) by (simpl; lia).
  split; [exact Hat|]. split; [exact (Hsingle apiABC tx [] Hat)|].
  split; [exact Hlen|exact (Hatomic apiABC [tx] [] Hlen)].
Defined.

(** An exit of account A: accepted with amount 5, refused with amount 0. *)
Example verifyPoolL2Tx_exit_positive :
  verifyPoolL2Tx apiABC (fixtures.poolTx 256 1 0 5 0) = Ok ().
Proof. vm_compute. reflexivity. Qed.

Example verifyPoolL2Tx_exit_zero :
  verifyPoolL2Tx apiABC (fixtures.poolTx 256 1 0 0 0) = Err ErrExitAmount0.
Proof. vm_compute. reflexivity. Qed.

(** The exit of amount 0 of account A. *)
Lemma verifyPoolL2Tx_exit_amount_witness :
  let tx := fixtures.poolTx 256 1 0 0 0 in
  (PoolL2Tx.Type_ tx = common.TxTypeExit \/
   exists tx', NewPoolL2Tx tx = Ok tx' /\ PoolL2Tx.Type_ tx' = common.TxTypeExit) /\
  PoolL2Tx.Amount tx = Some 0 /\
  verifyPoolL2Tx apiABC tx <> Ok () /\
  verifyPoolL2Tx apiABC tx <> Panic /\
  is_Err (verifyPoolL2Tx apiABC tx) /\
  exists e, postPoolTx apiABC (Ok tx) [] = (BadReq e, l2 apiABC).
Proof.
  intros tx.
  assert (Hexit : PoolL2Tx.Type_ tx = common.TxTypeExit \/
                  exists tx', NewPoolL2Tx tx = Ok tx' /\
                              PoolL2Tx.Type_ tx' = common.TxTypeExit).
  { right. eexists. split; vm_compute; reflexivity. }
  assert (Hamt : PoolL2Tx.Amount tx = Some 0) by reflexivity.
  assert (Hnp : verifyPoolL2Tx apiABC tx <> Panic) by (vm_compute; discriminate).
  destruct (@verifyPoolL2Tx_exit_amount fixtures.F64 fixtures.CC fixtures.AE
              apiABC tx Hexit) as [Hzero _].
  destruct (Hzero Hamt) as [Hnok Hrest]. destruct (Hrest Hnp) as [Herr Hresp].
  split; [exact Hexit|]. split; [exact Hamt|]. split; [exact Hnok|].
  split; [exact Hnp|]. split; [exact Herr|exact (Hresp [])].
Defined.

(** ** Transaction ids and compressed data *)

Example SetID_transfer3 :
  SetID (fixtures.poolTx 256 257 3 100 0)
  = Ok (PoolL2Tx.set_TxID [2; 0; 0; 0; 0; 1; 0; 0; 0; 0; 0; 3]
          (fixtures.poolTx 256 257 3 100 0)).
Proof. vm_compute. reflexivity. Qed.

Example NewPoolL2Tx_wrong_TxID :
  NewPoolL2Tx (PoolL2Tx.set_TxID (fixtures.txID 256 4) transfer3) = Err ErrTxIDMismatch.
Proof. vm_compute. reflexivity. Qed.

(** [transfer3] carries the id computed from its FromIdx and Nonce. *)
Lemma NewPoolL2Tx_TxID_witness :
  let tx := transfer3 in
  let tx1 := PoolL2Tx.set_Type common.TxTypeTransfer tx in
  length (PoolL2Tx.TxID tx) = 12%nat /\
  PoolL2Tx.FromIdx tx <= common.maxIdxValue /\
  PoolL2Tx.Nonce tx <= common.maxNonceValue /\
  SetType tx = Ok tx1 /\
  (PoolL2Tx.Type_ tx = common.TxTypeUnset \/ PoolL2Tx.Type_ tx = PoolL2Tx.Type_ tx1) /\
  (exists tx', SetID tx = Ok tx' /\ PoolL2Tx.TxID tx' = l2TxID tx /\ SetID tx' = Ok tx') /\
  (PoolL2Tx.TxID tx <> common.EmptyTxID ->
   (exists tx', NewPoolL2Tx tx = Ok tx') <-> PoolL2Tx.TxID tx = l2TxID tx).
Proof.
  intros tx tx1.
  assert (Hlen : length (PoolL2Tx.TxID tx) = 12%nat) by reflexivity.
  assert (Hidx : PoolL2Tx.FromIdx tx <= common.maxIdxValue)
    by (vm_compute; discriminate).
  assert (Hnonce : PoolL2Tx.Nonce tx <= common.maxNonceValue)
    by (vm_compute; discriminate).
  assert (Hty : SetType tx = Ok tx1) by (vm_compute; reflexivity).
  assert (Hold : PoolL2Tx.Type_ tx = common.TxTypeUnset \/
                 PoolL2Tx.Type_ tx = PoolL2Tx.Type_ tx1) by (left; reflexivity).
  repeat (split; [assumption|]).
  exact (@NewPoolL2Tx_TxID fixtures.F64 fixtures.CC tx tx1 Hlen Hidx Hnonce Hty Hold).
Defined.

(** [toIdx5] carries the id recomputed from its FromIdx and Nonce and is
    refused all the same: its type cannot be set. *)
Lemma NewPoolL2Tx_TxID_counterexample :
  PoolL2Tx.TxID toIdx5 <> common.EmptyTxID /\
  PoolL2Tx.TxID toIdx5 = l2TxID toIdx5 /\
  NewPoolL2Tx toIdx5 = Err ErrMalformedTx /\
  ~ ((exists tx', NewPoolL2Tx toIdx5 = Ok tx') <->
     PoolL2Tx.TxID toIdx5 = l2TxID toIdx5).
Proof.
  assert (Hid : PoolL2Tx.TxID toIdx5 = l2TxID toIdx5) by (vm_compute; reflexivity).
  assert (Hnew : NewPoolL2Tx toIdx5 = Err ErrMalformedTx) by (vm_compute; reflexivity).
  split; [vm_compute; discriminate|]. split; [exact Hid|]. split; [exact Hnew|].
  intros [_ Hback]. destruct (Hback Hid) as [tx' Hok].
  rewrite Hnew in Hok. discriminate Hok.
Qed.

Example TxCompressedData_transfer3 :
  TxCompressedData transfer3 5
  = Ok (common.SetBytes
          ([0] ++ [0] ++ [0; 0; 0; 0; 3] ++ [0; 0; 0; 0] ++ [0; 100]
           ++ [0; 0; 0; 0; 1; 1] ++ [0; 0; 0; 0; 1; 0] ++ [0; 5]
           ++ [198; 11; 230; 15])).
Proof. vm_compute. reflexivity. Qed.

(** [transfer3] on chain 5, with 100 as the float16 of its amount. *)
Lemma TxCompressedData_layout_witness :
  let tx := transfer3 in
  NewFloat16 (PoolL2Tx.Amount tx) = Ok 100 /\
  exists v, TxCompressedData tx 5 = Ok v /\
            common.be_bytes 31 v = compressedLayout tx 5 100 /\
            v = compressedValue tx 5 100.
Proof.
  intros tx. split; [reflexivity|].
  apply (@TxCompressedData_layout fixtures.F64 fixtures.CC fixtures.CD tx 5 100);
    try reflexivity; try (vm_compute; split; [discriminate|reflexivity]).
  vm_compute. repeat constructor; discriminate.
Defined.

(** ** The order of the selectable txs *)

Example sortL2Txs_by_fee :
  let l2Txs := [atomicFee4; atomicFee6; plainFee9] in
  sortL2Txs l2Txs (calculateAtomicGroupsAverageFee l2Txs)
  = [plainFee9; atomicFee4; atomicFee6].
Proof. vm_compute. reflexivity. Qed.

(** Two txs of no group between and around the two txs of a group. *)
Lemma sortL2Txs_order_witness :
  let l2Txs := [plainFee5; atomicFee4; plainFee9; atomicFee6] in
  let atomicGroupsFee := calculateAtomicGroupsAverageFee l2Txs in
  let sorted := sortL2Txs l2Txs atomicGroupsFee in
  Permutation sorted l2Txs /\
  StronglySorted (sortedOrder atomicGroupsFee) sorted /\
  (forall g, g <> common.EmptyAtomicGroupID -> ofGroup g sorted = ofGroup g l2Txs).
Proof.
  intros l2Txs atomicGroupsFee.
  exact (@sortL2Txs_order fixtures.F64 fixtures_Float64Order fixtures.SE
           fixtures_SelectorEnvLaws l2Txs atomicGroupsFee).
Defined.

(** The mean fee of the group is the fee of [plainFee5], and the group
    comes first. *)
Lemma sortL2Txs_order_counterexample :
  let l2Txs := [plainFee5; atomicFee4; atomicFee6] in
  let atomicGroupsFee := calculateAtomicGroupsAverageFee l2Txs in
  atomicGroupsFee !! group1 = Some (PoolL2Tx.AbsoluteFee plainFee5) /\
  sortL2Txs l2Txs atomicGroupsFee = [atomicFee4; atomicFee6; plainFee5].
Proof. split; vm_compute; reflexivity. Qed.

(** ** Detection of a single atomic group *)

Example isSingleAtomicGroup_cycle :
  isSingleAtomicGroup [cycleA; cycleB; cycleC] = true.
Proof. vm_compute. reflexivity. Qed.

Example isSingleAtomicGroup_outside :
  isSingleAtomicGroup [cycleA; cycleB; outsideC] = false.
Proof. vm_compute. reflexivity. Qed.

Example isSingleAtomicGroup_chain :
  isSingleAtomicGroup
    [cycleA; cycleB; fixtures.atomicTx 258 0 (fixtures.txID 257 0) 7 group1 4] = false.
Proof. vm_compute. reflexivity. Qed.

(** The cycle is a single atomic group; with C requesting nothing it is not. *)
Lemma isSingleAtomicGroup_spec_witness :
  (isSingleAtomicGroup [cycleA; cycleB; cycleC] = true /\
   requestsInside [cycleA; cycleB; cycleC] /\
   singleComponent [cycleA; cycleB; cycleC]) /\
  ((exists tx, tx ∈ [cycleA; cycleB; emptyC] /\
      (PoolL2Tx.RqTxID tx = common.EmptyTxID \/
       forall tx', tx' ∈ [cycleA; cycleB; emptyC] ->
                   PoolL2Tx.TxID tx' <> PoolL2Tx.RqTxID tx)) /\
   isSingleAtomicGroup [cycleA; cycleB; emptyC] = false).
Proof.
  assert (Htrue : isSingleAtomicGroup [cycleA; cycleB; cycleC] = true)
    by (vm_compute; reflexivity).
  assert (Hbreak : exists tx, tx ∈ [cycleA; cycleB; emptyC] /\
      (PoolL2Tx.RqTxID tx = common.EmptyTxID \/
       forall tx', tx' ∈ [cycleA; cycleB; emptyC] ->
                   PoolL2Tx.TxID tx' <> PoolL2Tx.RqTxID tx)).
  { exists emptyC. split; [|left; reflexivity].
    apply elem_of_cons; right. apply elem_of_cons; right.
    apply elem_of_cons; left. reflexivity. }
  split.
  - split; [exact Htrue|].
    exact (proj1 (proj1 (@isSingleAtomicGroup_spec fixtures.F64
                           [cycleA; cycleB; cycleC])) Htrue).
  - split; [exact Hbreak|].
    exact (proj2 (@isSingleAtomicGroup_spec fixtures.F64 [cycleA; cycleB; emptyC])
             Hbreak).
Defined.

(** ** Selections *)

(** With room for three txs, the deposit and the two best paying L2 txs
    are selected and the third L2 tx is left in the pool. *)
Example GetL1L2TxSelection_three :
  exists sel,
    GetL1L2TxSelection verifyTxs 2 20 (txselABC [transfer3; plainFee7; transfer4])
      (config 3 2) [depositA] [] = Returns (Ok sel) /\
    length (sel_l1UserTxs sel) = 1%nat /\
    sel_l1CoordinatorTxs sel = [] /\
    sel_l2Txs sel = [plainFee7; transfer4] /\
    sel_discardedL2Txs sel = [transfer3] /\
    sel_coordIdxs sel = [256].
Proof. eexists. split; [vm_compute; reflexivity|]. repeat split. Qed.

(** One deposit and a pool of three txs, with room for three. *)
Lemma GetL1L2TxSelection_l1UserTxs_witness :
  let l1UserTxs := [depositA] in
  let r := GetL1L2TxSelection verifyTxs 2 20
             (txselABC [transfer3; plainFee7; transfer4]) (config 3 2) l1UserTxs [] in
  exists sel,
    r = Returns (Ok sel) /\
    length (sel_l1UserTxs sel) = length l1UserTxs /\
    Forall2 (fun inp out =>
               processedFrom inp out /\
               L1Tx.set_Effective None None out = L1Tx.set_Effective None None inp)
            l1UserTxs (sel_l1UserTxs sel).
Proof.
  intros l1UserTxs r.
  assert (Hrun : exists sel, r = Returns (Ok sel))
    by (vm_compute; eexists; reflexivity).
  destruct Hrun as [sel Hrun]. exists sel. split; [exact Hrun|].
  exact (@GetL1L2TxSelection_l1UserTxs fixtures.F64 fixtures.CC fixtures.SDB fixtures.SE
           verifyTxs 2 20 (txselABC [transfer3; plainFee7; transfer4]) (config 3 2)
           l1UserTxs [] sel Hrun).
Defined.

(** The deposit comes back with its effective amounts filled in. *)
Lemma GetL1L2TxSelection_l1UserTxs_counterexample :
  exists sel,
    GetL1L2TxSelection verifyTxs 2 20 (txselABC []) (config 3 2) [depositA] []
    = Returns (Ok sel) /\
    sel_l1UserTxs sel = [L1Tx.set_Effective (Some 0) (Some 8) depositA] /\
    sel_l1UserTxs sel <> [depositA].
Proof.
  eexists. split; [vm_compute; reflexivity|]. split; [reflexivity|].
  vm_compute. discriminate.
Qed.

(** One deposit and a pool of three txs, with room for three txs of which
    two may be L1 txs. *)
Lemma GetL1L2TxSelection_capacity_witness :
  let l1UserTxs := [depositA] in
  let selectionConfig := config 3 2 in
  let r := GetL1L2TxSelection verifyTxs 2 20
             (txselABC [transfer3; plainFee7; transfer4]) selectionConfig l1UserTxs [] in
  Z.of_nat (length l1UserTxs) <= Config.MaxL1Tx selectionConfig /\
  Z.of_nat (length l1UserTxs) <= Config.MaxTx selectionConfig /\
  exists sel, r = Returns (Ok sel) /\ withinCapacity selectionConfig sel.
Proof.
  intros l1UserTxs selectionConfig r.
  assert (HmaxL1 : Z.of_nat (length l1UserTxs) <= Config.MaxL1Tx selectionConfig)
    by (vm_compute; discriminate).
  assert (Hmax : Z.of_nat (length l1UserTxs) <= Config.MaxTx selectionConfig)
    by (vm_compute; discriminate).
  assert (Hrun : exists sel, r = Returns (Ok sel))
    by (vm_compute; eexists; reflexivity).
  split; [exact HmaxL1|]. split; [exact Hmax|].
  destruct Hrun as [sel Hrun]. exists sel. split; [exact Hrun|].
  exact (@GetL1L2TxSelection_capacity fixtures.F64 fixtures.CC fixtures.SDB fixtures.SE
           fixtures.VE 2 20 (txselABC [transfer3; plainFee7; transfer4]) selectionConfig
           l1UserTxs [] sel HmaxL1 Hmax Hrun).
Defined.

(** Three queued deposits and an empty pool, with room for two L1 txs:
    the three deposits are returned. *)
Lemma GetL1L2TxSelection_capacity_counterexample :
  exists sel,
    GetL1L2TxSelection verifyTxs 2 20 (txselABC []) (config 3 2)
      [depositA; depositA; depositA] [] = Returns (Ok sel) /\
    length (sel_l1UserTxs sel) = 3%nat /\
    ~ withinCapacity (config 3 2) sel.
Proof.
  eexists. split; [vm_compute; reflexivity|]. split; [reflexivity|].
  intros [HmaxL1 _]. vm_compute in HmaxL1. apply HmaxL1. reflexivity.
Qed.

(** The same on the path through the select loop: one deposit and a pool
    that is not empty, with room for no L1 tx at all. *)
Example GetL1L2TxSelection_no_room :
  exists sel,
    GetL1L2TxSelection verifyTxs 2 20 (txselABC [transfer3; plainFee7; transfer4])
      (config 3 0) [depositA] [] = Returns (Ok sel) /\
    length (sel_l1UserTxs sel) = 1%nat /\
    ~ withinCapacity (config 3 0) sel.
Proof.
  eexists. split; [vm_compute; reflexivity|]. split; [reflexivity|].
  intros [HmaxL1 _]. vm_compute in HmaxL1. apply HmaxL1. reflexivity.
Qed.

(** ** The second compressed form *)

Example TxCompressedDataV2_transfer3 :
  TxCompressedDataV2 transfer3
  = (transfer3,
     Ok (common.SetBytes
           ([0] ++ [0] ++ [0; 0; 0; 0; 3] ++ [0; 0; 0; 0] ++ [0; 100]
            ++ [0; 0; 0; 0; 1; 1] ++ [0; 0; 0; 0; 1; 0]))).
Proof. vm_compute. reflexivity. Qed.

(** [transfer3], with 100 as the float16 of its amount. *)
Lemma TxCompressedDataV2_layout_witness :
  let tx := transfer3 in
  NewFloat16 (Some (default 0 (PoolL2Tx.Amount tx))) = Ok 100 /\
  exists v,
    TxCompressedDataV2 tx = (set_Amount (Some (default 0 (PoolL2Tx.Amount tx))) tx, Ok v) /\
    common.be_bytes 25 v = compressedLayoutV2 tx 100 /\
    v = compressedValueV2 tx 100.
Proof.
  intros tx. split; [reflexivity|].
  apply (TxCompressedDataV2_layout (F64 := fixtures.F64) (CD := fixtures.CD) tx 100);
    try reflexivity; vm_compute; split; first [discriminate | reflexivity].
Defined.

(** [transfer3] on chain 5. *)
Lemma TxCompressedData_V2_witness :
  let tx := transfer3 in
  let v1 := 18831305206162272366027221352298790586300337988702332249615 in
  length common.SignatureConstantBytes = 4%nat /\
  PoolL2Tx.Amount tx <> None /\
  UnpackSignY_sign common.EmptyBJJComp = false /\
  TxCompressedData tx 5 = Ok v1 /\
  exists v2,
    TxCompressedDataV2 tx = (tx, Ok v2) /\
    v1 = v2 * 2 ^ 48 + (5 mod 2 ^ 16) * 2 ^ 32
         + common.SetBytes common.SignatureConstantBytes.
Proof.
  intros tx v1.
  assert (Hsig : length common.SignatureConstantBytes = 4%nat) by reflexivity.
  assert (Hamt : PoolL2Tx.Amount tx <> None) by discriminate.
  assert (Hsign : UnpackSignY_sign common.EmptyBJJComp = false)
    by (vm_compute; reflexivity).
  assert (Hv1 : TxCompressedData tx 5 = Ok v1) by (vm_compute; reflexivity).
  do 4 (split; [assumption|]).
  exact (TxCompressedData_V2 (F64 := fixtures.F64) (CC := fixtures.CC) (CD := fixtures.CD)
           tx 5 v1
           Hsig Hamt (fun _ => Hsign) Hv1).
Defined.

(** A tx with the Rq fields of [transfer3], and [transfer3]. *)
Example RqTxCompressedDataV2_transfer3 :
  (RqTxCompressedDataV2 (PoolL2Tx.set_Rq transfer3 plainFee5)).2
  = Ok 66902235595599792240858581324043507927613696.
Proof. vm_compute. reflexivity. Qed.

(** ** Types, ids and conversions *)

Lemma SetType_idempotent_witness :
  let tx := transfer3 in
  let tx1 := PoolL2Tx.set_Type common.TxTypeTransfer tx in
  SetType tx = Ok tx1 /\
  tx1 = PoolL2Tx.set_Type (PoolL2Tx.Type_ tx1) tx /\ SetType tx1 = Ok tx1.
Proof.
  intros tx tx1.
  assert (Hty : SetType tx = Ok tx1) by (vm_compute; reflexivity).
  split; [exact Hty|].
  exact (SetType_idempotent (F64 := fixtures.F64) (CC := fixtures.CC) tx tx1 Hty).
Defined.

Lemma NewPoolL2Tx_idempotent_witness :
  let tx := fixtures.poolTx 256 257 3 100 0 in
  let tx' := PoolL2Tx.set_Type common.TxTypeTransfer transfer3 in
  length (PoolL2Tx.TxID tx) = 12%nat /\
  NewPoolL2Tx tx = Ok tx' /\
  tx' = PoolL2Tx.set_TxID (l2TxID tx) (PoolL2Tx.set_Type (PoolL2Tx.Type_ tx') tx) /\
  NewPoolL2Tx tx' = Ok tx'.
Proof.
  intros tx tx'.
  assert (Hlen : length (PoolL2Tx.TxID tx) = 12%nat) by reflexivity.
  assert (Hnew : NewPoolL2Tx tx = Ok tx') by (vm_compute; reflexivity).
  split; [exact Hlen|]. split; [exact Hnew|].
  exact (NewPoolL2Tx_idempotent (F64 := fixtures.F64) (CC := fixtures.CC) tx tx'
           Hlen Hnew).
Defined.

(** A transfer to an account and a transfer to an address, whose AuxToIdx
    stands for the ToIdx that is 0. *)
Example PoolL2TxsToL2Txs_two :
  PoolL2TxsToL2Txs [transfer3; fixtures.poolTx 256 0 4 7 0]
  = Ok [L2Tx.mk (fixtures.txID 256 3) 256 257 (Some 100) 0 3 common.TxTypeUnset;
        L2Tx.mk common.EmptyTxID 256 0 (Some 7) 0 4 common.TxTypeUnset].
Proof. vm_compute. reflexivity. Qed.

Lemma PoolL2TxsToL2Txs_spec_witness :
  let txs := [transfer3; plainFee5] in
  txs !! 1%nat = Some plainFee5 /\
  exists l2Txs l2Tx,
    PoolL2TxsToL2Txs txs = Ok l2Txs /\
    map L2Tx.TxID l2Txs = TxIDsFromPoolL2Txs txs /\
    l2Txs !! 1%nat = Some l2Tx /\
    L2Tx.TxID l2Tx = PoolL2Tx.TxID plainFee5.
Proof.
  intros txs.
  assert (H1 : txs !! 1%nat = Some plainFee5) by reflexivity.
  split; [exact H1|].
  destruct (PoolL2TxsToL2Txs_spec (F64 := fixtures.F64) txs) as (l2Txs & Hok & _ & Hall & Hids).
  destruct (Hall 1%nat plainFee5 H1) as (l2Tx & Hl & Hid & _).
  exists l2Txs, l2Tx. auto.
Defined.

(** ** Offsets and admission *)

Lemma requestOffset2RelativePosition_injective_witness :
  requestOffset2RelativePosition 1 = (1, None) /\
  requestOffset2RelativePosition 7 = (-1, None) /\
  (1 <= 1 <= 7 /\ -4 <= 1 <= 3 /\ 1 <> 0) /\ (1 = -1 -> 1 = 7).
Proof.
  assert (H1 : requestOffset2RelativePosition 1 = (1, None)) by reflexivity.
  assert (H7 : requestOffset2RelativePosition 7 = (-1, None)) by reflexivity.
  split; [exact H1|]. split; [exact H7|].
  exact (requestOffset2RelativePosition_injective 1 7 1 (-1) H1 H7).
Defined.

Lemma verifyPoolL2Tx_sound_witness :
  verifyPoolL2Tx apiABC exit5 = Ok () /\
  exists tx' feeAmount account,
    NewPoolL2Tx exit5 = Ok tx' /\
    CalcFeeAmount (PoolL2Tx.Amount exit5) (PoolL2Tx.Fee exit5) = Ok feeAmount /\
    GetCommonAccountAPI (h apiABC) (PoolL2Tx.FromIdx exit5) = Ok account /\
    PoolL2Tx.TokenID exit5 = Account.TokenID account /\
    Account.Nonce account <= PoolL2Tx.Nonce exit5 /\
    VerifySignature tx' (cg_ChainID apiABC) (Account.BJJ account) = true /\
    (PoolL2Tx.Type_ tx' = common.TxTypeExit ->
       exists amount, PoolL2Tx.Amount exit5 = Some amount /\ 0 < amount).
Proof.
  assert (Hok : verifyPoolL2Tx apiABC exit5 = Ok ()) by (vm_compute; reflexivity).
  split; [exact Hok|].
  destruct (verifyPoolL2Tx_sound (F64 := fixtures.F64) (CC := fixtures.CC)
              (AE := fixtures.AE) apiABC exit5 Hok)
    as (tx' & feeAmount & account & H1 & H2 & H3 & H4 & H5 & H6 & _ & _ & H9).
  exists tx', feeAmount, account. auto 10.
Defined.

(** The exit is stored as it was received, with the address of the client. *)
Lemma postPoolTx_accepts_witness :
  let db := [PoolL2Tx.set_ClientIP [9] exit5] in
  postPoolTx apiABC (Ok exit5) [9] = (StatusOK [common.EmptyTxID], db) /\
  exists receivedTx,
    Ok exit5 = Ok receivedTx /\
    PoolL2Tx.RqOffset receivedTx = 0 /\
    PoolL2Tx.RqTxID receivedTx = common.EmptyTxID /\
    verifyPoolL2Tx apiABC receivedTx = Ok () /\
    AddTxAPI (l2 apiABC) (PoolL2Tx.set_ClientIP [9] receivedTx) = Ok db /\
    [common.EmptyTxID] = [PoolL2Tx.TxID receivedTx].
Proof.
  intros db.
  assert (Hok : postPoolTx apiABC (Ok exit5) [9] = (StatusOK [common.EmptyTxID], db))
    by (vm_compute; reflexivity).
  split; [exact Hok|].
  exact (proj1 (postPoolTx_accepts (F64 := fixtures.F64) (CC := fixtures.CC)
                  (AE := fixtures.AE) apiABC (Ok exit5) [9])
           [common.EmptyTxID] db Hok).
Defined.

(** ** Valid atomic groups and the atomic endpoint *)

Example isAtomicGroupValid_filledPair : isAtomicGroupValid filledPair = true.
Proof. vm_compute. reflexivity. Qed.

(** The same txs as they are received, their Rq fields empty. *)
Example isAtomicGroupValid_unfilled : isAtomicGroupValid [atomicFee4; atomicFee6] = false.
Proof. vm_compute. reflexivity. Qed.

Lemma isAtomicGroupValid_spec_witness :
  (isAtomicGroupValid filledPair = true /\
   filledPair !! 0%nat = Some (PoolL2Tx.set_Rq atomicFee6 atomicFee4) /\
   exists req,
     requestedAt filledPair 0 (PoolL2Tx.set_Rq atomicFee6 atomicFee4) req /\
     rqMatches (PoolL2Tx.set_Rq atomicFee6 atomicFee4) req) /\
  (length [atomicFee4] = 1%nat /\ isAtomicGroupValid [atomicFee4] = false).
Proof.
  assert (Hv : isAtomicGroupValid filledPair = true) by (vm_compute; reflexivity).
  assert (H0 : filledPair !! 0%nat = Some (PoolL2Tx.set_Rq atomicFee6 atomicFee4))
    by reflexivity.
  assert (H1 : length [atomicFee4] = 1%nat) by reflexivity.
  split.
  - split; [exact Hv|]. split; [exact H0|].
    exact (proj1 (proj1 (isAtomicGroupValid_spec (F64 := fixtures.F64) filledPair)) Hv
             0%nat _ H0).
  - split; [exact H1|].
    exact (proj2 (isAtomicGroupValid_spec (F64 := fixtures.F64) [atomicFee4]) H1).
Defined.

(** The two txs of [group1] are accepted and stored with the Rq fields of
    each other and the address of the client. *)
Example postAtomicPool_pair :
  postAtomicPool apiABC (Ok [atomicFee4; atomicFee6]) [9]
  = (StatusOK [fixtures.txID 256 0; fixtures.txID 257 0],
     map (PoolL2Tx.set_ClientIP [9]) filledPair).
Proof. vm_compute. reflexivity. Qed.

Lemma postAtomicPool_accepts_witness :
  let receivedTxs := [atomicFee4; atomicFee6] in
  let txIDs := [fixtures.txID 256 0; fixtures.txID 257 0] in
  let db := map (PoolL2Tx.set_ClientIP [9]) filledPair in
  postAtomicPool apiABC (Ok receivedTxs) [9] = (StatusOK txIDs, db) /\
  exists stored,
    (2 <= length receivedTxs)%nat /\
    length stored = length receivedTxs /\
    isSingleAtomicGroup stored = true /\
    AddAtomicTxsAPI (l2 apiABC) stored = Ok db /\
    txIDs = map PoolL2Tx.TxID receivedTxs.
Proof.
  intros receivedTxs txIDs db.
  assert (Hok : postAtomicPool apiABC (Ok receivedTxs) [9] = (StatusOK txIDs, db))
    by (vm_compute; reflexivity).
  split; [exact Hok|].
  destruct (proj1 (postAtomicPool_accepts (F64 := fixtures.F64) (CC := fixtures.CC)
                     (AE := fixtures.AE) apiABC (Ok receivedTxs) [9]) txIDs db Hok)
    as (received & stored & Hbody & Hlen & Hls & _ & Hsingle & Hadd & Hids).
  injection Hbody as <-. exists stored. auto.
Defined.

Lemma postAtomicPool_valid_group_witness :
  let receivedTxs := [atomicFee4; atomicFee6] in
  let txIDs := [fixtures.txID 256 0; fixtures.txID 257 0] in
  let db := map (PoolL2Tx.set_ClientIP [9]) filledPair in
  postAtomicPool apiABC (Ok receivedTxs) [9] = (StatusOK txIDs, db) /\
  (forall (i : nat) tx req, receivedTxs !! i = Some tx ->
     requestedAt receivedTxs i tx req -> PoolL2Tx.RqTxID tx = PoolL2Tx.TxID req) /\
  exists stored,
    AddAtomicTxsAPI (l2 apiABC) stored = Ok db /\
    length stored = length receivedTxs /\
    isAtomicGroupValid stored = true.
Proof.
  intros receivedTxs txIDs db.
  assert (Hok : postAtomicPool apiABC (Ok receivedTxs) [9] = (StatusOK txIDs, db))
    by (vm_compute; reflexivity).
  assert (Hnames : forall (i : nat) tx req, receivedTxs !! i = Some tx ->
            requestedAt receivedTxs i tx req ->
            PoolL2Tx.RqTxID tx = PoolL2Tx.TxID req).
  { intros i tx req Hi (rel & Hoff & Hat).
    destruct i as [|[|i]]; simpl in Hi; [| |discriminate Hi];
      injection Hi as <-; vm_compute in Hoff; injection Hoff as <-;
      vm_compute in Hat; injection Hat as <-; reflexivity. }
  split; [exact Hok|]. split; [exact Hnames|].
  exact (postAtomicPool_valid_group (F64 := fixtures.F64) (CC := fixtures.CC)
           (AE := fixtures.AE) apiABC receivedTxs [9] txIDs db Hok Hnames).
Defined.

(** A payload whose first tx requests nothing. *)
Lemma postAtomicPool_rejects_offsets_witness :
  let receivedTxs := [zeroOffset; atomicFee6] in
  (2 <= length receivedTxs)%nat /\
  (exists (i : nat) tx, receivedTxs !! i = Some tx /\
     forall req, ~ requestedAt receivedTxs i tx req) /\
  exists e,
    postAtomicPool apiABC (Ok receivedTxs) [9] = (BadReq e, l2 apiABC) /\
    (e = ErrTxsNotAtomic \/ e = ErrInvalidRqOffset \/ e = ErrRqOffsetOutOfBounds).
Proof.
  intros receivedTxs.
  assert (Hlen : (2 <= length receivedTxs)%nat) by (simpl; lia).
  assert (Hbad : exists (i : nat) tx, receivedTxs !! i = Some tx /\
                   forall req, ~ requestedAt receivedTxs i tx req).
  { exists 0%nat, zeroOffset. split; [reflexivity|].
    intros req (rel & Hoff & _). vm_compute in Hoff. discriminate Hoff. }
  split; [exact Hlen|]. split; [exact Hbad|].
  exact (postAtomicPool_rejects_offsets (F64 := fixtures.F64) (CC := fixtures.CC)
           (AE := fixtures.AE) apiABC receivedTxs [9] Hlen Hbad).
Defined.

Example postAtomicPool_zero_offset :
  postAtomicPool apiABC (Ok [zeroOffset; atomicFee6]) [9]
  = (BadReq ErrTxsNotAtomic, l2 apiABC).
Proof. vm_compute. reflexivity. Qed.

Lemma isSingleAtomicGroup_cycle_ids_witness :
  let txs := [cycleA; cycleB; cycleC] in
  isSingleAtomicGroup txs = true /\
  NoDup (map PoolL2Tx.TxID txs) /\
  NoDup (map PoolL2Tx.RqTxID txs) /\
  Permutation (map PoolL2Tx.RqTxID txs) (map PoolL2Tx.TxID txs).
Proof.
  intros txs.
  assert (Hs : isSingleAtomicGroup txs = true) by (vm_compute; reflexivity).
  split; [exact Hs|].
  exact (isSingleAtomicGroup_cycle_ids (F64 := fixtures.F64) txs Hs).
Defined.

(** Two txs with the same id, requesting each other's id. *)
Example isSingleAtomicGroup_same_id :
  isSingleAtomicGroup
    [fixtures.atomicTx 256 0 (fixtures.txID 256 0) 1 group1 4;
     fixtures.atomicTx 256 0 (fixtures.txID 256 0) 7 group1 4] = false.
Proof. vm_compute. reflexivity. Qed.

(** ** The filters and the mean fee *)

Example filterFailedAtomicGroups_group1 :
  filterFailedAtomicGroups [plainFee5; atomicFee4; atomicFee6] failedGroup1
  = ([plainFee5],
     [PoolL2Tx.set_Info [1] 7 [2] atomicFee4; PoolL2Tx.set_Info [1] 18 [] atomicFee6]).
Proof. vm_compute. reflexivity. Qed.

Lemma filterFailedAtomicGroups_spec_witness :
  let txs := [plainFee5; atomicFee4; atomicFee6] in
  (∅ : gmap common.AtomicGroupID failedAtomicGroup) = ∅ /\
  filterFailedAtomicGroups txs ∅ = (txs, []).
Proof.
  intros txs. split; [reflexivity|].
  exact (proj2 (proj2 (filterFailedAtomicGroups_spec (F64 := fixtures.F64)
                         (SE := fixtures.SE) txs ∅)) eq_refl).
Defined.

Example filterInvalidAtomicGroups_mixed :
  filterInvalidAtomicGroups (atomicFee4 :: plainFee5 :: filledPair ++ [atomicFee6])
  = ([plainFee5],
     map markInvalid (atomicFee4 :: filledPair ++ [atomicFee6])).
Proof. vm_compute. reflexivity. Qed.

Lemma filterInvalidAtomicGroups_spec_witness :
  let txs := plainFee5 :: filledPair in
  group1 <> common.EmptyAtomicGroupID /\
  isAtomicGroupValid (ofGroup group1 txs) = true /\
  ofGroup group1 (filterInvalidAtomicGroups txs).1 = ofGroup group1 txs /\
  ofGroup group1 (filterInvalidAtomicGroups txs).2 = [].
Proof.
  intros txs.
  assert (Hg : group1 <> common.EmptyAtomicGroupID) by (vm_compute; discriminate).
  assert (Hv : isAtomicGroupValid (ofGroup group1 txs) = true)
    by (vm_compute; reflexivity).
  split; [exact Hg|]. split; [exact Hv|].
  pose proof (proj2 (proj2 (filterInvalidAtomicGroups_spec (F64 := fixtures.F64)
                              (SE := fixtures.SE) (SL := fixtures_SelectorEnvLaws) txs))
                group1 Hg) as H.
  rewrite Hv in H. exact H.
Defined.

Example calculateAtomicGroupsAverageFee_group1 :
  calculateAtomicGroupsAverageFee [plainFee5; atomicFee4; atomicFee6] !! group1 = Some 5.
Proof. vm_compute. reflexivity. Qed.

(** ** Selections *)

Lemma GetL1L2TxSelection_coordIdxs_witness :
  let r := GetL1L2TxSelection verifyTxs 2 20
             (txselABC [transfer3; plainFee7; transfer4]) (config 3 2) [depositA] [] in
  exists sel,
    r = Returns (Ok sel) /\
    StronglySorted Z.le (sel_coordIdxs sel) /\
    (length (sel_coordIdxs sel) <= length (sel_l2Txs sel))%nat.
Proof.
  intros r.
  assert (Hrun : exists sel, r = Returns (Ok sel))
    by (vm_compute; eexists; reflexivity).
  destruct Hrun as [sel Hrun]. exists sel. split; [exact Hrun|].
  exact (GetL1L2TxSelection_coordIdxs (F64 := fixtures.F64) (CC := fixtures.CC)
           (SDB := fixtures.SDB) (SE := fixtures.SE) verifyTxs 2 20
           (txselABC [transfer3; plainFee7; transfer4]) (config 3 2) [depositA] []
           sel Hrun).
Defined.

Lemma GetL1L2TxSelection_empty_pool_witness :
  GetPendingTxs (l2db (txselABC [])) = Ok [] /\
  GetL1L2TxSelection verifyTxs 1 0 (txselABC []) (config 3 2) [depositA] []
  = Returns (r ← processL1UserTxs
                   (clearAccumulatedFees (localAccountsDB (txselABC []))) [depositA];
             tp ← MakeCheckpoint r.1;
             Ok (mkSelection [] [] r.2 [] [] [] tp)).
Proof.
  assert (Hpool : GetPendingTxs (l2db (txselABC [])) = Ok []) by reflexivity.
  split; [exact Hpool|].
  exact (GetL1L2TxSelection_empty_pool (F64 := fixtures.F64) (CC := fixtures.CC)
           (SDB := fixtures.SDB) (SE := fixtures.SE) (SL := fixtures_SelectorEnvLaws)
           verifyTxs 0 0 (txselABC []) (config 3 2) [depositA] [] Hpool).
Defined.

(** The group of [atomicFee4] and [atomicFee6], given apart, comes out
    together, after the tx that pays more and before the tx that pays the
    mean fee of the group. *)
Example sortL2Txs_together :
  let l2Txs := [plainFee5; atomicFee4; plainFee9; atomicFee6] in
  sortL2Txs l2Txs (calculateAtomicGroupsAverageFee l2Txs)
  = [plainFee9] ++ [atomicFee4; atomicFee6] ++ [plainFee5].
Proof. vm_compute. reflexivity. Qed.

Lemma sortL2Txs_consecutive_witness :
  let l2Txs := [plainFee5; atomicFee4; plainFee9; atomicFee6] in
  let atomicGroupsFee := calculateAtomicGroupsAverageFee l2Txs in
  group1 <> common.EmptyAtomicGroupID /\
  exists before after,
    sortL2Txs l2Txs atomicGroupsFee = before ++ ofGroup group1 l2Txs ++ after /\
    ofGroup group1 before = [] /\ ofGroup group1 after = [].
Proof.
  intros l2Txs atomicGroupsFee.
  assert (Hg : group1 <> common.EmptyAtomicGroupID) by (vm_compute; discriminate).
  split; [exact Hg|].
  exact (sortL2Txs_consecutive (F64 := fixtures.F64) (SE := fixtures.SE)
           (SL := fixtures_SelectorEnvLaws) l2Txs atomicGroupsFee group1 Hg).
Defined.

End examples.
